(** * workbox-background-sync: the request queue and its replay engine

    A shallow embedding of [Queue] (the class that stores failed requests
    and replays them later) together with the collaborators it drives:
    the name registry, the object store, the network, the sync manager
    and the lifecycle callbacks.  JavaScript's asynchronous methods are
    written in a state-and-exception monad over an explicit [World]. *)

From Stdlib Require Import ZArith Lia.
From stdpp Require Import base gmap sets list strings sorting.

Local Open Scope Z_scope.
Local Open Scope string_scope.
Local Open Scope list_scope.

(** ** Request snapshots *)

Module StorableRequest.

Definition bytes := list Byte.byte.

Inductive CredentialsMode := Omit | SameOrigin | Include.

(** A live request value, as handed to [addRequest] or to the network. *)
Record Request := {
  req_method : string;
  req_url : string;
  req_headers : list (string * string);
  req_body : option bytes;
  req_bodyUsed : bool;
  req_mode : CredentialsMode;
  req_referrer : option string;
}.

(** Modelled from the spec: the snapshot class (StorableRequest.mjs) is
    imported by the queue but is not part of the sources.  The record
    follows the data model: method, URL, ordered header pairs, optional
    body bytes, credentials mode, optional referrer, capture time. *)
Record t := {
  method : string;
  url : string;
  headers : list (string * string);
  body : option bytes;
  mode : CredentialsMode;
  referrer : option string;
  timestamp : Z;
}.

(** Modelled from the spec: the persisted record shape
    [{method, url, headers, body?, mode, referrer, timestamp}]. *)
Record Obj := {
  o_method : string;
  o_url : string;
  o_headers : list (string * string);
  o_body : option bytes;
  o_mode : CredentialsMode;
  o_referrer : option string;
  o_timestamp : Z;
}.

(** Modelled from the spec: GET and HEAD are the methods without a body. *)
Definition permits_body (m : string) : bool :=
  negb (String.eqb m "GET" || String.eqb m "HEAD").

(** Modelled from the spec: [fromRequest] captures every field, reads the
    body when the method permits one, stamps the capture time, and fails
    when the body was already consumed. *)
Definition fromRequest (now : Z) (r : Request) : option t :=
  if permits_body (req_method r) then
    if req_bodyUsed r then None
    else Some {| method := req_method r; url := req_url r;
                 headers := req_headers r; body := req_body r;
                 mode := req_mode r; referrer := req_referrer r;
                 timestamp := now |}
  else Some {| method := req_method r; url := req_url r;
               headers := req_headers r; body := None;
               mode := req_mode r; referrer := req_referrer r;
               timestamp := now |}.

(** Modelled from the spec: [toRequest] rebuilds a request; a method
    without a body never carries one, even if the snapshot holds bytes. *)
Definition toRequest (s : t) : Request :=
  {| req_method := method s; req_url := url s; req_headers := headers s;
     req_body := if permits_body (method s) then body s else None;
     req_bodyUsed := false;
     req_mode := mode s; req_referrer := referrer s |}.

(** Modelled from the spec: lossless conversion to the persisted shape. *)
Definition toObject (s : t) : Obj :=
  {| o_method := method s; o_url := url s; o_headers := headers s;
     o_body := body s; o_mode := mode s; o_referrer := referrer s;
     o_timestamp := timestamp s |}.

(** Modelled from the spec: [fromObject], which the queue reaches through
    [new StorableRequest(entry.storableRequest)]. *)
Definition fromObject (o : Obj) : t :=
  {| method := o_method o; url := o_url o; headers := o_headers o;
     body := o_body o; mode := o_mode o; referrer := o_referrer o;
     timestamp := o_timestamp o |}.

End StorableRequest.

Abbreviation Request := StorableRequest.Request.

(** ** The world a service worker's queue code runs in *)

Definition Key := Z.
Definition loc := nat.

(** One record of the object store. *)
Record Entry := {
  queueName : string;
  storableRequest : StorableRequest.Obj;
}.

(** Modelled from the spec: the object store behind [indexedDBHelper]
    (workbox-core is imported, not part of the sources).  [add] assigns an
    increasing key, [getAll] yields the [(key, entry)] pairs in key order,
    [delete] removes by key. *)
Record Store := {
  rows : list (Key * Entry);
  next_key : Key;
}.

Inductive StoreOp :=
| OpOpen
| OpAdd (e : Entry)
| OpGetAll
| OpDelete (k : Key).

(** Snapshot objects live in a heap: callbacks receive a reference and may
    mutate the object they are given. *)
Definition Heap := loc -> StorableRequest.t.

Definition heap_set (l : loc) (s : StorableRequest.t) (hp : Heap) : Heap :=
  fun l' => if Nat.eqb l' l then s else hp l'.

(** What a callback is applied to: one snapshot, or the array of replayed
    snapshots. *)
Inductive Arg :=
| ArgRequest (l : loc)
| ArgRequests (ls : list loc).

(** The continuation of an asynchronous callback: it resumes once [delay]
    further suspension points of the caller have passed. *)
Definition Job := (nat * (Heap -> Heap))%type.

(** One call of a callback: the heap when the call returns, whether the
    call threw, and what an asynchronous callback left to run later. *)
Record CallbackRun := {
  run_heap : Heap;
  run_threw : bool;
  run_later : list Job;
}.

Definition JsFunction := Arg -> Heap -> CallbackRun.

Inductive JsValue :=
| VFunction (f : JsFunction)
| VOther.

Record Queue := {
  _name : string;
  _callbacks : gmap string JsValue;
  _maxRetentionTime : Z;
}.

Inductive Event :=
| EvCallback (name : string) (arg : Arg) (threw : bool)
| EvFetch (l : loc) (r : Request) (ok : bool)
| EvStore (op : StoreOp) (ok : bool)
| EvRegisterSync (tag : string) (ok : bool)
| EvReplay (name : string).

(** A call of an asynchronous method that nobody waits for and that has
    not run yet: its promise was dropped by the caller, or it is suspended
    until the worker is active. *)
Inductive Task :=
| TRemove (q : Queue) (key : Key)   (* [this._removeRequest(key)] *)
| TRegister (q : Queue)             (* [this._registerSync()] *)
| TPass (q : Queue).                (* [this.replayRequests()], once entered *)

Record World := {
  names : gset string;          (* the module-level [names] set *)
  store : Store;
  heap : Heap;
  fresh : loc;
  jobs : list Job;
  trace : list Event;
  step : nat;                   (* host operations performed so far *)
  now : Z;                      (* the reading of [Date.now()] *)
  listeners : list Queue;       (* 'sync' listeners added to [self] *)
  sync_tags : list string;      (* tags registered with the sync manager *)
  parked : list Task;           (* calls nobody waits for, not run yet *)
}.

(** The parts of the host the queue cannot control: whether a fetch, a
    store request or a sync registration succeeds, whether the browser
    has background sync at all, whether the service worker is active
    ([self.registration.active]), and whether a call nobody waits for gets
    its requests through before its caller goes on. *)
Record Host := {
  fetch_ok : nat -> Request -> bool;
  store_ok : nat -> StoreOp -> bool;
  sync_supported : bool;
  sync_ok : nat -> string -> bool;
  worker_active : nat -> bool;
  lands_now : nat -> Task -> bool;
}.

Inductive Error :=
| DuplicateQueueName (name : string)
| ConversionError
| StorageFailure
| NetworkFailure
| CallbackError
| SyncFailure.

Inductive Result (A : Type) :=
| Ok (a : A)
| Throw (e : Error).
Arguments Ok {A} a.
Arguments Throw {A} e.

(** ** The monad of asynchronous methods *)

Definition M (A : Type) : Type := World -> Result A * World.

Definition ret {A} (a : A) : M A := fun w => (Ok a, w).

Definition throw {A} (e : Error) : M A := fun w => (Throw e, w).

Definition bind {A B} (m : M A) (f : A -> M B) : M B :=
  fun w =>
    match m w with
    | (Ok a, w') => f a w'
    | (Throw e, w') => (Throw e, w')
    end.

Definition try_catch {A} (m : M A) (handler : Error -> M A) : M A :=
  fun w =>
    match m w with
    | (Ok a, w') => (Ok a, w')
    | (Throw e, w') => handler e w'
    end.

Declare Scope queue_scope.
Delimit Scope queue_scope with queue.
Notation "x <- m ;; k" := (bind m (fun x => k))
  (at level 100, m at next level, right associativity) : queue_scope.
Notation "m ;;; k" := (bind m (fun _ => k))
  (at level 100, right associativity) : queue_scope.
Local Open Scope queue_scope.

Definition set_names (f : gset string -> gset string) (w : World) : World :=
  {| names := f (names w); store := store w; heap := heap w; fresh := fresh w;
     jobs := jobs w; trace := trace w; step := step w; now := now w;
     listeners := listeners w; sync_tags := sync_tags w;
     parked := parked w |}.

Definition set_store (s : Store) (w : World) : World :=
  {| names := names w; store := s; heap := heap w; fresh := fresh w;
     jobs := jobs w; trace := trace w; step := step w; now := now w;
     listeners := listeners w; sync_tags := sync_tags w;
     parked := parked w |}.

Definition set_heap (hp : Heap) (w : World) : World :=
  {| names := names w; store := store w; heap := hp; fresh := fresh w;
     jobs := jobs w; trace := trace w; step := step w; now := now w;
     listeners := listeners w; sync_tags := sync_tags w;
     parked := parked w |}.

Definition set_fresh (n : loc) (w : World) : World :=
  {| names := names w; store := store w; heap := heap w; fresh := n;
     jobs := jobs w; trace := trace w; step := step w; now := now w;
     listeners := listeners w; sync_tags := sync_tags w;
     parked := parked w |}.

Definition set_jobs (js : list Job) (w : World) : World :=
  {| names := names w; store := store w; heap := heap w; fresh := fresh w;
     jobs := js; trace := trace w; step := step w; now := now w;
     listeners := listeners w; sync_tags := sync_tags w;
     parked := parked w |}.

(** A host operation leaves one event and advances the step counter. *)
Definition emit (ev : Event) (w : World) : World :=
  {| names := names w; store := store w; heap := heap w; fresh := fresh w;
     jobs := jobs w; trace := trace w ++ [ev]; step := step w; now := now w;
     listeners := listeners w; sync_tags := sync_tags w;
     parked := parked w |}.

Definition advance (w : World) : World :=
  {| names := names w; store := store w; heap := heap w; fresh := fresh w;
     jobs := jobs w; trace := trace w; step := S (step w); now := now w;
     listeners := listeners w; sync_tags := sync_tags w;
     parked := parked w |}.

Definition add_listener (q : Queue) (w : World) : World :=
  {| names := names w; store := store w; heap := heap w; fresh := fresh w;
     jobs := jobs w; trace := trace w; step := step w; now := now w;
     listeners := listeners w ++ [q]; sync_tags := sync_tags w;
     parked := parked w |}.

Definition add_sync_tag (tag : string) (w : World) : World :=
  {| names := names w; store := store w; heap := heap w; fresh := fresh w;
     jobs := jobs w; trace := trace w; step := step w; now := now w;
     listeners := listeners w; sync_tags := sync_tags w ++ [tag];
     parked := parked w |}.

Definition set_parked (ts : list Task) (w : World) : World :=
  {| names := names w; store := store w; heap := heap w; fresh := fresh w;
     jobs := jobs w; trace := trace w; step := step w; now := now w;
     listeners := listeners w; sync_tags := sync_tags w;
     parked := ts |}.

Definition park (t : Task) (w : World) : World :=
  set_parked (parked w ++ [t]) w.

(** *** Suspension points

    At every [await] the continuations of asynchronous callbacks get their
    turn: those that are due run against the heap, the others move one
    suspension closer. *)
Fixpoint run_due (js : list Job) (hp : Heap) : Heap :=
  match js with
  | [] => hp
  | (O, f) :: js' => run_due js' (f hp)
  | (S _, _) :: js' => run_due js' hp
  end.

Fixpoint still_waiting (js : list Job) : list Job :=
  match js with
  | [] => []
  | (O, _) :: js' => still_waiting js'
  | (S d, f) :: js' => (d, f) :: still_waiting js'
  end.

Definition tick (w : World) : World :=
  set_jobs (still_waiting (jobs w)) (set_heap (run_due (jobs w) (heap w)) w).

Definition await {A} (m : M A) : M A :=
  fun w => let '(r, w') := m w in (r, tick w').

(** ** Collaborators *)

Section Collaborators.

Variable h : Host.

(** *** The object store *)

Definition store_add (e : Entry) (s : Store) : Store :=
  {| rows := rows s ++ [(next_key s, e)]; next_key := next_key s + 1 |}.

Definition store_delete (k : Key) (s : Store) : Store :=
  {| rows := filter (fun row => row.1 ≠ k) (rows s); next_key := next_key s |}.

(** A store request: the host decides whether it goes through; a request
    that fails changes nothing and rejects. *)
Definition store_request {A} (op : StoreOp) (run : Store -> A * Store) : M A :=
  fun w =>
    let ok := store_ok h (step w) op in
    let w1 := advance (emit (EvStore op ok) w) in
    if ok then
      let '(a, s') := run (store w1) in (Ok a, set_store s' w1)
    else (Throw StorageFailure, w1).

Definition getDB : M unit :=
  store_request OpOpen (fun s => (tt, s)).

Definition db_add (e : Entry) : M Key :=
  store_request (OpAdd e) (fun s => (next_key s, store_add e s)).

Definition db_getAll : M (list (Key * Entry)) :=
  store_request OpGetAll (fun s => (rows s, s)).

Definition db_delete (k : Key) : M unit :=
  store_request (OpDelete k) (fun s => (tt, store_delete k s)).

(** *** The network *)

Definition fetch (l : loc) : M unit :=
  fun w =>
    let r := StorableRequest.toRequest (heap w l) in
    let ok := fetch_ok h (step w) r in
    let w1 := advance (emit (EvFetch l r ok) w) in
    if ok then (Ok tt, w1) else (Throw NetworkFailure, w1).

(** *** The sync manager: [registration.sync.register(tag)] *)

Definition sync_register (tag : string) : M unit :=
  fun w =>
    let ok := sync_supported h && sync_ok h (step w) tag in
    let w1 := advance (emit (EvRegisterSync tag ok) w) in
    if ok then (Ok tt, add_sync_tag tag w1) else (Throw SyncFailure, w1).

(** *** Snapshot objects *)

Definition alloc (s : StorableRequest.t) : M loc :=
  fun w => (Ok (fresh w), set_fresh (S (fresh w)) (set_heap (heap_set (fresh w) s (heap w)) w)).

(** [new StorableRequest(obj)] *)
Definition new_StorableRequest (o : StorableRequest.Obj) : M loc :=
  alloc (StorableRequest.fromObject o).

(** [StorableRequest.fromRequest(request)] *)
Definition StorableRequest_fromRequest (r : Request) : M loc :=
  fun w =>
    match StorableRequest.fromRequest (now w) r with
    | Some s => alloc s w
    | None => (Throw ConversionError, w)
    end.

Definition read (l : loc) : M StorableRequest.t :=
  fun w => (Ok (heap w l), w).

Definition Date_now : M Z :=
  fun w => (Ok (now w), w).

End Collaborators.

(** ** The Queue class *)

Definition DB_NAME : string := "workbox-background-sync".
Definition TAG_PREFIX : string := "workbox-background-sync".
Definition OBJECT_STORE_NAME : string := "requests".
Definition MAX_RETENTION_TIME : Z := 1000 * 60 * 60 * 24 * 7.

Record SyncEvent := {
  tag : string;
  lastChance : bool;
}.

(** What the promise returned by [_waitUntilActive] can be. *)
Inductive Promise := Resolved | Pending.

Section QueueClass.

Variable h : Host.

(** [_runCallback(name, ...args)]: the callback runs if it is a function;
    what it returns is dropped, so the promise of an asynchronous
    callback is not waited for. *)
Definition _runCallback (q : Queue) (name : string) (arg : Arg) : M unit :=
  fun w =>
    match _callbacks q !! name with
    | Some (VFunction f) =>
        let r := f arg (heap w) in
        let w1 := emit (EvCallback name arg (run_threw r))
                    (set_jobs (jobs w ++ run_later r) (set_heap (run_heap r) w)) in
        if run_threw r then (Throw CallbackError, w1) else (Ok tt, w1)
    | _ => (Ok tt, w)
    end.

Definition _getDb (q : Queue) : M unit := getDB h.

(** A call of an asynchronous method whose promise is dropped: the caller
    goes on without waiting, and the outcome of the call, a rejection
    included, reaches nobody.  When the requests of the call get through
    is up to the host.  Two cases are told apart: the call runs as a whole
    before the caller goes on, or it is parked and runs as a whole at some
    later time ([land]); how the steps of a call that runs later interleave
    with those of other calls is not modelled. *)
Definition detach {A} (t : Task) (m : M A) : M unit :=
  fun w =>
    if lands_now h (step w) t then (Ok tt, (m w).2) else (Ok tt, park t w).

(** A call that waits for something only the host can bring about: it is
    parked.  No caller awaits such a call, so what it returns is of no
    consequence. *)
Definition suspend (t : Task) : M unit :=
  fun w => (Ok tt, park t w).

(** [_waitUntilActive()]: a promise that is resolved if the service worker
    is active, and otherwise stays pending until an 'activate' event. *)
Definition _waitUntilActive (q : Queue) : M Promise :=
  fun w => (Ok (if worker_active h (step w) then Resolved else Pending), w).

(** [_registerSync()]: awaiting a promise that is pending suspends the
    call; it is parked, and starts over when it runs again.  Nothing but
    the [try] block can throw, and what it throws is dropped. *)
Definition _registerSync (q : Queue) : M unit :=
  try_catch
    (active <- _waitUntilActive q ;;
     match active with
     | Resolved =>
         await (ret tt) ;;;
         await (sync_register h (TAG_PREFIX +:+ ":" +:+ _name q))
     | Pending => suspend (TRegister q)
     end)
    (fun _ => ret tt).

Definition _removeRequest (q : Queue) (key : Key) : M unit :=
  await (_getDb q) ;;;
  await (db_delete h key).

Definition _replayRequest (q : Queue) (key : Key) (storableRequest : loc) : M bool :=
  try_catch
    (_runCallback q "requestWillReplay" (ArgRequest storableRequest) ;;;
     await (fetch h storableRequest) ;;;
     _runCallback q "requestDidReplay" (ArgRequest storableRequest) ;;;
     await (_removeRequest q key) ;;;
     ret true)
    (fun _ =>
       _runCallback q "replayDidFail" (ArgRequest storableRequest) ;;;
       ret false).

(** The loop of [_getStorableRequestsInQueue] over what [getAll] gave. *)
Fixpoint collect (q : Queue) (entries : list (Key * Entry))
    (storableRequests : list (Key * loc)) : M (list (Key * loc)) :=
  match entries with
  | [] => ret storableRequests
  | (key, entry) :: rest =>
      if decide (queueName entry = _name q) then
        l <- new_StorableRequest (storableRequest entry) ;;
        t <- Date_now ;;
        s <- read l ;;
        if t - StorableRequest.timestamp s >? _maxRetentionTime q then
          detach (TRemove q key) (_removeRequest q key) ;;;
          collect q rest storableRequests
        else collect q rest (storableRequests ++ [(key, l)])
      else collect q rest storableRequests
  end.

Definition _getStorableRequestsInQueue (q : Queue) : M (list (Key * loc)) :=
  await (_getDb q) ;;;
  entries <- await (db_getAll h) ;;
  collect q entries [].

(** The [for] loop of [replayRequests]. *)
Fixpoint replay_loop (q : Queue) (storableRequestsInQueue : list (Key * loc))
    (successfullyReplayedRequests : list loc) (allReplaysSuccessful : bool)
    : M (list loc * bool) :=
  match storableRequestsInQueue with
  | [] => ret (successfullyReplayedRequests, allReplaysSuccessful)
  | (key, l) :: rest =>
      replaySuccessful <- await (_replayRequest q key l) ;;
      if (replaySuccessful : bool) then
        replay_loop q rest (successfullyReplayedRequests ++ [l]) allReplaysSuccessful
      else replay_loop q rest successfullyReplayedRequests false
  end.

(** What [replayRequests] does once it has found the queue non-empty. *)
Definition replay_all (q : Queue) (storableRequestsInQueue : list (Key * loc)) : M unit :=
  outcome <- replay_loop q storableRequestsInQueue [] true ;;
  let '(successfullyReplayedRequests, allReplaysSuccessful) := outcome in
  if (allReplaysSuccessful : bool) then
    _runCallback q "allRequestsDidReplay" (ArgRequests successfullyReplayedRequests)
  else detach (TRegister q) (_registerSync q).

(** Entering [replayRequests] leaves an event: a pass was started. *)
Definition enter (q : Queue) : M unit :=
  fun w => (Ok tt, emit (EvReplay (_name q)) w).

Definition replay_pass (q : Queue) : M unit :=
  storableRequestsInQueue <- await (_getStorableRequestsInQueue q) ;;
  match storableRequestsInQueue with
  | [] => ret tt
  | _ => replay_all q storableRequestsInQueue
  end.

(** [replayRequests()] *)
Definition replayRequests (q : Queue) : M unit :=
  enter q ;;; replay_pass q.

Definition addRequest (q : Queue) (request : Request) : M unit :=
  l <- await (StorableRequest_fromRequest request) ;;
  _runCallback q "requestWillQueue" (ArgRequest l) ;;;
  await (_getDb q) ;;;
  s <- read l ;;
  await (db_add h {| queueName := _name q;
                     storableRequest := StorableRequest.toObject s |}) ;;;
  detach (TRegister q) (_registerSync q).

(** The plugin's [fetchDidFail] hands the failed request to [addRequest]. *)
Definition createPlugin_fetchDidFail (q : Queue) (request : Request) : M unit :=
  addRequest q request.

(** A call of [replayRequests()] that is not awaited: the pass is entered
    in the caller's turn, the rest of it is a call nobody waits for. *)
Definition start_pass (q : Queue) : M unit :=
  enter q ;;; detach (TPass q) (replay_pass q).

(** The listener [_addSyncListener] installs: whatever the event, it
    starts a replay pass of its queue. *)
Definition sync_listener (q : Queue) (event : SyncEvent) : M unit :=
  start_pass q.

Definition _addSyncListener (q : Queue) : M unit :=
  (fun w => (Ok tt, add_listener q w)) ;;;
  if sync_supported h then ret tt else start_pass q.

(** What a parked call does when it runs. *)
Definition run_task (t : Task) : M unit :=
  match t with
  | TRemove q key => _removeRequest q key
  | TRegister q => _registerSync q
  | TPass q => replay_pass q
  end.

(** The parked call at position [n] runs, if there is one. *)
Definition land (n : nat) (w : World) : World :=
  match parked w !! n with
  | Some t => (run_task t (set_parked (delete n (parked w)) w)).2
  | None => w
  end.

(** [new Queue(name, {maxRetentionTime, callbacks})] *)
Definition new_Queue (name : string) (maxRetentionTime : option Z)
    (callbacks : option (gmap string JsValue)) : M Queue :=
  fun w =>
    if decide (name ∈ names w) then (Throw (DuplicateQueueName name), w)
    else
      let q := {| _name := name;
                  _callbacks := default ∅ callbacks;
                  _maxRetentionTime := default MAX_RETENTION_TIME maxRetentionTime |} in
      (_addSyncListener q ;;; ret q) (set_names (fun ns => ns ∪ {[name]}) w).

(** A 'sync' event reaches every listener on [self], in the order they
    were added. *)
Definition dispatch_sync (event : SyncEvent) (w : World) : World :=
  foldl (fun w' q => (sync_listener q event w').2) w (listeners w).

End QueueClass.

(** ** The life of a process

    What can happen in a service worker once its script has been loaded:
    queues are constructed, requests are added, passes are run, sync
    events arrive, time passes, a call nobody waited for runs. *)

Inductive Action :=
| ANew (name : string) (maxRetentionTime : option Z)
       (callbacks : option (gmap string JsValue))
| AAdd (q : Queue) (request : Request)
| AReplay (q : Queue)
| ASync (event : SyncEvent)
| AClock (t : Z)
| ALand (n : nat).

Definition set_now (t : Z) (w : World) : World :=
  {| names := names w; store := store w; heap := heap w; fresh := fresh w;
     jobs := jobs w; trace := trace w; step := step w; now := t;
     listeners := listeners w; sync_tags := sync_tags w;
     parked := parked w |}.

Definition perform (h : Host) (a : Action) (w : World) : World :=
  match a with
  | ANew name maxRetentionTime callbacks =>
      (new_Queue h name maxRetentionTime callbacks w).2
  | AAdd q request => (addRequest h q request w).2
  | AReplay q => (replayRequests h q w).2
  | ASync event => dispatch_sync h event w
  | AClock t => set_now t w
  | ALand n => land h n w
  end.

Definition run (h : Host) (acts : list Action) (w : World) : World :=
  foldl (fun w' a => perform h a w') w acts.

Definition blank : StorableRequest.t :=
  {| StorableRequest.method := "GET"; StorableRequest.url := "";
     StorableRequest.headers := []; StorableRequest.body := None;
     StorableRequest.mode := StorableRequest.Omit;
     StorableRequest.referrer := None; StorableRequest.timestamp := 0 |}.

(** The world when the script starts: no name is taken, the store is
    whatever an earlier run of the worker left. *)
Definition start (s : Store) (t : Z) : World :=
  {| names := ∅; store := s; heap := fun _ => blank; fresh := O;
     jobs := []; trace := []; step := O; now := t;
     listeners := []; sync_tags := []; parked := [] |}.

Definition empty_store : Store := {| rows := []; next_key := 1 |}.

Definition is_constructor_of (name : string) (a : Action) : bool :=
  match a with
  | ANew name' _ _ => bool_decide (name' = name)
  | _ => false
  end.

(** ** Reasoning about asynchronous methods *)

(** [m] only ever moves the world along [R]. *)
Definition keeps (R : relation World) {A} (m : M A) : Prop :=
  forall w, R w (m w).2.

(** What every method of the queue leaves alone, and what it may add to
    the trace: events satisfying [P]. *)
Record moves (P : Event -> Prop) (w w' : World) : Prop := {
  moves_names : names w' = names w;
  moves_listeners : listeners w' = listeners w;
  moves_now : now w' = now w;
  moves_fresh : (fresh w <= fresh w')%nat;
  moves_next_key : next_key (store w) <= next_key (store w');
  moves_trace : exists ext, trace w' = trace w ++ ext /\ Forall P ext;
}.

(** The events each method can leave in the trace. *)
Inductive remove_event (key : Key) : Event -> Prop :=
| remove_open ok : remove_event key (EvStore OpOpen ok)
| remove_delete ok : remove_event key (EvStore (OpDelete key) ok).

Inductive replay_event (key : Key) (l : loc) : Event -> Prop :=
| replay_will b :
    replay_event key l (EvCallback "requestWillReplay" (ArgRequest l) b)
| replay_fetch r ok : replay_event key l (EvFetch l r ok)
| replay_did b :
    replay_event key l (EvCallback "requestDidReplay" (ArgRequest l) b)
| replay_remove ev : remove_event key ev -> replay_event key l ev
| replay_fail b :
    replay_event key l (EvCallback "replayDidFail" (ArgRequest l) b).

Inductive read_event (entries : list (Key * Entry)) : Event -> Prop :=
| read_open ok : read_event entries (EvStore OpOpen ok)
| read_getAll ok : read_event entries (EvStore OpGetAll ok)
| read_purge k ok :
    k ∈ entries.*1 -> read_event entries (EvStore (OpDelete k) ok).

Inductive sync_event (q : Queue) : Event -> Prop :=
| sync_attempt ok :
    sync_event q (EvRegisterSync (TAG_PREFIX +:+ ":" +:+ _name q) ok).

Inductive loop_event (items : list (Key * loc)) : Event -> Prop :=
| loop_replay key l ev :
    (key, l) ∈ items -> replay_event key l ev -> loop_event items ev.

Create HintDb queue.
#[export] Hint Constructors remove_event replay_event read_event sync_event
  loop_event : queue.

Definition any_event : Event -> Prop := fun _ => True.

(** What the whole process preserves: names and listeners are only ever
    added, the trace only grows. *)
Record lives (w w' : World) : Prop := {
  lives_names : names w ⊆ names w';
  lives_listeners : listeners w `prefix_of` listeners w';
  lives_trace : trace w `prefix_of` trace w';
}.

(** ** What a method adds to the trace *)

Definition events {A} (m : M A) (w : World) : list Event :=
  drop (length (trace w)) (trace (m w).2).

Definition is_function (q : Queue) (name : string) : bool :=
  match _callbacks q !! name with
  | Some (VFunction _) => true
  | _ => false
  end.

(** One call of a lifecycle hook: nothing if the hook is not a function,
    else the call and whether it threw. *)
Inductive hook_run (q : Queue) (name : string) (arg : Arg) :
    list Event -> bool -> Prop :=
| hook_absent :
    is_function q name = false -> hook_run q name arg [] false
| hook_called threw :
    is_function q name = true ->
    hook_run q name arg [EvCallback name arg threw] threw.

(** The [try] block of [_replayRequest], up to where it stopped. *)
Inductive attempt_try (q : Queue) (key : Key) (l : loc) :
    list Event -> bool -> Prop :=
| try_will_throws e1 :
    hook_run q "requestWillReplay" (ArgRequest l) e1 true ->
    attempt_try q key l e1 false
| try_fetch_fails e1 r :
    hook_run q "requestWillReplay" (ArgRequest l) e1 false ->
    attempt_try q key l (e1 ++ [EvFetch l r false]) false
| try_did_throws e1 r e2 :
    hook_run q "requestWillReplay" (ArgRequest l) e1 false ->
    hook_run q "requestDidReplay" (ArgRequest l) e2 true ->
    attempt_try q key l (e1 ++ EvFetch l r true :: e2) false
| try_open_fails e1 r e2 :
    hook_run q "requestWillReplay" (ArgRequest l) e1 false ->
    hook_run q "requestDidReplay" (ArgRequest l) e2 false ->
    attempt_try q key l
      (e1 ++ EvFetch l r true :: e2 ++ [EvStore OpOpen false]) false
| try_delete_fails e1 r e2 :
    hook_run q "requestWillReplay" (ArgRequest l) e1 false ->
    hook_run q "requestDidReplay" (ArgRequest l) e2 false ->
    attempt_try q key l
      (e1 ++ EvFetch l r true :: e2 ++
         [EvStore OpOpen true; EvStore (OpDelete key) false]) false
| try_done e1 r e2 :
    hook_run q "requestWillReplay" (ArgRequest l) e1 false ->
    hook_run q "requestDidReplay" (ArgRequest l) e2 false ->
    attempt_try q key l
      (e1 ++ EvFetch l r true :: e2 ++
         [EvStore OpOpen true; EvStore (OpDelete key) true]) true.

(** One call of [_replayRequest]: its events and what it returned. *)
Inductive attempt (q : Queue) (key : Key) (l : loc) :
    list Event -> Result bool -> Prop :=
| attempt_replayed e :
    attempt_try q key l e true -> attempt q key l e (Ok true)
| attempt_failed e e' :
    attempt_try q key l e false ->
    hook_run q "replayDidFail" (ArgRequest l) e' false ->
    attempt q key l (e ++ e') (Ok false)
| attempt_fail_throws e e' :
    attempt_try q key l e false ->
    hook_run q "replayDidFail" (ArgRequest l) e' true ->
    attempt q key l (e ++ e') (Throw CallbackError).

(** The [for] loop of [replayRequests]: one attempt after the other. *)
Inductive loop_run (q : Queue) :
    list (Key * loc) -> list loc -> bool ->
    list (list Event) -> Result (list loc * bool) -> Prop :=
| loop_end succ all : loop_run q [] succ all [] (Ok (succ, all))
| loop_replayed key l rest succ all e es res :
    attempt q key l e (Ok true) ->
    loop_run q rest (succ ++ [l]) all es res ->
    loop_run q ((key, l) :: rest) succ all (e :: es) res
| loop_failed key l rest succ all e es res :
    attempt q key l e (Ok false) ->
    loop_run q rest succ false es res ->
    loop_run q ((key, l) :: rest) succ all (e :: es) res
| loop_thrown key l rest succ all e err :
    attempt q key l e (Throw err) ->
    loop_run q ((key, l) :: rest) succ all [e] (Throw err).

#[export] Hint Constructors hook_run attempt_try attempt loop_run : queue.

Definition tracing {A} (m : M A) : Prop := keeps (moves any_event) m.

(** [m] always leaves events and a result of the shape [S]. *)
Definition always {A} (m : M A) (S : list Event -> Result A -> Prop) : Prop :=
  forall w, S (events m w) (m w).1.

Definition hook_shape (q : Queue) (name : string) (arg : Arg)
    (e : list Event) (r : Result unit) : Prop :=
  exists threw, hook_run q name arg e threw /\
                r = (if threw then Throw CallbackError else Ok tt).

Definition fetch_shape (l : loc) (e : list Event) (r : Result unit) : Prop :=
  exists req ok, e = [EvFetch l req ok] /\
                 r = (if ok then Ok tt else Throw NetworkFailure).

Definition store_shape {A} (op : StoreOp) (e : list Event) (r : Result A) : Prop :=
  (e = [EvStore op false] /\ r = Throw StorageFailure) \/
  (e = [EvStore op true] /\ exists a, r = Ok a).

Definition remove_shape (key : Key) (e : list Event) (r : Result unit) : Prop :=
  (e = [EvStore OpOpen false] /\ r = Throw StorageFailure) \/
  (e = [EvStore OpOpen true; EvStore (OpDelete key) false] /\
   r = Throw StorageFailure) \/
  (e = [EvStore OpOpen true; EvStore (OpDelete key) true] /\ r = Ok tt).

Definition try_shape (q : Queue) (key : Key) (l : loc)
    (e : list Event) (r : Result bool) : Prop :=
  (r = Ok true /\ attempt_try q key l e true) \/
  (exists err, r = Throw err /\ attempt_try q key l e false).

(** ** What a pass does to the store *)

Definition deleted_key (ev : Event) : option Key :=
  match ev with
  | EvStore (OpDelete k) true => Some k
  | _ => None
  end.

Definition deleted_keys (ext : list Event) : list Key := omap deleted_key ext.

(** A row leaves the store only through a delete that succeeded, and no
    row is added. *)
Record purges (w w' : World) : Prop := {
  purges_next_key : next_key (store w') = next_key (store w);
  purges_rows :
    exists ext, trace w' = trace w ++ ext /\
      rows (store w') =
        filter (fun row => row.1 ∉ deleted_keys ext) (rows (store w));
}.

(** ** Reading the queue *)

(** The retention test of [_getStorableRequestsInQueue] at clock reading [t]. *)
Definition expired (q : Queue) (t : Z) (e : Entry) : bool :=
  t - StorableRequest.o_timestamp (storableRequest e) >? _maxRetentionTime q.

(** The loop over the rows [getAll] gave: the rows of other queues are
    skipped; the removal of an expired row is started and not awaited, so
    that its requests are made here or the call is parked; the other rows
    are kept, each with a new snapshot object. *)
Inductive collect_run (q : Queue) (t : Z) :
    list (Key * Entry) -> list (Key * loc) -> list Event -> Prop :=
| collect_end : collect_run q t [] [] []
| collect_other key e rest items ext :
    queueName e <> _name q ->
    collect_run q t rest items ext ->
    collect_run q t ((key, e) :: rest) items ext
| collect_expired key e rest items purge r ext :
    queueName e = _name q ->
    expired q t e = true ->
    remove_shape key purge r ->
    collect_run q t rest items ext ->
    collect_run q t ((key, e) :: rest) items (purge ++ ext)
| collect_parked key e rest items ext :
    queueName e = _name q ->
    expired q t e = true ->
    collect_run q t rest items ext ->
    collect_run q t ((key, e) :: rest) items ext
| collect_kept key e l rest items ext :
    queueName e = _name q ->
    expired q t e = false ->
    Forall (fun l' => (l < l')%nat) items.*2 ->
    collect_run q t rest items ext ->
    collect_run q t ((key, e) :: rest) ((key, l) :: items) ext.

Definition read_shape (q : Queue) (t : Z) (stored : list (Key * Entry))
    (e : list Event) (r : Result (list (Key * loc))) : Prop :=
  (e = [EvStore OpOpen false] /\ r = Throw StorageFailure) \/
  (e = [EvStore OpOpen true; EvStore OpGetAll false] /\
   r = Throw StorageFailure) \/
  (exists items ext,
     e = EvStore OpOpen true :: EvStore OpGetAll true :: ext /\
     r = Ok items /\ collect_run q t stored items ext).

#[export] Hint Constructors collect_run : queue.

(** ** The anatomy of a pass *)

Definition sync_tag (q : Queue) : string := TAG_PREFIX +:+ ":" +:+ _name q.

(** What [replayRequests] does after its loop. *)
Inductive finish (q : Queue) :
    Result (list loc * bool) -> list Event -> Result unit -> Prop :=
| finish_thrown err : finish q (Throw err) [] (Throw err)
| finish_all succ e threw :
    hook_run q "allRequestsDidReplay" (ArgRequests succ) e threw ->
    finish q (Ok (succ, true)) e (if threw then Throw CallbackError else Ok tt)
| finish_again succ ok :
    finish q (Ok (succ, false)) [EvRegisterSync (sync_tag q) ok] (Ok tt)
| finish_parked succ :
    finish q (Ok (succ, false)) [] (Ok tt).

#[export] Hint Constructors finish : queue.

(** What [_registerSync] leaves in the trace: nothing while the worker is
    not active, else the one request to the sync manager. *)
Definition register_shape (q : Queue) (e : list Event) (r : Result unit) : Prop :=
  (e = [] \/ exists ok, e = [EvRegisterSync (sync_tag q) ok]) /\ r = Ok tt.

(** The world in which a pass reads the store. *)
Definition entered (q : Queue) (w : World) : World :=
  emit (EvReplay (_name q)) w.

(** ** Facts about attempts *)

(** An event that reports a failure: a fetch or a store request that was
    rejected, a callback that threw, a registration that was refused. *)
Definition failure_event (ev : Event) : bool :=
  match ev with
  | EvCallback _ _ threw => threw
  | EvFetch _ _ ok => negb ok
  | EvStore _ ok => negb ok
  | EvRegisterSync _ ok => negb ok
  | EvReplay _ => false
  end.

(** The snapshot objects an event hands to a callback or to the network. *)
Definition snapshots_of (ev : Event) : list loc :=
  match ev with
  | EvCallback _ (ArgRequest l) _ => [l]
  | EvCallback _ (ArgRequests ls) _ => ls
  | EvFetch l _ _ => [l]
  | _ => []
  end.

Definition is_store_event (ev : Event) : bool :=
  match ev with EvStore _ _ => true | _ => false end.

Definition is_callback (name : string) (ev : Event) : bool :=
  match ev with
  | EvCallback name' _ _ => bool_decide (name' = name)
  | _ => false
  end.

(** ** A pass, from its first event to its last *)

(** The first step of a pass started in [w]: reading the queue. *)
Definition read_queue (h : Host) (q : Queue) (w : World)
    : Result (list (Key * loc)) * World :=
  await (_getStorableRequestsInQueue h q) (entered q w).

Definition after_loop (ev : Event) : bool :=
  match ev with
  | EvCallback name (ArgRequests _) _ =>
      bool_decide (name = "allRequestsDidReplay")
  | EvRegisterSync _ _ => true
  | _ => false
  end.

(** ** Adding a request *)

(** What [addRequest] leaves in the trace once the snapshot exists. *)
Inductive add_run (q : Queue) (l : loc) : list Event -> Result unit -> Prop :=
| add_hook_throws e1 :
    hook_run q "requestWillQueue" (ArgRequest l) e1 true ->
    add_run q l e1 (Throw CallbackError)
| add_open_fails e1 :
    hook_run q "requestWillQueue" (ArgRequest l) e1 false ->
    add_run q l (e1 ++ [EvStore OpOpen false]) (Throw StorageFailure)
| add_fails e1 entry :
    hook_run q "requestWillQueue" (ArgRequest l) e1 false ->
    add_run q l (e1 ++ [EvStore OpOpen true; EvStore (OpAdd entry) false])
      (Throw StorageFailure)
| add_done e1 entry ok :
    hook_run q "requestWillQueue" (ArgRequest l) e1 false ->
    add_run q l
      (e1 ++ [EvStore OpOpen true; EvStore (OpAdd entry) true;
              EvRegisterSync (sync_tag q) ok])
      (Ok tt)
| add_parked e1 entry :
    hook_run q "requestWillQueue" (ArgRequest l) e1 false ->
    add_run q l (e1 ++ [EvStore OpOpen true; EvStore (OpAdd entry) true])
      (Ok tt).

#[export] Hint Constructors add_run : queue.

(** ** The outcome of a pass *)

(** The entry [item] was replayed in [evs]: the network accepted its
    request, and its row was then deleted from the store. *)
Definition replayed_in (evs : list Event) (item : Key * loc) : Prop :=
  (exists req, EvFetch item.2 req true ∈ evs) /\
  EvStore (OpDelete item.1) true ∈ evs.

(** An event in which the sync manager is asked to register a tag. *)
Definition is_registration (ev : Event) : bool :=
  match ev with EvRegisterSync _ _ => true | _ => false end.

(** ** Calls nobody waits for *)

(** The calls [m] parks, when it starts in [w]. *)
Definition parked_by {A} (m : M A) (w : World) : list Task :=
  drop (length (parked w)) (parked (m w).2).

(** Nothing is parked, and no parked call runs. *)
Definition calm (w w' : World) : Prop := parked w' = parked w.

(** No row leaves the store. *)
Definition keeps_rows (w w' : World) : Prop :=
  forall row, row ∈ rows (store w) -> row ∈ rows (store w').

(** ** The key order of the store

    Primary keys come from the store's auto-increment counter: the rows
    stand in the order of their keys, all of them below the next key to
    be given out. *)
Definition store_wf (s : Store) : Prop :=
  StronglySorted Z.lt (rows s).*1 /\
  Forall (fun k => k < next_key s) (rows s).*1.

(** A step that does not break the key order. *)
Definition ordered (w w' : World) : Prop :=
  store_wf (store w) -> store_wf (store w').

(** ** More vocabulary for the properties of the queue *)

(** The names under which [Queue] calls [_runCallback]. *)
Definition lifecycle_hooks : list string :=
  ["requestWillQueue"; "requestWillReplay"; "requestDidReplay";
   "replayDidFail"; "allRequestsDidReplay"].

(** A callback event as [_runCallback] can leave it: the callback is a
    function and goes by a lifecycle name. *)
Definition proper_call (q : Queue) (ev : Event) : Prop :=
  match ev with
  | EvCallback name _ _ => is_function q name = true /\ name ∈ lifecycle_hooks
  | _ => True
  end.

Definition is_fetch_of (l : loc) (ev : Event) : bool :=
  match ev with
  | EvFetch l' _ _ => Nat.eqb l' l
  | _ => false
  end.

(** How often the snapshot [l] is fetched in [evs]. *)
Fixpoint fetches (l : loc) (evs : list Event) : nat :=
  match evs with
  | [] => 0
  | ev :: rest => (if is_fetch_of l ev then 1 else 0) + fetches l rest
  end.


(** Every registered name has its listener, and no name has two. *)
Definition registry_ok (w : World) : Prop :=
  NoDup (_name <$> listeners w) /\
  (forall name, name ∈ names w <-> name ∈ _name <$> listeners w).

(** With no continuation pending, a step that leaves the snapshot objects
    as they are. *)
Definition settled (w w' : World) : Prop :=
  jobs w = [] -> jobs w' = [] /\ heap w' = heap w /\ fresh w' = fresh w.

(** A queue whose [callbacks] object holds no function. *)
Definition plain (q : Queue) : Prop := forall name, is_function q name = false.

(** A fetch event whose request is the one the snapshot in [H] describes. *)
Definition sends (H : Heap) (ev : Event) : Prop :=
  match ev with
  | EvFetch l req _ => req = StorableRequest.toRequest (H l)
  | _ => True
  end.

(** With no continuation pending and the snapshot objects as in [H], a step
    that leaves them so and fetches only what they describe. *)
Definition faithful (H : Heap) (w w' : World) : Prop :=
  jobs w = [] -> heap w = H ->
  jobs w' = [] /\ heap w' = H /\
  exists ext, trace w' = trace w ++ ext /\ Forall (sends H) ext.

(** ** Worked examples *)

Definition posted (u : string) (t : Z) : StorableRequest.Obj :=
  {| StorableRequest.o_method := "POST"; StorableRequest.o_url := u;
     StorableRequest.o_headers := [("content-type", "application/json")];
     StorableRequest.o_body := Some [Byte.x7b; Byte.x7d];
     StorableRequest.o_mode := StorableRequest.SameOrigin;
     StorableRequest.o_referrer := None; StorableRequest.o_timestamp := t |}.

Definition order (u : string) (t : Z) : Entry :=
  {| queueName := "orders"; storableRequest := posted u t |}.

Definition replayed (u : string) : Request :=
  StorableRequest.toRequest (StorableRequest.fromObject (posted u 900)).

(** Three orders: one queued long ago, two queued recently. *)
Definition demo_store : Store :=
  {| rows := [(1, order "/old" 0); (2, order "/a" 900); (3, order "/b" 900)];
     next_key := 4 |}.

Definition demo_world : World := start demo_store 1000.

(** A host whose network rejects the requests to [/b]. *)
Definition demo_host : Host :=
  {| fetch_ok := fun _ r => negb (String.eqb (StorableRequest.req_url r) "/b");
     store_ok := fun _ _ => true;
     sync_supported := true;
     sync_ok := fun _ _ => true;
     worker_active := fun _ => true;
     lands_now := fun _ _ => true |}.

(** A host whose store rejects every delete. *)
Definition no_delete_host : Host :=
  {| fetch_ok := fun _ _ => true;
     store_ok := fun _ op => match op with OpDelete _ => false | _ => true end;
     sync_supported := true;
     sync_ok := fun _ _ => true;
     worker_active := fun _ => true;
     lands_now := fun _ _ => true |}.

(** A host whose store rejects every add. *)
Definition no_add_host : Host :=
  {| fetch_ok := fun _ _ => true;
     store_ok := fun _ op => match op with OpAdd _ => false | _ => true end;
     sync_supported := true;
     sync_ok := fun _ _ => true;
     worker_active := fun _ => true;
     lands_now := fun _ _ => true |}.

(** A host whose network rejects the requests to [/a]. *)
Definition no_a_host : Host :=
  {| fetch_ok := fun _ r => negb (String.eqb (StorableRequest.req_url r) "/a");
     store_ok := fun _ _ => true;
     sync_supported := true;
     sync_ok := fun _ _ => true;
     worker_active := fun _ => true;
     lands_now := fun _ _ => true |}.

(** A host whose store rejects the delete of the row with key 1. *)
Definition no_purge_host : Host :=
  {| fetch_ok := fun _ _ => true;
     store_ok := fun _ op =>
       match op with OpDelete k => negb (Z.eqb k 1) | _ => true end;
     sync_supported := true;
     sync_ok := fun _ _ => true;
     worker_active := fun _ => true;
     lands_now := fun _ _ => true |}.

(** A host on which nothing fails, but whose service worker is not active
    yet and which lets every call nobody waits for wait. *)
Definition slow_host : Host :=
  {| fetch_ok := fun _ _ => true;
     store_ok := fun _ _ => true;
     sync_supported := true;
     sync_ok := fun _ _ => true;
     worker_active := fun _ => false;
     lands_now := fun _ _ => false |}.

Definition quiet : JsFunction :=
  fun _ hp => {| run_heap := hp; run_threw := false; run_later := [] |}.

Definition thrower : JsFunction :=
  fun _ hp => {| run_heap := hp; run_threw := true; run_later := [] |}.

Definition set_url (u : string) (s : StorableRequest.t) : StorableRequest.t :=
  {| StorableRequest.method := StorableRequest.method s;
     StorableRequest.url := u;
     StorableRequest.headers := StorableRequest.headers s;
     StorableRequest.body := StorableRequest.body s;
     StorableRequest.mode := StorableRequest.mode s;
     StorableRequest.referrer := StorableRequest.referrer s;
     StorableRequest.timestamp := StorableRequest.timestamp s |}.

(** [(request) => { request.url = '/rewritten'; }] *)
Definition rewrite_now : JsFunction :=
  fun arg hp =>
    match arg with
    | ArgRequest l =>
        {| run_heap := heap_set l (set_url "/rewritten" (hp l)) hp;
           run_threw := false; run_later := [] |}
    | ArgRequests _ => {| run_heap := hp; run_threw := false; run_later := [] |}
    end.

(** [async (request) => { await token(); request.url = '/rewritten'; }],
    where the token takes one suspension longer than opening the store. *)
Definition rewrite_later : JsFunction :=
  fun arg hp =>
    match arg with
    | ArgRequest l =>
        {| run_heap := hp; run_threw := false;
           run_later :=
             [(1%nat, fun hp' => heap_set l (set_url "/rewritten" (hp' l)) hp')] |}
    | ArgRequests _ => {| run_heap := hp; run_threw := false; run_later := [] |}
    end.

Definition orders (callbacks : gmap string JsValue) : Queue :=
  {| _name := "orders"; _callbacks := callbacks; _maxRetentionTime := 500 |}.

Definition demo_queue : Queue :=
  orders {[ "replayDidFail" := VFunction quiet ]}.

Definition demo_items : list (Key * loc) := [(2, 1%nat); (3, 2%nat)].

Definition original : Request :=
  {| StorableRequest.req_method := "POST";
     StorableRequest.req_url := "/original";
     StorableRequest.req_headers := [];
     StorableRequest.req_body := Some [Byte.x7b; Byte.x7d];
     StorableRequest.req_bodyUsed := false;
     StorableRequest.req_mode := StorableRequest.SameOrigin;
     StorableRequest.req_referrer := None |}.

Definition original_snapshot : StorableRequest.t :=
  {| StorableRequest.method := "POST"; StorableRequest.url := "/original";
     StorableRequest.headers := [];
     StorableRequest.body := Some [Byte.x7b; Byte.x7d];
     StorableRequest.mode := StorableRequest.SameOrigin;
     StorableRequest.referrer := None; StorableRequest.timestamp := 1000 |}.

Definition fresh_world : World := start empty_store 1000.

Definition async_queue : Queue :=
  orders {[ "requestWillQueue" := VFunction rewrite_later ]}.


Definition throwing_queue : Queue :=
  orders {[ "requestDidReplay" := VFunction thrower ]}.

Definition rewritten_order : Entry :=
  {| queueName := "orders";
     storableRequest :=
       StorableRequest.toObject (set_url "/rewritten" original_snapshot) |}.

Definition invoice (u : string) (t : Z) : Entry :=
  {| queueName := "invoices"; storableRequest := posted u t |}.

(** Two queues in one store. *)
Definition shared_store : Store :=
  {| rows := [(1, order "/a" 900); (2, invoice "/i" 900); (3, order "/b" 900)];
     next_key := 4 |}.

Definition shared_world : World := start shared_store 1000.

Definition invoices : Queue :=
  {| _name := "invoices"; _callbacks := ∅; _maxRetentionTime := 500 |}.

Definition plain_queue : Queue := orders ∅.

Definition rewriting_queue : Queue :=
  orders {[ "requestWillReplay" := VFunction rewrite_now ]}.

Definition vetoing_queue : Queue :=
  orders {[ "requestWillReplay" := VFunction thrower ]}.

Definition failing_queue : Queue :=
  orders {[ "replayDidFail" := VFunction thrower ]}.

Definition refusing_queue : Queue :=
  orders {[ "requestWillQueue" := VFunction thrower ]}.

(** The world of the demo once the queue has been read. *)
Definition read_world (q : Queue) : World :=
  (read_queue demo_host q demo_world).2.

(** One order, queued exactly [maxRetentionTime] ago. *)
Definition edge_world : World :=
  start {| rows := [(1, order "/edge" 500)]; next_key := 2 |} 1000.

(** One recent order to [/a], which the network of the demo accepts. *)
Definition one_order_world : World :=
  start {| rows := [(1, order "/a" 900)]; next_key := 2 |} 1000.

Definition a_morning : list Action :=
  [ANew "orders" None None; AAdd demo_queue original; AReplay demo_queue].

(** * Proofs *)

(** ** Methods that move the world along a preorder *)

Section Keeps.

Context (R : relation World) `{!PreOrder R}.

Lemma keeps_ret {A} (a : A) : keeps R (ret a).
Proof. intros w. reflexivity. Qed.

Lemma keeps_throw {A} (e : Error) : keeps R (@throw A e).
Proof. intros w. reflexivity. Qed.

Lemma keeps_bind {A B} (m : M A) (f : A -> M B) :
  keeps R m -> (forall a, keeps R (f a)) -> keeps R (bind m f).
Proof.
  intros Hm Hf w. unfold bind. specialize (Hm w).
  destruct (m w) as [[a|e] w1]; simpl in *; [|done].
  etrans; [exact Hm | apply Hf].
Qed.

Lemma keeps_try_catch {A} (m : M A) (handler : Error -> M A) :
  keeps R m -> (forall e, keeps R (handler e)) -> keeps R (try_catch m handler).
Proof.
  intros Hm Hf w. unfold try_catch. specialize (Hm w).
  destruct (m w) as [[a|e] w1]; simpl in *; [done|].
  etrans; [exact Hm | apply Hf].
Qed.

Lemma keeps_detach (h : Host) {A} (t : Task) (m : M A) :
  (forall w, R w (park t w)) -> keeps R m -> keeps R (detach h t m).
Proof.
  intros Hp Hm w. unfold detach.
  destruct (lands_now _ _ _); simpl; [apply Hm | apply Hp].
Qed.

Lemma keeps_suspend (t : Task) :
  (forall w, R w (park t w)) -> keeps R (suspend t).
Proof. intros Hp w. apply Hp. Qed.

Lemma keeps_waitUntilActive (h : Host) (q : Queue) :
  keeps R (_waitUntilActive h q).
Proof. intros w. reflexivity. Qed.

Lemma keeps_await {A} (m : M A) :
  (forall w, R w (tick w)) -> keeps R m -> keeps R (await m).
Proof.
  intros Ht Hm w. unfold await. specialize (Hm w).
  destruct (m w) as [r w1]; simpl in *. etrans; [exact Hm | apply Ht].
Qed.

End Keeps.

#[export] Instance moves_preorder (P : Event -> Prop) : PreOrder (moves P).
Proof.
  split.
  - intros w. split; try done; try lia. exists []. by rewrite app_nil_r.
  - intros w1 w2 w3 [] []. split; try congruence; try lia.
    destruct moves_trace0 as (e1 & E1 & F1), moves_trace1 as (e2 & E2 & F2).
    exists (e1 ++ e2). rewrite E2, E1, <- app_assoc. split; [done|].
    by apply Forall_app.
Qed.

Lemma moves_weaken (P P' : Event -> Prop) (w w' : World) :
  (forall ev, P ev -> P' ev) -> moves P w w' -> moves P' w w'.
Proof.
  intros HP []. split; try done.
  destruct moves_trace0 as (ext & E & F). exists ext. split; [done|].
  eapply Forall_impl; eauto.
Qed.

Lemma keeps_weaken {A} (P P' : Event -> Prop) (m : M A) :
  (forall ev, P ev -> P' ev) -> keeps (moves P) m -> keeps (moves P') m.
Proof. intros HP Hm w. eapply moves_weaken; eauto. Qed.

Lemma moves_tick (P : Event -> Prop) (w : World) : moves P w (tick w).
Proof. split; simpl; try done. exists []. by rewrite app_nil_r. Qed.

Lemma moves_park (P : Event -> Prop) (t : Task) (w : World) :
  moves P w (park t w).
Proof. split; simpl; try done. exists []. by rewrite app_nil_r. Qed.

Ltac moves_here :=
  split; simpl; try done; try lia;
  first [ exists []; by rewrite app_nil_r
        | eexists; split; [reflexivity | by repeat constructor] ].

Section Moves.

Variable h : Host.
Variable P : Event -> Prop.

Lemma moves_store_request {A} (op : StoreOp) (run : Store -> A * Store) :
  (forall ok, P (EvStore op ok)) ->
  (forall s, next_key s <= next_key (run s).2) ->
  keeps (moves P) (store_request h op run).
Proof.
  intros HP Hk w. unfold store_request.
  destruct (store_ok h (step w) op); simpl.
  - specialize (Hk (store w)). destruct (run (store w)) as [a s'].
    simpl in *. moves_here.
  - moves_here.
Qed.

Lemma moves_getDB :
  (forall ok, P (EvStore OpOpen ok)) -> keeps (moves P) (getDB h).
Proof. intros. apply moves_store_request; [done | simpl; lia]. Qed.

Lemma moves_db_add (e : Entry) :
  (forall ok, P (EvStore (OpAdd e) ok)) -> keeps (moves P) (db_add h e).
Proof. intros. apply moves_store_request; [done | simpl; lia]. Qed.

Lemma moves_db_getAll :
  (forall ok, P (EvStore OpGetAll ok)) -> keeps (moves P) (db_getAll h).
Proof. intros. apply moves_store_request; [done | simpl; lia]. Qed.

Lemma moves_db_delete (k : Key) :
  (forall ok, P (EvStore (OpDelete k) ok)) -> keeps (moves P) (db_delete h k).
Proof. intros. apply moves_store_request; [done | simpl; lia]. Qed.

Lemma moves_fetch (l : loc) :
  (forall r ok, P (EvFetch l r ok)) -> keeps (moves P) (fetch h l).
Proof.
  intros HP w. unfold fetch.
  destruct (fetch_ok h (step w) _); simpl; moves_here.
Qed.

Lemma moves_sync_register (t : string) :
  (forall ok, P (EvRegisterSync t ok)) -> keeps (moves P) (sync_register h t).
Proof.
  intros HP w. unfold sync_register.
  destruct (sync_supported h && sync_ok h (step w) t); simpl; moves_here.
Qed.

Lemma moves_alloc (s : StorableRequest.t) : keeps (moves P) (alloc s).
Proof. intros w. unfold alloc. simpl. moves_here. Qed.

Lemma moves_fromRequest (r : Request) :
  keeps (moves P) (StorableRequest_fromRequest r).
Proof.
  intros w. unfold StorableRequest_fromRequest.
  destruct (StorableRequest.fromRequest (now w) r); [apply moves_alloc|].
  reflexivity.
Qed.

Lemma moves_runCallback (q : Queue) (name : string) (arg : Arg) :
  (forall b, P (EvCallback name arg b)) ->
  keeps (moves P) (_runCallback q name arg).
Proof.
  intros HP w. unfold _runCallback.
  destruct (_callbacks q !! name) as [[f|]|]; try reflexivity.
  destruct (run_threw _) eqn:E; simpl; rewrite ?E; moves_here.
Qed.

End Moves.

Ltac moves_step :=
  lazymatch goal with
  | |- keeps _ (ret _) => apply keeps_ret; tc_solve
  | |- keeps _ (throw _) => apply keeps_throw; tc_solve
  | |- keeps _ (detach _ _ _) =>
      apply keeps_detach; [intros ?; apply moves_park |]
  | |- keeps _ (suspend _) =>
      apply keeps_suspend; intros ?; apply moves_park
  | |- keeps _ (_waitUntilActive _ _) => apply keeps_waitUntilActive; tc_solve
  | |- keeps _ (match ?p with Resolved => _ | Pending => _ end) => destruct p
  | |- keeps _ (await _) =>
      apply keeps_await; [tc_solve | intros ?; apply moves_tick |]
  | |- keeps _ (bind _ _) => apply keeps_bind; [tc_solve | | intros ?]
  | |- keeps _ (try_catch _ _) =>
      apply keeps_try_catch; [tc_solve | | intros ?]
  | |- keeps _ (getDB _) => apply moves_getDB; intros
  | |- keeps _ (db_add _ _) => apply moves_db_add; intros
  | |- keeps _ (db_getAll _) => apply moves_db_getAll; intros
  | |- keeps _ (db_delete _ _) => apply moves_db_delete; intros
  | |- keeps _ (fetch _ _) => apply moves_fetch; intros
  | |- keeps _ (sync_register _ _) => apply moves_sync_register; intros
  | |- keeps _ (alloc _) => apply moves_alloc
  | |- keeps _ (StorableRequest_fromRequest _) => apply moves_fromRequest
  | |- keeps _ (_runCallback _ _ _) => apply moves_runCallback; intros
  end.

Ltac moves_auto := repeat moves_step; eauto with queue.

Section MovesOfMethods.

Variable h : Host.

Lemma moves_removeRequest (q : Queue) (key : Key) :
  keeps (moves (remove_event key)) (_removeRequest h q key).
Proof. unfold _removeRequest, _getDb. moves_auto. Qed.

Lemma moves_registerSync (q : Queue) :
  keeps (moves (sync_event q)) (_registerSync h q).
Proof. unfold _registerSync. moves_auto. Qed.

Lemma moves_replayRequest (q : Queue) (key : Key) (l : loc) :
  keeps (moves (replay_event key l)) (_replayRequest h q key l).
Proof.
  unfold _replayRequest. moves_auto.
  eapply keeps_weaken; [|apply moves_removeRequest]. eauto with queue.
Qed.

Lemma moves_collect (q : Queue) (all entries : list (Key * Entry))
    (acc : list (Key * loc)) :
  entries ⊆ all ->
  keeps (moves (read_event all)) (collect h q entries acc).
Proof.
  revert acc. induction entries as [|[key entry] rest IH]; intros acc Hsub.
  - simpl. moves_auto.
  - assert (rest ⊆ all) by set_solver.
    assert (key ∈ all.*1).
    { apply list_elem_of_fmap. exists (key, entry). split; [done|]. set_solver. }
    simpl. case_decide; [|by apply IH].
    unfold new_StorableRequest, Date_now, read. moves_auto.
    + intros w. reflexivity.
    + intros w. reflexivity.
    + destruct (_ >? _); [|by apply IH]. moves_auto.
      eapply keeps_weaken; [|apply moves_removeRequest].
      intros ev []; eauto with queue.
Qed.

End MovesOfMethods.

Section MovesOfPasses.

Variable h : Host.

Lemma moves_getStorable (q : Queue) :
  keeps (moves any_event) (_getStorableRequestsInQueue h q).
Proof.
  unfold _getStorableRequestsInQueue, _getDb. moves_auto; try done.
  eapply keeps_weaken; [|by apply (moves_collect h q a0 a0)]. done.
Qed.

Lemma moves_replay_loop (q : Queue) (items : list (Key * loc))
    (succ : list loc) (all : bool) :
  keeps (moves (loop_event items)) (replay_loop h q items succ all).
Proof.
  revert succ all. induction items as [|[key l] rest IH]; intros succ all.
  - simpl. moves_auto.
  - assert (forall ev, loop_event rest ev -> loop_event ((key, l) :: rest) ev).
    { intros ev [k' l' ev' Hin Hev]. econstructor; [|done]. set_solver. }
    simpl. moves_auto.
    + eapply keeps_weaken; [|apply moves_replayRequest].
      intros ev Hev. econstructor; [|done]. set_solver.
    + destruct a; eapply keeps_weaken; eauto.
Qed.

Lemma moves_replay_all (q : Queue) (items : list (Key * loc)) :
  keeps (moves any_event) (replay_all h q items).
Proof.
  unfold replay_all. moves_auto.
  - eapply keeps_weaken; [|apply moves_replay_loop]. done.
  - destruct a as [succ []]; moves_auto; try done.
    eapply keeps_weaken; [|apply moves_registerSync]. done.
Qed.

Lemma moves_replay_pass (q : Queue) :
  keeps (moves any_event) (replay_pass h q).
Proof.
  unfold replay_pass. moves_auto.
  - apply moves_getStorable.
  - destruct a as [|item rest]; moves_auto. apply moves_replay_all.
Qed.

Lemma moves_replayRequests (q : Queue) :
  keeps (moves any_event) (replayRequests h q).
Proof.
  unfold replayRequests, enter. moves_auto.
  - intros w. simpl. moves_here.
  - apply moves_replay_pass.
Qed.

Lemma moves_addRequest (q : Queue) (request : Request) :
  keeps (moves any_event) (addRequest h q request).
Proof.
  unfold addRequest, read, _getDb. moves_auto; try done.
  - intros w. reflexivity.
  - eapply keeps_weaken; [|apply moves_registerSync]. done.
Qed.

Lemma moves_start_pass (q : Queue) :
  keeps (moves any_event) (start_pass h q).
Proof.
  unfold start_pass, enter. moves_auto.
  - intros w. simpl. moves_here.
  - apply moves_replay_pass.
Qed.

Lemma detach_ok {A} (t : Task) (m : M A) (w : World) :
  detach h t m w = (Ok tt, (detach h t m w).2).
Proof. unfold detach. by destruct (lands_now _ _ _). Qed.

Lemma start_pass_ok (q : Queue) (w : World) :
  start_pass h q w = (Ok tt, (start_pass h q w).2).
Proof.
  unfold start_pass, bind, enter. cbv beta iota. by rewrite detach_ok.
Qed.

Lemma moves_run_task (t : Task) :
  keeps (moves any_event) (run_task h t).
Proof.
  destruct t; simpl.
  - eapply keeps_weaken; [|apply moves_removeRequest]. done.
  - eapply keeps_weaken; [|apply moves_registerSync]. done.
  - apply moves_replay_pass.
Qed.

Lemma moves_land (n : nat) (w : World) : moves any_event w (land h n w).
Proof.
  unfold land. destruct (parked w !! n) as [t|]; [|reflexivity].
  etrans; [|apply moves_run_task].
  split; simpl; try done. exists []. by rewrite app_nil_r.
Qed.

End MovesOfPasses.

#[export] Instance lives_preorder : PreOrder lives.
Proof.
  split.
  - intros w. by split.
  - intros w1 w2 w3 [] []. split; by etrans.
Qed.

Lemma moves_lives (P : Event -> Prop) (w w' : World) :
  moves P w w' -> lives w w'.
Proof.
  intros []. split.
  - by rewrite moves_names0.
  - by rewrite moves_listeners0.
  - destruct moves_trace0 as (ext & -> & _). by apply prefix_app_r.
Qed.

(** ** The life of a process *)

Section Process.

Variable h : Host.

Lemma lives_new_Queue name mrt cbs w :
  lives w (new_Queue h name mrt cbs w).2.
Proof.
  unfold new_Queue. case_decide; [reflexivity|].
  set (q := Build_Queue _ _ _).
  set (w1 := set_names _ w).
  assert (lives w w1) as H1.
  { split; simpl; [set_solver|done..]. }
  etrans; [exact H1|].
  unfold _addSyncListener, bind. simpl.
  assert (lives w1 (add_listener q w1)) as H2.
  { split; simpl; [done| by apply prefix_app_r |done]. }
  destruct (sync_supported h); simpl; [done|].
  etrans; [exact H2|]. rewrite start_pass_ok. simpl.
  eapply moves_lives, moves_start_pass.
Qed.

Lemma lives_dispatch_sync event w : lives w (dispatch_sync h event w).
Proof.
  unfold dispatch_sync. generalize (listeners w) as qs.
  intros qs. revert w. induction qs as [|q qs IH]; intros w; simpl.
  - reflexivity.
  - etrans; [|apply IH]. eapply moves_lives, moves_start_pass.
Qed.

Lemma lives_perform a w : lives w (perform h a w).
Proof.
  destruct a; simpl.
  - apply lives_new_Queue.
  - eapply moves_lives, moves_addRequest.
  - eapply moves_lives, moves_replayRequests.
  - apply lives_dispatch_sync.
  - by split.
  - eapply moves_lives, moves_land.
Qed.

Lemma lives_run acts w : lives w (run h acts w).
Proof.
  revert w. induction acts as [|a acts IH]; intros w; simpl.
  - reflexivity.
  - etrans; [apply lives_perform | apply IH].
Qed.

End Process.

(** ** The name registry *)

Section Registry.

Variable h : Host.

Lemma names_new_Queue name mrt cbs w :
  names (new_Queue h name mrt cbs w).2 = names w ∪ {[name]}.
Proof.
  unfold new_Queue. case_decide; simpl.
  { apply set_eq. intros x. rewrite elem_of_union, elem_of_singleton. naive_solver. }
  set (q := Build_Queue _ _ _). set (w1 := set_names _ w).
  unfold bind, _addSyncListener, bind. simpl.
  destruct (sync_supported h); simpl; [done|]. rewrite start_pass_ok. simpl.
  by rewrite (moves_names any_event _ _ (moves_start_pass h q _)).
Qed.

Lemma names_dispatch_sync event w :
  names (dispatch_sync h event w) = names w.
Proof.
  unfold dispatch_sync. generalize (listeners w) as qs.
  intros qs. revert w. induction qs as [|q qs IH]; intros w; simpl; [done|].
  rewrite IH. apply (moves_names any_event), moves_start_pass.
Qed.

Lemma names_perform a w :
  names (perform h a w) =
  match a with ANew name _ _ => names w ∪ {[name]} | _ => names w end.
Proof.
  destruct a; simpl.
  - apply names_new_Queue.
  - apply (moves_names any_event), moves_addRequest.
  - apply (moves_names any_event), moves_replayRequests.
  - apply names_dispatch_sync.
  - done.
  - apply (moves_names any_event), moves_land.
Qed.

Lemma names_run acts w name :
  name ∈ names (run h acts w) <->
  name ∈ names w \/ existsb (is_constructor_of name) acts = true.
Proof.
  revert w. induction acts as [|a acts IH]; intros w.
  - simpl. naive_solver.
  - change (run h (a :: acts) w) with (run h acts (perform h a w)).
    rewrite IH, names_perform. simpl. rewrite orb_true_iff.
    destruct a; simpl; rewrite ?bool_decide_eq_true; set_solver.
Qed.

Lemma new_Queue_fresh name mrt cbs w :
  name ∉ names w ->
  exists q w', new_Queue h name mrt cbs w = (Ok q, w') /\ _name q = name.
Proof.
  intros Hn. unfold new_Queue. rewrite decide_False by done.
  unfold bind, _addSyncListener, bind. simpl.
  destruct (sync_supported h); simpl; eauto.
  rewrite start_pass_ok. simpl. eauto.
Qed.

End Registry.

(** ** Sync events *)

Section SyncEvents.

Variable h : Host.

Lemma replayRequests_enters (q : Queue) (w : World) :
  exists post,
    trace (replayRequests h q w).2 = trace w ++ EvReplay (_name q) :: post.
Proof.
  unfold replayRequests, bind, enter.
  set (w1 := emit _ w).
  destruct (moves_trace _ _ _ (moves_replay_pass h q w1)) as (ext & E & _).
  exists ext. destruct (replay_pass h q w1) as [[[]|e] w2]; simpl in *;
    rewrite E; simpl; by rewrite <- app_assoc.
Qed.




End SyncEvents.

Lemma tracing_of {A} (P : Event -> Prop) (m : M A) :
  keeps (moves P) m -> tracing m.
Proof. apply keeps_weaken. done. Qed.

Lemma trace_events {A} (m : M A) (w : World) :
  tracing m -> trace (m w).2 = trace w ++ events m w.
Proof.
  intros Hm. destruct (moves_trace _ _ _ (Hm w)) as (ext & E & _).
  unfold events. rewrite E. by rewrite drop_app_length.
Qed.

Lemma events_ext {A} (m : M A) (w : World) (ext : list Event) :
  trace (m w).2 = trace w ++ ext -> events m w = ext.
Proof. intros E. unfold events. rewrite E. by rewrite drop_app_length. Qed.

Lemma bind_ok {A B} (m : M A) (f : A -> M B) (w : World) (a : A) :
  tracing m -> (forall a, tracing (f a)) ->
  (m w).1 = Ok a ->
  events (bind m f) w = events m w ++ events (f a) (m w).2 /\
  (bind m f w).1 = (f a (m w).2).1 /\
  (bind m f w).2 = (f a (m w).2).2.
Proof.
  intros Hm Hf Hr. pose proof (trace_events m w Hm) as E1.
  pose proof (trace_events (f a) (m w).2 (Hf a)) as E2.
  unfold events at 1. unfold bind. cbv beta.
  destruct (m w) as [r w1]. simpl in *. subst r.
  split; [|done]. rewrite E2, E1, <- app_assoc. by rewrite drop_app_length.
Qed.

Lemma bind_throw {A B} (m : M A) (f : A -> M B) (w : World) (e : Error) :
  (m w).1 = Throw e ->
  events (bind m f) w = events m w /\
  (bind m f w).1 = Throw e /\
  (bind m f w).2 = (m w).2.
Proof.
  intros Hr. unfold events, bind. destruct (m w) as [r w1]. simpl in *.
  by subst r.
Qed.

Lemma try_catch_ok {A} (m : M A) (f : Error -> M A) (w : World) (a : A) :
  (m w).1 = Ok a ->
  events (try_catch m f) w = events m w /\
  (try_catch m f w).1 = Ok a /\
  (try_catch m f w).2 = (m w).2.
Proof.
  intros Hr. unfold events, try_catch. destruct (m w) as [r w1]. simpl in *.
  by subst r.
Qed.

Lemma try_catch_throw {A} (m : M A) (f : Error -> M A) (w : World) (e : Error) :
  tracing m -> (forall e, tracing (f e)) ->
  (m w).1 = Throw e ->
  events (try_catch m f) w = events m w ++ events (f e) (m w).2 /\
  (try_catch m f w).1 = (f e (m w).2).1 /\
  (try_catch m f w).2 = (f e (m w).2).2.
Proof.
  intros Hm Hf Hr. pose proof (trace_events m w Hm) as E1.
  pose proof (trace_events (f e) (m w).2 (Hf e)) as E2.
  unfold events at 1. unfold try_catch. cbv beta.
  destruct (m w) as [r w1]. simpl in *. subst r.
  split; [|done]. rewrite E2, E1, <- app_assoc. by rewrite drop_app_length.
Qed.

Lemma await_run {A} (m : M A) (w : World) :
  events (await m) w = events m w /\
  (await m w).1 = (m w).1 /\
  (await m w).2 = tick (m w).2.
Proof. unfold events, await. by destruct (m w) as [r w1]. Qed.

Lemma events_ret {A} (a : A) (w : World) : events (ret a) w = [].
Proof. apply events_ext. simpl. by rewrite app_nil_r. Qed.

Ltac tracing_step :=
  lazymatch goal with
  | |- tracing _ => unfold tracing
  | |- keeps _ (_removeRequest _ _ _) =>
      eapply keeps_weaken; [|apply moves_removeRequest]; done
  | |- keeps _ (_registerSync _ _) =>
      eapply keeps_weaken; [|apply moves_registerSync]; done
  | |- keeps _ (_replayRequest _ _ _ _) =>
      eapply keeps_weaken; [|apply moves_replayRequest]; done
  | |- keeps _ (replay_loop _ _ _ _ _) =>
      eapply keeps_weaken; [|apply moves_replay_loop]; done
  | |- keeps _ (_getStorableRequestsInQueue _ _) => apply moves_getStorable
  | |- keeps _ (replay_all _ _ _) => apply moves_replay_all
  | |- keeps _ (replay_pass _ _) => apply moves_replay_pass
  | |- _ => moves_step
  end.

Ltac tracing_auto := repeat tracing_step; try exact I.

Lemma always_ret {A} (a : A) (S : list Event -> Result A -> Prop) :
  S [] (Ok a) -> always (ret a) S.
Proof. intros HS w. by rewrite events_ret. Qed.

Lemma always_await {A} (m : M A) (S : list Event -> Result A -> Prop) :
  always m S -> always (await m) S.
Proof.
  intros Hm w. destruct (await_run m w) as (E & R & _).
  rewrite E, R. apply Hm.
Qed.

Lemma always_weaken {A} (m : M A) (S S' : list Event -> Result A -> Prop) :
  always m S -> (forall e r, S e r -> S' e r) -> always m S'.
Proof. intros Hm HS w. apply HS, Hm. Qed.

Lemma always_bind {A B} (m : M A) (f : A -> M B)
    (S1 : list Event -> Result A -> Prop) (S : list Event -> Result B -> Prop) :
  tracing m -> (forall a, tracing (f a)) ->
  always m S1 ->
  (forall e1 a, S1 e1 (Ok a) -> always (f a) (fun e2 r => S (e1 ++ e2) r)) ->
  (forall e1 err, S1 e1 (Throw err) -> S e1 (Throw err)) ->
  always (bind m f) S.
Proof.
  intros Tm Tf Hm Hok Hthrow w. specialize (Hm w).
  destruct (m w).1 as [a|err] eqn:R.
  - destruct (bind_ok m f w a Tm Tf R) as (E2 & R2 & _).
    rewrite E2, R2. by apply Hok.
  - destruct (bind_throw m f w err R) as (E2 & R2 & _).
    rewrite E2, R2. by apply Hthrow.
Qed.

Lemma always_try_catch {A} (m : M A) (f : Error -> M A)
    (S1 S : list Event -> Result A -> Prop) :
  tracing m -> (forall e, tracing (f e)) ->
  always m S1 ->
  (forall e1 a, S1 e1 (Ok a) -> S e1 (Ok a)) ->
  (forall e1 err, S1 e1 (Throw err) ->
     always (f err) (fun e2 r => S (e1 ++ e2) r)) ->
  always (try_catch m f) S.
Proof.
  intros Tm Tf Hm Hok Hthrow w. specialize (Hm w).
  destruct (m w).1 as [a|err] eqn:R.
  - destruct (try_catch_ok m f w a R) as (E2 & R2 & _).
    rewrite E2, R2. by apply Hok.
  - destruct (try_catch_throw m f w err Tm Tf R) as (E2 & R2 & _).
    rewrite E2, R2. by apply Hthrow.
Qed.

(** ** The trace of one replay attempt *)

Section Attempts.

Variable h : Host.

Lemma runCallback_hook (q : Queue) (name : string) (arg : Arg) :
  always (_runCallback q name arg) (hook_shape q name arg).
Proof.
  intros w. unfold hook_shape, events, _runCallback.
  destruct (_callbacks q !! name) as [[f|]|] eqn:E; simpl.
  - exists (run_threw (f arg (heap w))).
    destruct (run_threw _) eqn:Et; simpl; rewrite drop_app_length;
      (split; [|done]); apply hook_called; unfold is_function; by rewrite E.
  - exists false. rewrite drop_all. split; [|done].
    apply hook_absent. unfold is_function. by rewrite E.
  - exists false. rewrite drop_all. split; [|done].
    apply hook_absent. unfold is_function. by rewrite E.
Qed.

Lemma fetch_run (l : loc) : always (fetch h l) (fetch_shape l).
Proof.
  intros w. unfold fetch_shape, events, fetch.
  exists (StorableRequest.toRequest (heap w l)),
         (fetch_ok h (step w) (StorableRequest.toRequest (heap w l))).
  destruct (fetch_ok _ _ _); simpl; by rewrite drop_app_length.
Qed.

Lemma store_request_run {A} (op : StoreOp) (run : Store -> A * Store) :
  always (store_request h op run) (store_shape op).
Proof.
  intros w. unfold store_shape, events, store_request.
  destruct (store_ok _ _ _); simpl.
  - right. destruct (run (store w)) as [a s']. simpl.
    rewrite drop_app_length. eauto.
  - left. by rewrite drop_app_length.
Qed.

Lemma removeRequest_run (q : Queue) (key : Key) :
  always (_removeRequest h q key) (remove_shape key).
Proof.
  unfold _removeRequest, _getDb.
  eapply always_bind; [tracing_auto | intros; tracing_auto | | |].
  - apply always_await, store_request_run.
  - intros e1 [] [[_ [=]]|[-> _]].
    apply always_await. eapply always_weaken; [apply store_request_run|].
    intros e r [[-> ->]|[-> [[] ->]]]; unfold remove_shape; simpl; eauto.
  - intros e1 err [[-> [= ->]]|[_ [? [=]]]]. unfold remove_shape. eauto.
Qed.

Lemma replay_try_run (q : Queue) (key : Key) (l : loc) :
  always
    (_runCallback q "requestWillReplay" (ArgRequest l) ;;;
     await (fetch h l) ;;;
     _runCallback q "requestDidReplay" (ArgRequest l) ;;;
     await (_removeRequest h q key) ;;;
     ret true)
    (try_shape q key l).
Proof.
  eapply always_bind; [tracing_auto | intros; tracing_auto | apply runCallback_hook | |].
  2:{ intros e1 err ([] & H1 & [=]). right. eauto with queue. }
  intros e1 [] ([] & H1 & [=]).
  eapply always_bind; [tracing_auto | intros; tracing_auto | apply always_await, fetch_run | |].
  2:{ intros e2 err (req & [] & -> & [=]). right. eauto with queue. }
  intros e2 [] (req & [] & -> & [=]).
  eapply always_bind; [tracing_auto | intros; tracing_auto | apply runCallback_hook | |].
  2:{ intros e3 err ([] & H3 & [=]). right. simpl. eauto with queue. }
  intros e3 [] ([] & H3 & [=]).
  eapply always_bind; [tracing_auto | intros; tracing_auto
                      | apply always_await, removeRequest_run | |].
  - intros e4 [] [[_ [=]]|[[_ [=]]|[-> _]]].
    apply always_ret. left. split; [done|].
    rewrite app_nil_r. simpl. eauto with queue.
  - intros e4 err [[-> _]|[[-> _]|[_ [=]]]]; right; exists err;
      (split; [done|]); simpl; eauto with queue.
Qed.

Lemma replayRequest_attempt (q : Queue) (key : Key) (l : loc) :
  always (_replayRequest h q key l) (attempt q key l).
Proof.
  unfold _replayRequest.
  eapply always_try_catch; [tracing_auto | intros; tracing_auto
                           | apply replay_try_run | |].
  - intros e1 a [[[= ->] H]|(err & [=] & _)]. by constructor.
  - intros e1 err [[[=] _]|(err' & _ & H)].
    eapply always_bind; [tracing_auto | intros; tracing_auto
                        | apply runCallback_hook | |].
    + intros e2 [] ([] & H2 & [=]). apply always_ret.
      rewrite app_nil_r. eauto with queue.
    + intros e2 err2 ([] & H2 & [= ->]). eauto with queue.
Qed.

Lemma replay_loop_run (q : Queue) (items : list (Key * loc))
    (succ : list loc) (all : bool) :
  always (replay_loop h q items succ all)
    (fun e r => exists es, e = concat es /\ loop_run q items succ all es r).
Proof.
  revert succ all. induction items as [|[key l] rest IH]; intros succ all.
  - simpl. apply always_ret. exists []. eauto with queue.
  - simpl.
    eapply always_bind; [tracing_auto | intros [] ; tracing_auto
                        | apply always_await, replayRequest_attempt | |].
    + intros e1 [] H1.
      * eapply always_weaken; [apply IH|].
        intros e r (es & -> & Hes). exists (e1 :: es). eauto with queue.
      * eapply always_weaken; [apply IH|].
        intros e r (es & -> & Hes). exists (e1 :: es). eauto with queue.
    + intros e1 err H1. exists [e1]. simpl. rewrite app_nil_r.
      eauto with queue.
Qed.

End Attempts.

Lemma filter_all {A} (P : A -> Prop) `{forall x, Decision (P x)} (l : list A) :
  (forall x, x ∈ l -> P x) -> filter P l = l.
Proof.
  induction l as [|x l IH]; intros HP; [done|].
  rewrite filter_cons_True by (apply HP; set_solver).
  f_equal. apply IH. intros y Hy. apply HP. set_solver.
Qed.

(** ** What a pass does to the store *)

#[export] Instance purges_preorder : PreOrder purges.
Proof.
  split.
  - intros w. split; [done|]. exists []. rewrite app_nil_r. split; [done|].
    symmetry. apply filter_all. intros row _. simpl. set_solver.
  - intros w1 w2 w3 [K1 (e1 & T1 & R1)] [K2 (e2 & T2 & R2)].
    split; [congruence|]. exists (e1 ++ e2).
    rewrite T2, T1, <- app_assoc. split; [done|].
    rewrite R2, R1, list_filter_filter. apply list_filter_iff.
    intros row. unfold deleted_keys. rewrite omap_app, not_elem_of_app.
    naive_solver.
Qed.

Lemma purges_same (w w' : World) (ext : list Event) :
  store w' = store w -> trace w' = trace w ++ ext -> deleted_keys ext = [] ->
  purges w w'.
Proof.
  intros Hs Ht Hd. split; [by rewrite Hs|]. exists ext. split; [done|].
  rewrite Hs, Hd. symmetry. apply filter_all. intros row _. set_solver.
Qed.

Lemma purges_tick (w : World) : purges w (tick w).
Proof. apply (purges_same _ _ []); simpl; by rewrite ?app_nil_r. Qed.

Lemma purges_park (t : Task) (w : World) : purges w (park t w).
Proof. apply (purges_same _ _ []); simpl; by rewrite ?app_nil_r. Qed.

Section Purges.

Variable h : Host.

Lemma purges_getDB : keeps purges (getDB h).
Proof.
  intros w. unfold getDB, store_request.
  destruct (store_ok _ _ _); simpl; by eapply purges_same.
Qed.

Lemma purges_db_getAll : keeps purges (db_getAll h).
Proof.
  intros w. unfold db_getAll, store_request.
  destruct (store_ok _ _ _); simpl; by eapply purges_same.
Qed.

Lemma purges_db_delete (k : Key) : keeps purges (db_delete h k).
Proof.
  intros w. unfold db_delete, store_request.
  destruct (store_ok _ _ _); simpl; [|by eapply purges_same].
  split; [done|]. eexists. split; [done|]. simpl.
  apply list_filter_iff. intros row. set_solver.
Qed.

Lemma purges_fetch (l : loc) : keeps purges (fetch h l).
Proof.
  intros w. unfold fetch.
  destruct (fetch_ok _ _ _); simpl; by eapply purges_same.
Qed.

Lemma purges_sync_register (t : string) : keeps purges (sync_register h t).
Proof.
  intros w. unfold sync_register.
  destruct (_ && _); simpl; by eapply purges_same.
Qed.

Lemma purges_alloc (s : StorableRequest.t) : keeps purges (alloc s).
Proof.
  intros w. unfold alloc. simpl.
  apply (purges_same _ _ []); simpl; by rewrite ?app_nil_r.
Qed.

Lemma purges_runCallback (q : Queue) (name : string) (arg : Arg) :
  keeps purges (_runCallback q name arg).
Proof.
  intros w. unfold _runCallback.
  destruct (_callbacks q !! name) as [[f|]|]; try reflexivity.
  destruct (run_threw _); simpl; by eapply purges_same.
Qed.

End Purges.

Ltac purges_step :=
  lazymatch goal with
  | |- keeps _ (ret _) => apply keeps_ret; tc_solve
  | |- keeps _ (throw _) => apply keeps_throw; tc_solve
  | |- keeps _ (detach _ _ _) =>
      apply keeps_detach; [intros ?; apply purges_park |]
  | |- keeps _ (suspend _) => apply keeps_suspend; intros ?; apply purges_park
  | |- keeps _ (_waitUntilActive _ _) => apply keeps_waitUntilActive; tc_solve
  | |- keeps _ (match ?p with Resolved => _ | Pending => _ end) => destruct p
  | |- keeps _ (await _) =>
      apply keeps_await; [tc_solve | intros ?; apply purges_tick |]
  | |- keeps _ (bind _ _) => apply keeps_bind; [tc_solve | | intros ?]
  | |- keeps _ (try_catch _ _) =>
      apply keeps_try_catch; [tc_solve | | intros ?]
  | |- keeps _ (getDB _) => apply purges_getDB
  | |- keeps _ (db_getAll _) => apply purges_db_getAll
  | |- keeps _ (db_delete _ _) => apply purges_db_delete
  | |- keeps _ (fetch _ _) => apply purges_fetch
  | |- keeps _ (sync_register _ _) => apply purges_sync_register
  | |- keeps _ (alloc _) => apply purges_alloc
  | |- keeps _ (_runCallback _ _ _) => apply purges_runCallback
  end.

Section PurgesOfMethods.

Variable h : Host.

Lemma purges_removeRequest (q : Queue) (key : Key) :
  keeps purges (_removeRequest h q key).
Proof. unfold _removeRequest, _getDb. repeat purges_step. Qed.

Lemma purges_registerSync (q : Queue) : keeps purges (_registerSync h q).
Proof. unfold _registerSync. repeat purges_step. Qed.

Lemma purges_replayRequest (q : Queue) (key : Key) (l : loc) :
  keeps purges (_replayRequest h q key l).
Proof.
  unfold _replayRequest. repeat purges_step. apply purges_removeRequest.
Qed.

Lemma purges_collect (q : Queue) (entries : list (Key * Entry))
    (acc : list (Key * loc)) :
  keeps purges (collect h q entries acc).
Proof.
  revert acc. induction entries as [|[key entry] rest IH]; intros acc.
  - simpl. repeat purges_step.
  - simpl. case_decide; [|by apply IH].
    unfold new_StorableRequest, Date_now, read. repeat purges_step.
    + intros w. reflexivity.
    + intros w. reflexivity.
    + destruct (_ >? _); [|by apply IH]. repeat purges_step; [|by apply IH].
      apply purges_removeRequest.
Qed.

Lemma purges_getStorable (q : Queue) :
  keeps purges (_getStorableRequestsInQueue h q).
Proof.
  unfold _getStorableRequestsInQueue, _getDb. repeat purges_step.
  apply purges_collect.
Qed.

Lemma purges_replay_loop (q : Queue) (items : list (Key * loc))
    (succ : list loc) (all : bool) :
  keeps purges (replay_loop h q items succ all).
Proof.
  revert succ all. induction items as [|[key l] rest IH]; intros succ all.
  - simpl. repeat purges_step.
  - simpl. repeat purges_step; [apply purges_replayRequest|].
    destruct a; apply IH.
Qed.

Lemma purges_replay_all (q : Queue) (items : list (Key * loc)) :
  keeps purges (replay_all h q items).
Proof.
  unfold replay_all. repeat purges_step; [apply purges_replay_loop|].
  destruct a as [succ []]; repeat purges_step. apply purges_registerSync.
Qed.

Lemma purges_replay_pass (q : Queue) : keeps purges (replay_pass h q).
Proof.
  unfold replay_pass. repeat purges_step; [apply purges_getStorable|].
  destruct a as [|item rest]; repeat purges_step. apply purges_replay_all.
Qed.

Lemma purges_replayRequests (q : Queue) : keeps purges (replayRequests h q).
Proof.
  unfold replayRequests, enter. repeat purges_step; [|apply purges_replay_pass].
  intros w. simpl. by eapply purges_same.
Qed.

Lemma purges_start_pass (q : Queue) : keeps purges (start_pass h q).
Proof.
  unfold start_pass, enter. repeat purges_step; [|apply purges_replay_pass].
  intros w. simpl. by eapply purges_same.
Qed.

Lemma purges_run_task (t : Task) : keeps purges (run_task h t).
Proof.
  destruct t; simpl.
  - apply purges_removeRequest.
  - apply purges_registerSync.
  - apply purges_replay_pass.
Qed.

Lemma purges_land (n : nat) (w : World) : purges w (land h n w).
Proof.
  unfold land. destruct (parked w !! n) as [t|]; [|reflexivity].
  etrans; [|apply purges_run_task].
  apply (purges_same _ _ []); simpl; by rewrite ?app_nil_r.
Qed.

End PurgesOfMethods.

(** ** Reading the queue *)

Section Reading.

Variable h : Host.

Lemma collect_cons_mine (q : Queue) (key : Key) (e : Entry)
    (rest : list (Key * Entry)) (acc : list (Key * loc)) (w : World) :
  queueName e = _name q ->
  collect h q ((key, e) :: rest) acc w =
    let w1 := set_fresh (S (fresh w))
                (set_heap (heap_set (fresh w)
                   (StorableRequest.fromObject (storableRequest e)) (heap w)) w) in
    if expired q (now w) e
    then collect h q rest acc
           (detach h (TRemove q key) (_removeRequest h q key) w1).2
    else collect h q rest (acc ++ [(key, fresh w)]) w1.
Proof.
  intros Hq. simpl. rewrite decide_True by done.
  unfold bind at 1 2 3. unfold new_StorableRequest, alloc, Date_now, read.
  simpl. unfold heap_set at 1. rewrite Nat.eqb_refl. unfold expired. simpl.
  destruct (_ >? _); [|done]. unfold bind. by rewrite detach_ok.
Qed.

Lemma collect_spec (q : Queue) (entries : list (Key * Entry))
    (acc : list (Key * loc)) (w : World) :
  exists items,
    (collect h q entries acc w).1 = Ok (acc ++ items) /\
    collect_run q (now w) entries items (events (collect h q entries acc) w) /\
    Forall (fun l => (fresh w <= l)%nat) items.*2.
Proof.
  revert acc w. induction entries as [|[key e] rest IH]; intros acc w.
  - exists []. simpl. rewrite app_nil_r, events_ret. eauto with queue.
  - destruct (decide (queueName e = _name q)) as [Hq|Hq].
    + unfold events. rewrite (collect_cons_mine q key e rest acc w Hq).
      cbv zeta. set (w1 := set_fresh _ _).
      destruct (expired q (now w) e) eqn:Hexp.
      * assert (tracing (collect h q rest acc)) as T2.
        { eapply tracing_of, (moves_collect h q rest rest). done. }
        unfold detach. destruct (lands_now h (step w1) (TRemove q key));
          cbn [snd].
        -- set (w2 := (_removeRequest h q key w1).2).
           destruct (IH acc w2) as (items & R & C & F).
           pose proof (moves_removeRequest h q key w1) as Hm. fold w2 in Hm.
           pose proof (removeRequest_run h q key w1) as Hs.
           assert (tracing (_removeRequest h q key)) as T by tracing_auto.
           pose proof (trace_events _ w1 T) as E1. fold w2 in E1.
           pose proof (trace_events _ w2 T2) as E2.
           exists items. split; [done|]. split.
           ++ rewrite E2, E1. change (trace w1) with (trace w).
              rewrite <- app_assoc, drop_app_length.
              rewrite (moves_now _ _ _ Hm) in C. eauto with queue.
           ++ eapply Forall_impl; [exact F|]. intros l Hl. simpl in Hl.
              pose proof (moves_fresh _ _ _ Hm). simpl in *. lia.
        -- set (w2 := park (TRemove q key) w1).
           destruct (IH acc w2) as (items & R & C & F).
           pose proof (trace_events _ w2 T2) as E2.
           exists items. split; [done|]. split.
           ++ rewrite E2. change (trace w2) with (trace w).
              rewrite drop_app_length. change (now w2) with (now w) in C.
              eauto with queue.
           ++ eapply Forall_impl; [exact F|]. intros l Hl. simpl in Hl. lia.
      * destruct (IH (acc ++ [(key, fresh w)]) w1) as (items & R & C & F).
        exists ((key, fresh w) :: items). rewrite R, <- app_assoc.
        split; [done|]. split.
        -- by apply collect_kept.
        -- constructor; [simpl; lia|].
           eapply Forall_impl; [exact F|]. simpl. intros; lia.
    + destruct (IH acc w) as (items & R & C & F).
      exists items. unfold events. simpl. rewrite decide_False by done.
      eauto with queue.
Qed.

Lemma getStorable_run (q : Queue) (w : World) :
  read_shape q (now w) (rows (store w))
    (events (_getStorableRequestsInQueue h q) w)
    (_getStorableRequestsInQueue h q w).1.
Proof.
  unfold _getStorableRequestsInQueue, _getDb, read_shape.
  assert (tracing (await (getDB h))) as T1 by tracing_auto.
  assert (forall a : unit, tracing (entries <- await (db_getAll h) ;;
                                    collect h q entries [])) as T2.
  { intros. tracing_auto. eapply tracing_of, (moves_collect h q a0 a0). done. }
  destruct (await_run (getDB h) w) as (E1 & R1 & W1).
  destruct (store_request_run h OpOpen (fun s => (tt, s)) w) as [[E R]|[E [[] R]]];
    fold (getDB h) in E, R.
  { left. rewrite <- R1 in R. rewrite <- E1 in E.
    destruct (bind_throw _ (fun _ => entries <- await (db_getAll h) ;;
                                     collect h q entries []) w _ R) as (-> & -> & _).
    done. }
  right. rewrite <- R1 in R. rewrite <- E1 in E.
  destruct (bind_ok _ _ w tt T1 T2 R) as (-> & -> & _). rewrite E.
  set (w1 := (await (getDB h) w).2).
  assert (now w1 = now w /\ store w1 = store w) as [Hn Hs].
  { unfold w1. rewrite W1. unfold getDB, store_request.
    by destruct (store_ok _ _ _). }
  assert (tracing (await (db_getAll h))) as T3 by tracing_auto.
  assert (forall a, tracing (collect h q a [])) as T4.
  { intros. eapply tracing_of, (moves_collect h q a a). done. }
  destruct (await_run (db_getAll h) w1) as (E2 & R2 & W2).
  destruct (store_request_run h OpGetAll (fun s => (rows s, s)) w1)
    as [[E' R']|[E' [a R']]]; fold (db_getAll h) in E', R'.
  { left. rewrite <- R2 in R'. rewrite <- E2 in E'.
    destruct (bind_throw _ (fun entries => collect h q entries []) w1 _ R')
      as (-> & -> & _).
    rewrite E'. done. }
  right. rewrite <- R2 in R'. rewrite <- E2 in E'.
  destruct (bind_ok _ _ w1 a T3 T4 R') as (-> & -> & _). rewrite E'.
  set (w2 := (await (db_getAll h) w1).2).
  assert (now w2 = now w /\ a = rows (store w)) as [Hn2 ->].
  { unfold w2. rewrite W2. rewrite R2 in R'. revert R'.
    unfold db_getAll, store_request.
    destruct (store_ok _ _ _); simpl; [|done].
    intros [= <-]. by rewrite Hs. }
  destruct (collect_spec q (rows (store w)) [] w2) as (items & Rc & C & _).
  exists items, (events (collect h q (rows (store w)) []) w2).
  rewrite Hn2 in C. done.
Qed.

End Reading.

Lemma always_detach (h : Host) {A} (t : Task) (m : M A)
    (S1 : list Event -> Result A -> Prop)
    (S : list Event -> Result unit -> Prop) :
  always m S1 -> (forall e r, S1 e r -> S e (Ok tt)) -> S [] (Ok tt) ->
  always (detach h t m) S.
Proof.
  intros Hm HS Hp w. unfold events, detach.
  destruct (lands_now _ _ _); cbn [fst snd].
  - eapply HS, Hm.
  - simpl. by rewrite drop_all.
Qed.

(** ** The anatomy of a pass *)

Section Anatomy.

Variable h : Host.

Lemma sync_register_run (t : string) :
  always (sync_register h t)
    (fun e r => exists ok, e = [EvRegisterSync t ok] /\
                           r = (if ok then Ok tt else Throw SyncFailure)).
Proof.
  intros w. unfold events, sync_register.
  exists (sync_supported h && sync_ok h (step w) t).
  destruct (_ && _); simpl; by rewrite drop_app_length.
Qed.

Lemma registerSync_unfold (q : Queue) (w : World) :
  let w0 := tick w in
  let ok := sync_supported h && sync_ok h (step w0) (sync_tag q) in
  let w1 := advance (emit (EvRegisterSync (sync_tag q) ok) w0) in
  _registerSync h q w =
    if worker_active h (step w)
    then (Ok tt, tick (if ok then add_sync_tag (sync_tag q) w1 else w1))
    else (Ok tt, park (TRegister q) w).
Proof.
  intros w0 ok w1.
  unfold _registerSync, try_catch, bind, await, _waitUntilActive, ret,
    sync_register, suspend.
  destruct (worker_active h (step w)); [|reflexivity].
  fold w0. fold (sync_tag q). fold ok. fold w1.
  destruct ok; reflexivity.
Qed.

Lemma registerSync_run (q : Queue) :
  always (_registerSync h q) (register_shape q).
Proof.
  intros w. unfold events. rewrite registerSync_unfold. cbv zeta.
  destruct (worker_active h (step w)); cbn [fst snd].
  - set (ok := sync_supported h && sync_ok h (step (tick w)) (sync_tag q)).
    split; [|done]. right. exists ok.
    destruct ok; simpl; by rewrite drop_app_length.
  - simpl. rewrite drop_all. split; [by left|done].
Qed.

(** The un-awaited [_registerSync()] of [addRequest] and [replayRequests]:
    either the sync manager is asked before the caller goes on, or the
    call is parked; the store is not touched. *)
Lemma detach_registerSync (q : Queue) (w : World) :
  let m := detach h (TRegister q) (_registerSync h q) in
  store (m w).2 = store w /\
  ((exists ok, events m w = [EvRegisterSync (sync_tag q) ok]) /\
   parked (m w).2 = parked w \/
   events m w = [] /\ parked (m w).2 = parked w ++ [TRegister q]).
Proof.
  intros m. unfold m, events, detach.
  destruct (lands_now _ _ _); cbn [fst snd].
  - rewrite registerSync_unfold. cbv zeta.
    destruct (worker_active _ _); cbn [snd].
    + set (ok := _ && _). split; [by destruct ok|]. left.
      split; [|by destruct ok]. exists ok.
      destruct ok; simpl; by rewrite drop_app_length.
    + split; [done|]. right. simpl. by rewrite drop_all.
  - split; [done|]. right. simpl. by rewrite drop_all.
Qed.

Lemma replay_all_run (q : Queue) (items : list (Key * loc)) (w : World) :
  exists blocks tail,
    events (replay_all h q items) w = concat blocks ++ tail /\
    loop_run q items [] true blocks (replay_loop h q items [] true w).1 /\
    finish q (replay_loop h q items [] true w).1 tail (replay_all h q items w).1.
Proof.
  destruct (replay_loop_run h q items [] true w) as (blocks & E & L).
  exists blocks. unfold replay_all.
  set (k := fun outcome : list loc * bool =>
              let '(succ, all) := outcome in
              if (all : bool)
              then _runCallback q "allRequestsDidReplay" (ArgRequests succ)
              else detach h (TRegister q) (_registerSync h q)).
  assert (tracing (replay_loop h q items [] true)) as T1 by tracing_auto.
  assert (forall a, tracing (k a)) as T2.
  { intros [succ []]; simpl; tracing_auto. }
  change (bind (replay_loop h q items [] true) _)
    with (bind (replay_loop h q items [] true) k).
  destruct (replay_loop h q items [] true w).1 as [[succ all]|err] eqn:R.
  - destruct (bind_ok _ k w _ T1 T2 R) as (-> & -> & _). rewrite E.
    set (w2 := (replay_loop h q items [] true w).2).
    exists (events (k (succ, all)) w2). split; [done|]. split; [done|].
    destruct all; simpl.
    + destruct (runCallback_hook q "allRequestsDidReplay" (ArgRequests succ) w2)
        as (threw & H1 & ->). by constructor.
    + pose proof (always_detach h (TRegister q) (_registerSync h q)
                    (register_shape q) (register_shape q) (registerSync_run q)) as Hd.
      destruct (Hd ltac:(by intros e r [H _]) ltac:(split; [by left|done]) w2)
        as [[E2|[ok E2]] R2]; simpl in E2, R2; rewrite E2, R2; constructor.
  - destruct (bind_throw _ k w _ R) as (-> & -> & _). rewrite E.
    exists []. rewrite app_nil_r. split; [done|]. split; [done|]. constructor.
Qed.

Lemma pass_anatomy (q : Queue) (w : World) :
  let m := await (_getStorableRequestsInQueue h q) in
  let w0 := entered q w in
  read_shape q (now w) (rows (store w)) (events m w0) (m w0).1 /\
  match (m w0).1 with
  | Throw err =>
      events (replayRequests h q) w = EvReplay (_name q) :: events m w0 /\
      (replayRequests h q w).1 = Throw err /\
      (replayRequests h q w).2 = (m w0).2
  | Ok [] =>
      events (replayRequests h q) w = EvReplay (_name q) :: events m w0 /\
      (replayRequests h q w).1 = Ok tt /\
      (replayRequests h q w).2 = (m w0).2
  | Ok items =>
      events (replayRequests h q) w =
        EvReplay (_name q) :: events m w0 ++
          events (replay_all h q items) (m w0).2 /\
      (replayRequests h q w).1 = (replay_all h q items (m w0).2).1 /\
      (replayRequests h q w).2 = (replay_all h q items (m w0).2).2
  end.
Proof.
  intros m w0. split.
  { destruct (await_run (_getStorableRequestsInQueue h q) w0) as (E & R & _).
    unfold m. rewrite E, R. apply (getStorable_run h q w0). }
  set (k := fun items : list (Key * loc) =>
              match items with [] => ret tt | _ => replay_all h q items end).
  assert (tracing (enter q)) as T0.
  { intros w'. unfold enter. simpl. moves_here. }
  assert (tracing m) as T1 by (unfold m; tracing_auto).
  assert (forall items, tracing (k items)) as T2.
  { intros [|item rest]; unfold k; tracing_auto. }
  assert (forall a : unit, tracing (replay_pass h q)) as T3
    by (intros; tracing_auto).
  assert ((enter q w).1 = Ok tt) as Henter by done.
  destruct (bind_ok (enter q) (fun _ => replay_pass h q) w tt T0 T3 Henter)
    as (E & R & W).
  change (bind (enter q) (fun _ => replay_pass h q)) with (replayRequests h q) in *.
  change ((enter q w).2) with w0 in *.
  assert (events (enter q) w = [EvReplay (_name q)]) as Ee by by apply events_ext.
  rewrite E, R, W, Ee.
  change (replay_pass h q) with (bind m k).
  destruct (m w0).1 as [items|err] eqn:Rm.
  - destruct (bind_ok m k w0 items T1 T2 Rm) as (-> & -> & ->).
    destruct items; simpl; [rewrite events_ret, app_nil_r|]; done.
  - destruct (bind_throw m k w0 err Rm) as (-> & -> & ->). done.
Qed.

End Anatomy.

(** ** Facts about attempts *)

Ltac inv_runs :=
  repeat match goal with
    | H : attempt _ _ _ _ _ |- _ => inversion H; clear H; subst
    | H : attempt_try _ _ _ _ _ |- _ => inversion H; clear H; subst
    | H : hook_run _ _ _ _ _ |- _ => inversion H; clear H; subst
    | H : remove_shape _ _ _ |- _ =>
        destruct H as [[-> ->]|[[-> ->]|[-> ->]]]
    end.

Ltac each_event :=
  simpl; repeat first [apply Forall_nil_2 | apply Forall_cons_2 | apply Forall_app_2].

Ltac in_list :=
  repeat (rewrite ?elem_of_app, ?elem_of_cons, ?elem_of_nil in * );
  simpl in *; try naive_solver.

Lemma attempt_events q key l e r :
  attempt q key l e r -> Forall (replay_event key l) e.
Proof.
  intros H. inv_runs; each_event; eauto with queue.
Qed.

Lemma attempt_deleted q key l e r :
  attempt q key l e r ->
  deleted_keys e = match r with Ok true => [key] | _ => [] end.
Proof.
  intros H. unfold deleted_keys. inv_runs; simpl; rewrite ?omap_app; done.
Qed.

Lemma attempt_snapshots q key l e r ev l' :
  attempt q key l e r -> ev ∈ e -> l' ∈ snapshots_of ev -> l' = l.
Proof.
  intros H Hev Hl. apply attempt_events in H.
  rewrite Forall_forall in H. specialize (H ev Hev).
  destruct H as [| | |ev []|]; simpl in Hl;
    rewrite ?list_elem_of_singleton, ?elem_of_nil in Hl; done.
Qed.

Lemma attempt_begins q key l e r :
  attempt q key l e r ->
  (exists req ok, EvFetch l req ok ∈ e) \/
  EvCallback "requestWillReplay" (ArgRequest l) true ∈ e.
Proof.
  intros H. inv_runs;
    first [ right; in_list; fail
          | left; eexists _, _; in_list; fail ].
Qed.

Lemma attempt_same_snapshot q key l key' l' e r r' :
  attempt q key l e r -> attempt q key' l' e r' -> l = l'.
Proof.
  intros H H'. destruct (attempt_begins _ _ _ _ _ H) as [(req & ok & Hin)|Hin];
    apply (attempt_snapshots _ _ _ _ _ _ l H' Hin); simpl;
    by apply list_elem_of_singleton.
Qed.

Lemma attempt_replayed_clean q key l e :
  attempt q key l e (Ok true) -> Forall (fun ev => failure_event ev = false) e.
Proof.
  intros H. inv_runs; each_event; done.
Qed.

Lemma attempt_not_replayed q key l e r :
  attempt q key l e r -> r <> Ok true ->
  (is_function q "replayDidFail" = true ->
   exists threw, EvCallback "replayDidFail" (ArgRequest l) threw ∈ e) /\
  Forall (fun ev => deleted_key ev = None) e.
Proof.
  intros H Hr. split.
  - intros Hf. inv_runs; try done; try congruence;
      eexists; in_list.
  - inv_runs; try done; each_event; done.
Qed.

Lemma attempt_did_threw q key l e r :
  attempt q key l e r ->
  EvCallback "requestDidReplay" (ArgRequest l) true ∈ e ->
  r <> Ok true /\
  Forall (fun ev => is_store_event ev = false) e /\
  exists req, EvFetch l req true ∈ e.
Proof.
  intros H Hin. inv_runs; try (exfalso; in_list; fail).
  all: split; [done|]; split; [each_event; done|]; eexists; in_list.
Qed.

Lemma attempt_thrown q key l e err :
  attempt q key l e (Throw err) ->
  err = CallbackError /\
  EvCallback "replayDidFail" (ArgRequest l) true ∈ e.
Proof. intros H. inv_runs; split; try done; in_list. Qed.

Lemma NoDup_fst_agree {A B} (l : list (A * B)) (a : A) (b b' : B) :
  NoDup l.*1 -> (a, b) ∈ l -> (a, b') ∈ l -> b = b'.
Proof.
  induction l as [|[a0 b0] l IH]; intros Hnd H1 H2.
  - by apply elem_of_nil in H1.
  - apply NoDup_cons in Hnd as [Hnot Hnd].
    apply elem_of_cons in H1 as [[= -> ->]|H1];
      apply elem_of_cons in H2 as [[= ->]|H2]; try done.
    + destruct Hnot. apply list_elem_of_fmap. by exists (a0, b').
    + subst. destruct Hnot. apply list_elem_of_fmap. by exists (a0, b).
    + by apply IH.
Qed.

Lemma NoDup_snd_agree {A B} (l : list (A * B)) (a a' : A) (b : B) :
  NoDup l.*2 -> (a, b) ∈ l -> (a', b) ∈ l -> a = a'.
Proof.
  induction l as [|[a0 b0] l IH]; intros Hnd H1 H2.
  - by apply elem_of_nil in H1.
  - apply NoDup_cons in Hnd as [Hnot Hnd].
    apply elem_of_cons in H1 as [[= -> ->]|H1];
      apply elem_of_cons in H2 as [[= ->]|H2]; try done.
    + destruct Hnot. apply list_elem_of_fmap. by exists (a', b0).
    + subst. destruct Hnot. apply list_elem_of_fmap. by exists (a, b0).
    + by apply IH.
Qed.

Lemma deleted_keys_app (e1 e2 : list Event) :
  deleted_keys (e1 ++ e2) = deleted_keys e1 ++ deleted_keys e2.
Proof. apply omap_app. Qed.

(** ** Facts about the loop *)

Lemma loop_owner q items succ all es res e :
  loop_run q items succ all es res -> e ∈ es ->
  exists key l r, (key, l) ∈ items /\ attempt q key l e r.
Proof.
  induction 1 as [| key l rest succ all e0 es res Ha Hl IH
                  | key l rest succ all e0 es res Ha Hl IH
                  | key l rest succ all e0 err Ha]; intros Hin.
  - by apply elem_of_nil in Hin.
  - apply elem_of_cons in Hin as [->|Hin].
    + exists key, l, (Ok true). split; [left|done].
    + destruct (IH Hin) as (k & l' & r & ? & ?). exists k, l', r.
      split; [by right|done].
  - apply elem_of_cons in Hin as [->|Hin].
    + exists key, l, (Ok false). split; [left|done].
    + destruct (IH Hin) as (k & l' & r & ? & ?). exists k, l', r.
      split; [by right|done].
  - apply list_elem_of_singleton in Hin as ->.
    exists key, l, (Throw err). split; [left|done].
Qed.

Lemma loop_unique q items succ all es res e e' key l r r' :
  loop_run q items succ all es res -> NoDup items.*2 ->
  e ∈ es -> e' ∈ es ->
  attempt q key l e r -> attempt q key l e' r' -> e = e'.
Proof.
  intros Hloop. revert e e' r r'.
  assert (forall key0 l0 rest succ0 all0 es0 res0 e0 r0 e1 r1 x,
            loop_run q rest succ0 all0 es0 res0 ->
            NoDup (l0 :: rest.*2) ->
            attempt q key0 l0 e0 x -> attempt q key l e0 r0 ->
            e1 ∈ es0 -> attempt q key l e1 r1 -> False) as Hcross.
  { intros key0 l0 rest succ0 all0 es0 res0 e0 r0 e1 r1 x Hl Hnd Hown H0 Hin H1.
    apply NoDup_cons in Hnd as [Hnot _].
    destruct (loop_owner _ _ _ _ _ _ _ Hl Hin) as (k1 & l1 & r2 & Hin1 & Hown1).
    pose proof (attempt_same_snapshot _ _ _ _ _ _ _ _ H0 Hown). subst l0.
    pose proof (attempt_same_snapshot _ _ _ _ _ _ _ _ H1 Hown1). subst l1.
    apply Hnot. apply list_elem_of_fmap. by exists (k1, l). }
  induction Hloop as [| key0 l0 rest succ all e0 es res Ha Hl IH
                      | key0 l0 rest succ all e0 es res Ha Hl IH
                      | key0 l0 rest succ all e0 err Ha];
    intros e e' r r' Hnd Hin Hin' He He'.
  - by apply elem_of_nil in Hin.
  - apply elem_of_cons in Hin as [->|Hin];
      apply elem_of_cons in Hin' as [->|Hin']; try done.
    + exfalso. eauto.
    + exfalso. eauto.
    + simpl in Hnd. apply NoDup_cons in Hnd as [_ Hnd]. eauto.
  - apply elem_of_cons in Hin as [->|Hin];
      apply elem_of_cons in Hin' as [->|Hin']; try done.
    + exfalso. eauto.
    + exfalso. eauto.
    + simpl in Hnd. apply NoDup_cons in Hnd as [_ Hnd]. eauto.
  - apply list_elem_of_singleton in Hin as ->.
    by apply list_elem_of_singleton in Hin' as ->.
Qed.

Lemma loop_deleted q items succ all es res k :
  loop_run q items succ all es res -> k ∈ deleted_keys (concat es) ->
  exists l e, (k, l) ∈ items /\ e ∈ es /\ attempt q k l e (Ok true).
Proof.
  induction 1 as [| key l rest succ all e0 es res Ha Hl IH
                  | key l rest succ all e0 es res Ha Hl IH
                  | key l rest succ all e0 err Ha]; simpl;
    rewrite ?deleted_keys_app; intros Hin.
  - by apply elem_of_nil in Hin.
  - rewrite (attempt_deleted _ _ _ _ _ Ha) in Hin.
    apply elem_of_app in Hin as [Hin|Hin].
    + apply list_elem_of_singleton in Hin as ->.
      exists l, e0. repeat split; [left|left|done].
    + destruct (IH Hin) as (l' & e & ? & ? & ?). exists l', e.
      repeat split; [by right|by right|done].
  - rewrite (attempt_deleted _ _ _ _ _ Ha) in Hin. simpl in Hin.
    destruct (IH Hin) as (l' & e & ? & ? & ?). exists l', e.
    repeat split; [by right|by right|done].
  - rewrite (attempt_deleted _ _ _ _ _ Ha) in Hin. simpl in Hin.
    by apply elem_of_nil in Hin.
Qed.

Lemma loop_false q items succ es succ' all' :
  loop_run q items succ false es (Ok (succ', all')) -> all' = false.
Proof.
  intros H. remember false as all eqn:Ha. remember (Ok (succ', all')) as res eqn:Hr.
  revert Ha Hr. induction H; intros; subst; try done; eauto. congruence.
Qed.

Lemma loop_all_replayed q items succ all es succ' :
  loop_run q items succ all es (Ok (succ', true)) ->
  all = true /\ succ' = succ ++ items.*2 /\
  Forall2 (fun item e => attempt q item.1 item.2 e (Ok true)) items es.
Proof.
  intros H. remember (Ok (succ', true)) as res eqn:Hr. revert Hr.
  induction H as [| key l rest succ all e0 es res Ha Hl IH
                  | key l rest succ all e0 es res Ha Hl IH
                  | key l rest succ all e0 err Ha]; intros Hr; subst.
  - injection Hr as -> ->. rewrite app_nil_r. by repeat split.
  - destruct (IH eq_refl) as (-> & -> & HF). rewrite <- app_assoc.
    split; [done|]. split; [done|]. by constructor.
  - by apply loop_false in Hl.
  - done.
Qed.

Lemma loop_completed q items succ all es outcome :
  loop_run q items succ all es (Ok outcome) ->
  Forall2 (fun item e => exists b, attempt q item.1 item.2 e (Ok b)) items es /\
  outcome.1 ⊆ succ ++ items.*2.
Proof.
  intros H. remember (Ok outcome) as res eqn:Hr. revert Hr.
  induction H as [| key l rest succ all e0 es res Ha Hl IH
                  | key l rest succ all e0 es res Ha Hl IH
                  | key l rest succ all e0 err Ha]; intros Hr; subst.
  - injection Hr as <-. simpl. split; [constructor|]. set_solver.
  - destruct (IH eq_refl) as [HF Hs]. split; [constructor; eauto|].
    rewrite <- app_assoc in Hs. done.
  - destruct (IH eq_refl) as [HF Hs]. split; [constructor; eauto|].
    simpl. set_solver.
  - done.
Qed.

Lemma loop_thrown_error q items succ all es err :
  loop_run q items succ all es (Throw err) ->
  err = CallbackError /\
  exists key l e, (key, l) ∈ items /\ e ∈ es /\
                  EvCallback "replayDidFail" (ArgRequest l) true ∈ e.
Proof.
  intros H. remember (Throw err) as res eqn:Hr. revert Hr.
  induction H as [| key l rest succ all e0 es res Ha Hl IH
                  | key l rest succ all e0 es res Ha Hl IH
                  | key l rest succ all e0 err0 Ha]; intros Hr; subst.
  - done.
  - destruct (IH eq_refl) as (-> & k & l' & e & ? & ? & ?). split; [done|].
    exists k, l', e. repeat split; [by right|by right|done].
  - destruct (IH eq_refl) as (-> & k & l' & e & ? & ? & ?). split; [done|].
    exists k, l', e. repeat split; [by right|by right|done].
  - injection Hr as ->. destruct (attempt_thrown _ _ _ _ _ Ha) as [-> Hin].
    split; [done|]. exists key, l, e0. repeat split; [left|left|done].
Qed.


Lemma attempt_try_quiet q key l e b :
  attempt_try q key l e b ->
  Forall (fun ev => is_callback "replayDidFail" ev = false) e.
Proof. intros Ht. inv_runs; each_event; done. Qed.

Lemma attempt_fail_thrown q key l e r l0 :
  attempt q key l e r ->
  EvCallback "replayDidFail" (ArgRequest l0) true ∈ e ->
  l0 = l /\ r = Throw CallbackError /\
  exists before, e = before ++ [EvCallback "replayDidFail" (ArgRequest l) true].
Proof.
  intros Ha Hin.
  assert (l0 = l) as -> by (eapply attempt_snapshots; eauto; by left).
  split; [done|].
  inversion Ha as [e0 Ht|e0 e' Ht Hh|e0 e' Ht Hh]; subst.
  - apply attempt_replayed_clean in Ha. rewrite Forall_forall in Ha.
    by specialize (Ha _ Hin).
  - exfalso. apply elem_of_app in Hin as [Hin|Hin].
    + apply attempt_try_quiet in Ht. rewrite Forall_forall in Ht.
      by specialize (Ht _ Hin).
    + inversion Hh; subst; in_list.
  - inversion Hh; subst. eauto.
Qed.

Lemma loop_fail_thrown q items succ all es res l :
  loop_run q items succ all es res ->
  EvCallback "replayDidFail" (ArgRequest l) true ∈ concat es ->
  res = Throw CallbackError /\
  exists before,
    concat es = before ++ [EvCallback "replayDidFail" (ArgRequest l) true].
Proof.
  induction 1 as [|key l' rest succ all e es res Ha Hl IH
                  |key l' rest succ all e es res Ha Hl IH
                  |key l' rest succ all e err Ha]; simpl; intros Hin.
  - by apply elem_of_nil in Hin.
  - apply elem_of_app in Hin as [Hin|Hin].
    + by destruct (attempt_fail_thrown _ _ _ _ _ _ Ha Hin) as (_ & ? & _).
    + destruct (IH Hin) as (-> & before & ->). split; [done|].
      exists (e ++ before). by rewrite app_assoc.
  - apply elem_of_app in Hin as [Hin|Hin].
    + by destruct (attempt_fail_thrown _ _ _ _ _ _ Ha Hin) as (_ & ? & _).
    + destruct (IH Hin) as (-> & before & ->). split; [done|].
      exists (e ++ before). by rewrite app_assoc.
  - rewrite app_nil_r in *.
    destruct (attempt_fail_thrown _ _ _ _ _ _ Ha Hin) as (-> & [= ->] & before & ->).
    eauto.
Qed.

(** A loop in which every entry's row was deleted ran to its end, and
    replayed every entry. *)
Lemma loop_all_deleted q items succ all es res :
  loop_run q items succ all es res -> NoDup items.*1 ->
  (forall key, key ∈ items.*1 -> key ∈ deleted_keys (concat es)) ->
  res = Ok (succ ++ items.*2, all).
Proof.
  induction 1 as [|key l rest succ all e es res Ha Hl IH
                  |key l rest succ all e es res Ha Hl IH
                  |key l rest succ all e err Ha]; simpl; intros Hnd Hdel.
  - by rewrite app_nil_r.
  - apply NoDup_cons in Hnd as [Hnot Hnd].
    rewrite IH; [by rewrite <- app_assoc|done|].
    intros k Hk. specialize (Hdel k ltac:(by right)).
    rewrite deleted_keys_app, (attempt_deleted _ _ _ _ _ Ha) in Hdel.
    apply elem_of_app in Hdel as [Hdel|Hdel]; [|done].
    apply list_elem_of_singleton in Hdel as ->. done.
  - exfalso. apply NoDup_cons in Hnd as [Hnot _].
    specialize (Hdel key ltac:(by left)).
    rewrite deleted_keys_app, (attempt_deleted _ _ _ _ _ Ha) in Hdel.
    simpl in Hdel.
    destruct (loop_deleted _ _ _ _ _ _ _ Hl Hdel) as (l' & e' & Hitem & _).
    apply Hnot. apply list_elem_of_fmap. by exists (key, l').
  - exfalso. specialize (Hdel key ltac:(by left)).
    rewrite app_nil_r, (attempt_deleted _ _ _ _ _ Ha) in Hdel.
    by apply elem_of_nil in Hdel.
Qed.

Lemma attempt_replayed_fetch q key l e :
  attempt q key l e (Ok true) ->
  (exists req, EvFetch l req true ∈ e) /\ EvStore (OpDelete key) true ∈ e.
Proof.
  intros Ha. inversion Ha as [e0 Ht| |]; subst.
  inversion Ht as [| | | | |e1 r e2 H1 H2]; subst. split.
  - exists r. set_solver.
  - set_solver.
Qed.

(** ** Facts about reading the queue *)

Lemma collect_items q t stored items ext k l :
  collect_run q t stored items ext -> (k, l) ∈ items ->
  exists e, (k, e) ∈ stored /\ queueName e = _name q /\ expired q t e = false.
Proof.
  induction 1 as [| key e rest items ext Hq Hc IH
                  | key e rest items purge r ext Hq He Hp Hc IH
                  | key e rest items ext Hq He Hc IH
                  | key e l0 rest items ext Hq He Hl Hc IH]; intros Hin.
  - by apply elem_of_nil in Hin.
  - destruct (IH Hin) as (e' & ? & ?). exists e'. split; [by right|done].
  - destruct (IH Hin) as (e' & ? & ?). exists e'. split; [by right|done].
  - destruct (IH Hin) as (e' & ? & ?). exists e'. split; [by right|done].
  - apply elem_of_cons in Hin as [[= -> ->]|Hin].
    + exists e. split; [left|done].
    + destruct (IH Hin) as (e' & ? & ?). exists e'. split; [by right|done].
Qed.

Lemma collect_keys q t stored items ext :
  collect_run q t stored items ext -> items.*1 `sublist_of` stored.*1.
Proof.
  induction 1; simpl; try done.
  - by apply sublist_cons.
  - by apply sublist_cons.
  - by apply sublist_cons.
  - by apply sublist_skip.
Qed.

Lemma collect_snapshots q t stored items ext :
  collect_run q t stored items ext -> NoDup items.*2.
Proof.
  induction 1 as [| | | |key e l rest items ext Hq He Hl Hc IH]; simpl;
    [constructor|done|done|done|].
  apply NoDup_cons. split; [|done]. intros Hin.
  rewrite Forall_forall in Hl. specialize (Hl l Hin). lia.
Qed.

Lemma collect_events q t stored items ext :
  collect_run q t stored items ext ->
  Forall (fun ev => is_store_event ev = true) ext.
Proof.
  induction 1 as [| |key e rest items purge r ext Hq He Hp Hc IH| |];
    [constructor|done| |done|done].
  apply Forall_app_2; [|done]. inv_runs; each_event; done.
Qed.

Lemma collect_deleted q t stored items ext k :
  collect_run q t stored items ext -> k ∈ deleted_keys ext ->
  exists e, (k, e) ∈ stored /\ queueName e = _name q /\ expired q t e = true.
Proof.
  induction 1 as [| key e rest items ext Hq Hc IH
                  | key e rest items purge r ext Hq He Hp Hc IH
                  | key e rest items ext Hq He Hc IH
                  | key e l0 rest items ext Hq He Hl Hc IH]; intros Hin.
  - by apply elem_of_nil in Hin.
  - destruct (IH Hin) as (e' & ? & ?). exists e'. split; [by right|done].
  - rewrite deleted_keys_app in Hin. apply elem_of_app in Hin as [Hin|Hin].
    + exists e. split; [|done].
      inv_runs; simpl in Hin;
        rewrite ?list_elem_of_singleton, ?elem_of_nil in Hin; try done.
      subst. left.
    + destruct (IH Hin) as (e' & ? & ?). exists e'. split; [by right|done].
  - destruct (IH Hin) as (e' & ? & ?). exists e'. split; [by right|done].
  - destruct (IH Hin) as (e' & ? & ?). exists e'. split; [by right|done].
Qed.

Lemma collect_purged q t stored items ext k ok :
  collect_run q t stored items ext -> EvStore (OpDelete k) ok ∈ ext ->
  exists e, (k, e) ∈ stored /\ queueName e = _name q /\ expired q t e = true.
Proof.
  induction 1 as [| key e rest items ext Hq Hc IH
                  | key e rest items purge r ext Hq He Hp Hc IH
                  | key e rest items ext Hq He Hc IH
                  | key e l0 rest items ext Hq He Hl Hc IH]; intros Hin.
  - by apply elem_of_nil in Hin.
  - destruct (IH Hin) as (e' & ? & ?). exists e'. split; [by right|done].
  - apply elem_of_app in Hin as [Hin|Hin].
    + exists e. split; [|done]. inv_runs; in_list.
    + destruct (IH Hin) as (e' & ? & ?). exists e'. split; [by right|done].
  - destruct (IH Hin) as (e' & ? & ?). exists e'. split; [by right|done].
  - destruct (IH Hin) as (e' & ? & ?). exists e'. split; [by right|done].
Qed.

Lemma collect_stored q t stored items ext k e :
  collect_run q t stored items ext ->
  (k, e) ∈ stored -> queueName e = _name q ->
  (expired q t e = false /\ k ∈ items.*1) \/ expired q t e = true.
Proof.
  induction 1 as [| key e0 rest items ext Hq Hc IH
                  | key e0 rest items purge r ext Hq He Hp Hc IH
                  | key e0 rest items ext Hq He Hc IH
                  | key e0 l0 rest items ext Hq He Hl Hc IH]; intros Hin Hmine.
  - by apply elem_of_nil in Hin.
  - apply elem_of_cons in Hin as [[= -> ->]|Hin]; [done|]. by apply IH.
  - apply elem_of_cons in Hin as [[= -> ->]|Hin]; [by right|]. by apply IH.
  - apply elem_of_cons in Hin as [[= -> ->]|Hin]; [by right|]. by apply IH.
  - apply elem_of_cons in Hin as [[= -> ->]|Hin].
    + left. split; [done|]. left.
    + destruct (IH Hin Hmine) as [[? ?]|?]; [left|by right].
      split; [done|]. by right.
Qed.

(** ** A pass, from its first event to its last *)

Section Passes.

Variable h : Host.

Lemma pass_summary (q : Queue) (w : World) (items : list (Key * loc)) :
  (read_queue h q w).1 = Ok items ->
  exists read blocks tail,
    events (replayRequests h q) w =
      EvReplay (_name q) :: EvStore OpOpen true :: EvStore OpGetAll true ::
        read ++ concat blocks ++ tail /\
    collect_run q (now w) (rows (store w)) items read /\
    match items with
    | [] => blocks = [] /\ tail = [] /\ (replayRequests h q w).1 = Ok tt
    | _ =>
        loop_run q items [] true blocks
          (replay_loop h q items [] true (read_queue h q w).2).1 /\
        finish q (replay_loop h q items [] true (read_queue h q w).2).1 tail
          (replayRequests h q w).1
    end /\
    rows (store (replayRequests h q w).2) =
      filter (fun row => row.1 ∉ deleted_keys (read ++ concat blocks ++ tail))
        (rows (store w)).
Proof.
  intros Hread. unfold read_queue in *.
  destruct (pass_anatomy h q w) as [Hshape Hrest]. cbv zeta in Hshape, Hrest.
  rewrite Hread in Hshape, Hrest.
  destruct Hshape as [[_ [=]]|[[_ [=]]|(items' & read & Er & [= <-] & Hc)]].
  assert (forall ext,
            events (replayRequests h q) w =
              EvReplay (_name q) :: EvStore OpOpen true :: EvStore OpGetAll true :: ext ->
            rows (store (replayRequests h q w).2) =
              filter (fun row => row.1 ∉ deleted_keys ext) (rows (store w))) as Hrows.
  { intros ext Hext.
    destruct (purges_rows _ _ (purges_replayRequests h q w)) as (ext' & T & R).
    apply events_ext in T. rewrite Hext in T. subst ext'. exact R. }
  exists read. destruct items as [|item rest].
  - destruct Hrest as (E & R & _). exists [], []. simpl. rewrite app_nil_r.
    rewrite E, Er. repeat split; try done. apply Hrows. by rewrite E, Er.
  - destruct Hrest as (E & R & _).
    set (w1 := (await (_getStorableRequestsInQueue h q) (entered q w)).2) in *.
    destruct (replay_all_run h q (item :: rest) w1) as (blocks & tail & Ea & L & F).
    exists blocks, tail. rewrite E, Er, Ea, R. repeat split; try done.
    apply Hrows. by rewrite E, Er, Ea.
Qed.

End Passes.

Lemma Forall_concat_blocks {A} (P : A -> Prop) (ls : list (list A)) :
  (forall l, l ∈ ls -> Forall P l) -> Forall P (concat ls).
Proof.
  induction ls as [|l ls IH]; intros H; simpl; [constructor|].
  apply Forall_app_2; [apply H; left|]. apply IH. intros l' ?. apply H. by right.
Qed.

Lemma elem_of_concat {A} (x : A) (ls : list (list A)) :
  x ∈ concat ls <-> exists l, x ∈ l /\ l ∈ ls.
Proof.
  induction ls as [|l0 ls IH]; simpl.
  - split; [intros H; by apply elem_of_nil in H|].
    intros (l & _ & H). by apply elem_of_nil in H.
  - rewrite elem_of_app, IH. split.
    + intros [H|(l & H1 & H2)]; [exists l0; split; [done|left]|].
      exists l. split; [done|by right].
    + intros (l & H1 & H2). apply elem_of_cons in H2 as [->|H2]; [by left|].
      right. eauto.
Qed.

Lemma deleted_keys_concat (es : list (list Event)) (e : list Event) (k : Key) :
  e ∈ es -> k ∈ deleted_keys e -> k ∈ deleted_keys (concat es).
Proof.
  induction es as [|e0 es IH]; intros Hin Hk; [by apply elem_of_nil in Hin|].
  simpl. rewrite deleted_keys_app. apply elem_of_app.
  apply elem_of_cons in Hin as [->|Hin]; [by left|right; by apply IH].
Qed.

Lemma deleted_keys_event (e : list Event) (k : Key) :
  k ∈ deleted_keys e <-> EvStore (OpDelete k) true ∈ e.
Proof.
  unfold deleted_keys. rewrite list_elem_of_omap. split.
  - intros (ev & Hin & Hd). destruct ev as [| |[] []| |]; simpl in Hd; try done.
    by injection Hd as ->.
  - intros Hin. by exists (EvStore (OpDelete k) true).
Qed.

Lemma replay_event_in_loop key l ev :
  replay_event key l ev ->
  is_callback "allRequestsDidReplay" ev = false /\ after_loop ev = false.
Proof. intros [| | |ev' []|]; done. Qed.

Lemma loop_events q items succ all es res (P : Event -> Prop) :
  loop_run q items succ all es res ->
  (forall key l ev, (key, l) ∈ items -> replay_event key l ev -> P ev) ->
  Forall P (concat es).
Proof.
  intros Hl HP. apply Forall_concat_blocks. intros e Hin.
  destruct (loop_owner _ _ _ _ _ _ _ Hl Hin) as (key & l & r & Hitem & Ha).
  apply attempt_events in Ha. eapply Forall_impl; [exact Ha|]. eauto.
Qed.

Lemma store_event_in_read ev :
  is_store_event ev = true ->
  is_callback "allRequestsDidReplay" ev = false /\ after_loop ev = false /\
  snapshots_of ev = [].
Proof. by destruct ev. Qed.

Lemma finish_tail q res tail r :
  finish q res tail r ->
  Forall (fun ev => after_loop ev = true) tail /\ deleted_keys tail = [].
Proof.
  intros [err|succ e threw Hh|succ ok|succ];
    [by split| |by split; each_event|by split].
  inversion Hh; subst; split; try done; by each_event.
Qed.

Lemma finish_error q res tail err :
  finish q res tail (Throw err) ->
  (forall err', res = Throw err' -> err' = CallbackError) ->
  err = CallbackError.
Proof.
  intros Hf Hres. inversion Hf as [err0|succ e threw Hh|succ ok|succ]; subst.
  - by apply Hres.
  - destruct threw; congruence.
Qed.

(** ** Calls nobody waits for *)

#[export] Instance calm_preorder : PreOrder calm.
Proof.
  split; [by intros w|]. intros w1 w2 w3 H1 H2. unfold calm in *. congruence.
Qed.

Section Calls.

Variable h : Host.

Lemma calm_store_request {A} (op : StoreOp) (run : Store -> A * Store) :
  keeps calm (store_request h op run).
Proof.
  intros w. unfold calm, store_request.
  destruct (store_ok _ _ _); simpl; [|done]. by destruct (run (store w)).
Qed.

Lemma calm_fetch (l : loc) : keeps calm (fetch h l).
Proof. intros w. unfold calm, fetch. by destruct (fetch_ok _ _ _). Qed.

Lemma calm_runCallback (q : Queue) (name : string) (arg : Arg) :
  keeps calm (_runCallback q name arg).
Proof.
  intros w. unfold calm, _runCallback.
  destruct (_callbacks q !! name) as [[f|]|]; try done.
  by destruct (run_threw (f arg (heap w))).
Qed.

Ltac calm_step :=
  lazymatch goal with
  | |- keeps _ (ret _) => apply keeps_ret; tc_solve
  | |- keeps _ (await _) => apply keeps_await; [tc_solve | by intros ? |]
  | |- keeps _ (bind _ _) => apply keeps_bind; [tc_solve | | intros ?]
  | |- keeps _ (try_catch _ _) =>
      apply keeps_try_catch; [tc_solve | | intros ?]
  | |- keeps _ (store_request _ _ _) => apply calm_store_request
  | |- keeps _ (fetch _ _) => apply calm_fetch
  | |- keeps _ (_runCallback _ _ _) => apply calm_runCallback
  end.

Lemma calm_removeRequest (q : Queue) (key : Key) :
  keeps calm (_removeRequest h q key).
Proof. unfold _removeRequest, _getDb, getDB, db_delete. repeat calm_step. Qed.

Lemma calm_replayRequest (q : Queue) (key : Key) (l : loc) :
  keeps calm (_replayRequest h q key l).
Proof.
  unfold _replayRequest. repeat calm_step. apply calm_removeRequest.
Qed.

Lemma calm_replay_loop (q : Queue) (items : list (Key * loc))
    (succ : list loc) (all : bool) :
  keeps calm (replay_loop h q items succ all).
Proof.
  revert succ all. induction items as [|[key l] rest IH]; intros succ all.
  - simpl. repeat calm_step.
  - simpl. repeat calm_step; [apply calm_replayRequest|].
    destruct a; apply IH.
Qed.

(** The expired rows the loop of [_getStorableRequestsInQueue] meets: the
    removal of each is parked, or its requests are among the events. *)
Lemma collect_tasks (q : Queue) (entries : list (Key * Entry))
    (acc : list (Key * loc)) (w : World) :
  let w' := (collect h q entries acc w).2 in
  let ext := events (collect h q entries acc) w in
  exists ks,
    parked w' = parked w ++ (TRemove q <$> ks) /\
    forall k e, (k, e) ∈ entries -> queueName e = _name q ->
      expired q (now w) e = true ->
      k ∈ ks \/ (exists ok, EvStore (OpDelete k) ok ∈ ext) \/
      EvStore OpOpen false ∈ ext.
Proof.
  revert acc w. induction entries as [|[key e] rest IH]; intros acc w; cbv zeta.
  - exists []. simpl. split; [by rewrite app_nil_r|].
    intros k e Hin. by apply elem_of_nil in Hin.
  - assert (forall acc', tracing (collect h q rest acc')) as T2.
    { intros acc'. eapply tracing_of, (moves_collect h q rest rest). done. }
    destruct (decide (queueName e = _name q)) as [Hq|Hq].
    + unfold events. rewrite (collect_cons_mine h q key e rest acc w Hq).
      cbv zeta. set (w1 := set_fresh _ _).
      destruct (expired q (now w) e) eqn:Hexp.
      * unfold detach. destruct (lands_now h (step w1) (TRemove q key));
          cbn [snd].
        -- set (w2 := (_removeRequest h q key w1).2).
           destruct (IH acc w2) as (ks & P & Hks).
           pose proof (moves_removeRequest h q key w1) as Hm. fold w2 in Hm.
           pose proof (removeRequest_run h q key w1) as Hs.
           assert (tracing (_removeRequest h q key)) as T by tracing_auto.
           pose proof (trace_events _ w1 T) as E1. fold w2 in E1.
           pose proof (trace_events _ w2 (T2 acc)) as E2.
           assert (now w2 = now w) as Hn by by rewrite (moves_now _ _ _ Hm).
           exists ks. split.
           ++ rewrite P. unfold w2. by rewrite (calm_removeRequest q key w1).
           ++ rewrite E2, E1. change (trace w1) with (trace w).
              rewrite <- app_assoc, drop_app_length.
              intros k e' Hin Hmine Hexp'.
              apply elem_of_cons in Hin as [[= -> ->]|Hin].
              ** right. destruct Hs as [[-> _]|[[-> _]|[-> _]]].
                 --- right. set_solver.
                 --- left. exists false. set_solver.
                 --- left. exists true. set_solver.
              ** rewrite <- Hn in Hexp'.
                 destruct (Hks k e' Hin Hmine Hexp') as [?|[[ok ?]|?]];
                   [by left|right; left|right; right].
                 --- exists ok. apply elem_of_app. by right.
                 --- apply elem_of_app. by right.
        -- set (w2 := park (TRemove q key) w1).
           destruct (IH acc w2) as (ks & P & Hks).
           pose proof (trace_events _ w2 (T2 acc)) as E2.
           exists (key :: ks). split.
           ++ rewrite P. simpl. by rewrite <- app_assoc.
           ++ rewrite E2. change (trace w2) with (trace w).
              rewrite drop_app_length.
              intros k e' Hin Hmine Hexp'.
              apply elem_of_cons in Hin as [[= -> ->]|Hin]; [left; left|].
              destruct (Hks k e' Hin Hmine Hexp') as [?|?];
                [left; by right|by right].
      * destruct (IH (acc ++ [(key, fresh w)]) w1) as (ks & P & Hks).
        exists ks. split; [exact P|].
        intros k e' Hin Hmine Hexp'.
        apply elem_of_cons in Hin as [[= -> ->]|Hin]; [congruence|].
        exact (Hks k e' Hin Hmine Hexp').
    + destruct (IH acc w) as (ks & P & Hks).
      unfold events. simpl. rewrite decide_False by done.
      exists ks. split; [exact P|].
      intros k e' Hin Hmine Hexp'.
      apply elem_of_cons in Hin as [[= -> ->]|Hin]; [done|].
      exact (Hks k e' Hin Hmine Hexp').
Qed.

(** Reading the queue parks nothing but removals of expired rows. *)
Lemma read_queue_tasks (q : Queue) (w : World) (items : list (Key * loc)) :
  (read_queue h q w).1 = Ok items ->
  let w1 := (read_queue h q w).2 in
  let ext := drop (length (trace w)) (trace w1) in
  exists ks,
    parked w1 = parked w ++ (TRemove q <$> ks) /\
    forall k e, (k, e) ∈ rows (store w) -> queueName e = _name q ->
      expired q (now w) e = true ->
      k ∈ ks \/ (exists ok, EvStore (OpDelete k) ok ∈ ext) \/
      EvStore OpOpen false ∈ ext.
Proof.
  unfold read_queue, _getStorableRequestsInQueue, _getDb, getDB,
    db_getAll, store_request, bind, await.
  cbn [step entered emit advance store fst snd].
  destruct (store_ok h (step w) OpOpen); cbn [fst snd]; [|done].
  cbn [step tick set_jobs set_heap advance emit store set_store].
  destruct (store_ok h _ OpGetAll); cbn [fst snd]; [|done].
  set (w3 := tick _).
  destruct (collect_tasks q (rows (store w)) [] w3) as (ks & P & Hks).
  assert (tracing (collect h q (rows (store w)) [])) as T.
  { eapply tracing_of, (moves_collect h q _ _). done. }
  pose proof (trace_events _ w3 T) as E. revert P Hks E.
  generalize (events (collect h q (rows (store w)) []) w3) as ext.
  destruct (collect h q (rows (store w)) [] w3) as [res w4].
  cbn [fst snd]. intros ext P Hks E _. exists ks. split; [exact P|].
  cbn [trace tick set_jobs set_heap]. rewrite E.
  change (trace w3) with (((trace w ++ [EvReplay (_name q)])
                             ++ [EvStore OpOpen true]) ++ [EvStore OpGetAll true]).
  rewrite <- !app_assoc, drop_app_length.
  intros k e Hin Hmine Hexp.
  destruct (Hks k e Hin Hmine Hexp) as [?|[[ok ?]|?]];
    [by left|right; left|right; right].
  - exists ok. set_solver.
  - set_solver.
Qed.

(** What the end of a pass does about a sync: after a loop in which an
    entry failed, the registration is asked for as the last event, or it
    is parked; otherwise nothing is parked. *)
Lemma replay_all_tasks (q : Queue) (items : list (Key * loc)) (w : World) :
  let w' := (replay_all h q items w).2 in
  let evs := events (replay_all h q items) w in
  match (replay_loop h q items [] true w).1 with
  | Ok (succ, false) =>
      (parked w' = parked w /\
       exists before ok, evs = before ++ [EvRegisterSync (sync_tag q) ok]) \/
      (parked w' = parked w ++ [TRegister q] /\
       evs = events (replay_loop h q items [] true) w)
  | _ => parked w' = parked w
  end.
Proof.
  intros w' evs. unfold w', evs. clear w' evs. unfold replay_all.
  set (k := fun outcome : list loc * bool =>
              let '(succ, all) := outcome in
              if (all : bool)
              then _runCallback q "allRequestsDidReplay" (ArgRequests succ)
              else detach h (TRegister q) (_registerSync h q)).
  assert (tracing (replay_loop h q items [] true)) as T1 by tracing_auto.
  assert (forall a, tracing (k a)) as T2.
  { intros [succ []]; simpl; tracing_auto. }
  change (bind (replay_loop h q items [] true) _)
    with (bind (replay_loop h q items [] true) k).
  pose proof (calm_replay_loop q items [] true w) as Hcalm. unfold calm in Hcalm.
  destruct (replay_loop h q items [] true w).1 as [[succ all]|err] eqn:R.
  - destruct (bind_ok _ k w _ T1 T2 R) as (-> & _ & ->).
    set (w2 := (replay_loop h q items [] true w).2) in *. rewrite <- Hcalm.
    destruct all; simpl.
    + apply calm_runCallback.
    + destruct (detach_registerSync h q w2) as [_ [[[ok ->] ->]| [-> ->]]].
      * left. split; [done|]. eauto.
      * right. by rewrite app_nil_r.
  - destruct (bind_throw _ k w _ R) as (_ & _ & ->). exact Hcalm.
Qed.

(** The calls a pass leaves parked: removals of expired rows, and at most
    one registration of a sync. *)
Lemma pass_tasks (q : Queue) (w : World) (items : list (Key * loc)) :
  (read_queue h q w).1 = Ok items ->
  let evs := events (replayRequests h q) w in
  exists ks reg,
    parked_by (replayRequests h q) w = (TRemove q <$> ks) ++ reg /\
    (forall k e, (k, e) ∈ rows (store w) -> queueName e = _name q ->
       expired q (now w) e = true ->
       k ∈ ks \/ (exists ok, EvStore (OpDelete k) ok ∈ evs) \/
       EvStore OpOpen false ∈ evs) /\
    match items with
    | [] => reg = []
    | _ =>
        match (replay_loop h q items [] true (read_queue h q w).2).1 with
        | Ok (succ, false) =>
            (reg = [] /\
             exists before ok,
               evs = before ++ [EvRegisterSync (sync_tag q) ok]) \/
            (reg = [TRegister q] /\
             Forall (fun ev => is_registration ev = false) evs)
        | _ => reg = []
        end
    end.
Proof.
  intros Hread evs.
  destruct (read_queue_tasks q w items Hread) as (ks & P & Hks).
  cbv zeta in Hks.
  destruct (pass_anatomy h q w) as [Hshape Hrest]. cbv zeta in Hshape, Hrest.
  fold (read_queue h q w) in Hshape, Hrest. rewrite Hread in Hshape, Hrest.
  set (m := await (_getStorableRequestsInQueue h q)) in *.
  set (w1 := (read_queue h q w).2) in *.
  assert (tracing m) as Tm by (unfold m; tracing_auto).
  assert (drop (length (trace w)) (trace w1)
          = EvReplay (_name q) :: events m (entered q w)) as Hext.
  { unfold w1, read_queue. fold m. rewrite (trace_events m _ Tm).
    simpl. by rewrite <- app_assoc, drop_app_length. }
  rewrite Hext in Hks.
  destruct Hshape as [[_ [=]]|[[_ [=]]|(items' & read & Er & [= <-] & Hc)]].
  exists ks. destruct items as [|item rest].
  - destruct Hrest as (E & _ & W). exists []. rewrite app_nil_r.
    split; [|split; [|done]].
    + unfold parked_by. rewrite W. fold (read_queue h q w). fold w1.
      by rewrite P, drop_app_length.
    + unfold evs. by rewrite E.
  - destruct Hrest as (E & _ & W). fold (read_queue h q w) in E, W. fold w1 in E, W.
    pose proof (replay_all_tasks q (item :: rest) w1) as Hall. cbv zeta in Hall.
    assert (forall ev, ev ∈ EvReplay (_name q) :: events m (entered q w) ->
                       ev ∈ evs) as Hsub.
    { intros ev Hev. unfold evs. rewrite E.
      apply elem_of_cons in Hev as [->|Hev]; [left|right].
      apply elem_of_app. by left. }
    assert (forall reg, parked (replay_all h q (item :: rest) w1).2
                        = parked w1 ++ reg ->
              parked_by (replayRequests h q) w = (TRemove q <$> ks) ++ reg) as Hp.
    { intros reg Hreg. unfold parked_by. rewrite W, Hreg, P.
      by rewrite <- app_assoc, drop_app_length. }
    assert (forall k e, (k, e) ∈ rows (store w) -> queueName e = _name q ->
              expired q (now w) e = true ->
              k ∈ ks \/ (exists ok, EvStore (OpDelete k) ok ∈ evs) \/
              EvStore OpOpen false ∈ evs) as Hks'.
    { intros k e Hin Hmine Hexp.
      destruct (Hks k e Hin Hmine Hexp) as [?|[[ok ?]|?]];
        [by left|right; left|right; right]; eauto. }
    destruct (replay_loop h q (item :: rest) [] true w1).1
      as [[succ []]|err] eqn:R.
    + exists []. split; [apply Hp; by rewrite app_nil_r|]. by split.
    + destruct Hall as [[Hq (before & ok & Ea)]|[Hq Ea]].
      * exists []. split; [apply Hp; by rewrite app_nil_r|]. split; [done|].
        left. split; [done|].
        exists (EvReplay (_name q) :: events m (entered q w) ++ before), ok.
        unfold evs. rewrite E, Ea. simpl. by rewrite <- !app_assoc.
      * exists [TRegister q]. split; [by apply Hp|]. split; [done|].
        right. split; [done|]. unfold evs. rewrite E, Ea, Er.
        repeat (apply Forall_cons_2; [done|]). apply Forall_app_2.
        -- eapply Forall_impl; [apply (collect_events _ _ _ _ _ Hc)|].
           by intros [].
        -- destruct (moves_trace _ _ _
                       (moves_replay_loop h q (item :: rest) [] true w1))
             as (ext & Ht & Hf).
           rewrite (events_ext _ _ _ Ht).
           eapply Forall_impl; [exact Hf|].
           intros ev [k l ev' _ Hev].
           inversion Hev as [| | |ev'' Hrem|]; subst; try done.
           by inversion Hrem.
    + exists []. split; [apply Hp; by rewrite app_nil_r|]. by split.
Qed.

End Calls.

(** ** One entry in a pass *)

Section OneEntry.

Variables (h : Host) (q : Queue) (w : World).
Variables (items : list (Key * loc)) (read tail : list Event).
Variables (blocks : list (list Event)) (res : Result (list loc * bool)).

Hypothesis Hkeys : NoDup (rows (store w)).*1.
Hypothesis Hevents :
  events (replayRequests h q) w =
    EvReplay (_name q) :: EvStore OpOpen true :: EvStore OpGetAll true ::
      read ++ concat blocks ++ tail.
Hypothesis Hread : collect_run q (now w) (rows (store w)) items read.
Hypothesis Hloop : loop_run q items [] true blocks res.
Hypothesis Hfinish : finish q res tail (replayRequests h q w).1.
Hypothesis Hrows :
  rows (store (replayRequests h q w).2) =
    filter (fun row => row.1 ∉ deleted_keys (read ++ concat blocks ++ tail))
      (rows (store w)).

Lemma items_keys_NoDup : NoDup items.*1.
Proof. exact (sublist_NoDup _ _ Hkeys (collect_keys _ _ _ _ _ Hread)). Qed.

Lemma block_in_events (e : list Event) (ev : Event) :
  e ∈ blocks -> ev ∈ e -> ev ∈ events (replayRequests h q) w.
Proof.
  intros He Hev. rewrite Hevents. do 3 right.
  apply elem_of_app. right. apply elem_of_app. left.
  apply elem_of_concat. eauto.
Qed.

(** An event of the pass that hands the snapshot of an entry to a
    callback or to the network, the loop's own, lies in that entry's block. *)
Lemma entry_block (key : Key) (l : loc) (ev : Event) :
  (key, l) ∈ items ->
  ev ∈ events (replayRequests h q) w ->
  l ∈ snapshots_of ev -> after_loop ev = false ->
  exists e r, e ∈ blocks /\ ev ∈ e /\ attempt q key l e r.
Proof.
  intros Hitem Hev Hl Hafter. rewrite Hevents in Hev.
  apply elem_of_cons in Hev as [->|Hev]; [by apply elem_of_nil in Hl|].
  apply elem_of_cons in Hev as [->|Hev]; [by apply elem_of_nil in Hl|].
  apply elem_of_cons in Hev as [->|Hev]; [by apply elem_of_nil in Hl|].
  apply elem_of_app in Hev as [Hev|Hev].
  { pose proof (collect_events _ _ _ _ _ Hread) as Hs.
    rewrite Forall_forall in Hs. apply Hs, store_event_in_read in Hev as (_ & _ & Hn).
    rewrite Hn in Hl. by apply elem_of_nil in Hl. }
  apply elem_of_app in Hev as [Hev|Hev].
  - apply elem_of_concat in Hev as (e & Hev & He).
    destruct (loop_owner _ _ _ _ _ _ _ Hloop He) as (k' & l' & r & Hitem' & Ha).
    pose proof (attempt_snapshots _ _ _ _ _ _ _ Ha Hev Hl). subst l'.
    pose proof (NoDup_snd_agree _ _ _ _ (collect_snapshots _ _ _ _ _ Hread)
                  Hitem Hitem'). subst k'.
    eauto.
  - destruct (finish_tail _ _ _ _ Hfinish) as [Ht _].
    rewrite Forall_forall in Ht. specialize (Ht ev Hev). congruence.
Qed.

Lemma entry_stored (key : Key) (l : loc) :
  (key, l) ∈ items ->
  exists e0, (key, e0) ∈ rows (store w) /\ expired q (now w) e0 = false.
Proof.
  intros Hitem. destruct (collect_items _ _ _ _ _ _ _ Hread Hitem) as (e0 & ? & ? & ?).
  eauto.
Qed.

(** An entry whose attempt did not end in a replay is still in the store
    after the pass. *)
Lemma failed_entry_stays (key : Key) (l : loc) (e : list Event) (r : Result bool) :
  (key, l) ∈ items -> e ∈ blocks -> attempt q key l e r -> r <> Ok true ->
  exists e0, (key, e0) ∈ rows (store w) /\
             (key, e0) ∈ rows (store (replayRequests h q w).2).
Proof.
  intros Hitem He Ha Hr.
  destruct (entry_stored key l Hitem) as (e0 & Hin & Hexp).
  exists e0. split; [done|]. rewrite Hrows.
  apply list_elem_of_filter. split; [|done]. simpl.
  rewrite !deleted_keys_app, !not_elem_of_app.
  destruct (finish_tail _ _ _ _ Hfinish) as [_ ->].
  split; [|split; [|apply not_elem_of_nil]].
  - intros Hd. destruct (collect_deleted _ _ _ _ _ _ Hread Hd) as (e1 & Hin1 & _ & Hexp1).
    pose proof (NoDup_fst_agree _ _ _ _ Hkeys Hin Hin1). congruence.
  - intros Hd. destruct (loop_deleted _ _ _ _ _ _ _ Hloop Hd) as (l2 & e2 & Hitem2 & He2 & Ha2).
    pose proof (NoDup_fst_agree _ _ _ _ items_keys_NoDup Hitem Hitem2). subst l2.
    pose proof (loop_unique _ _ _ _ _ _ _ _ _ _ _ _ Hloop
                  (collect_snapshots _ _ _ _ _ Hread) He He2 Ha Ha2). subst e2.
    pose proof (attempt_deleted _ _ _ _ _ Ha) as D1.
    pose proof (attempt_deleted _ _ _ _ _ Ha2) as D2.
    rewrite D2 in D1. destruct r as [[]|]; done.
Qed.

Lemma failed_entry_hook (key : Key) (l : loc) (e : list Event) (r : Result bool) :
  e ∈ blocks -> attempt q key l e r -> r <> Ok true ->
  is_function q "replayDidFail" = true ->
  exists threw,
    EvCallback "replayDidFail" (ArgRequest l) threw ∈ events (replayRequests h q) w.
Proof.
  intros He Ha Hr Hfun.
  destruct (attempt_not_replayed _ _ _ _ _ Ha Hr) as [Hhook _].
  destruct (Hhook Hfun) as (threw & Hin). exists threw.
  by eapply block_in_events.
Qed.

Lemma pass_never_rethrows (err : Error) :
  (replayRequests h q w).1 = Throw err -> err = CallbackError.
Proof.
  intros Hr. rewrite Hr in Hfinish. eapply finish_error; [exact Hfinish|].
  intros err' ->. by destruct (loop_thrown_error _ _ _ _ _ _ Hloop).
Qed.

(** After an attempt that did not end in a replay the pass does not report
    that all requests replayed. *)
Lemma failed_entry_not_all (key : Key) (l : loc) (e : list Event) (r : Result bool) :
  e ∈ blocks -> attempt q key l e r -> r <> Ok true ->
  (forall succ, res <> Ok (succ, true)) /\
  Forall (fun ev => is_callback "allRequestsDidReplay" ev = false)
    (events (replayRequests h q) w).
Proof.
  intros He Ha Hr.
  assert (forall succ, res <> Ok (succ, true)) as Hres.
  { intros succ ->. destruct (loop_all_replayed _ _ _ _ _ _ Hloop) as (_ & _ & HF).
    apply list_elem_of_lookup in He as [i Hi].
    destruct (Forall2_lookup_r _ _ _ _ _ HF Hi) as ([k' l'] & Hi' & Ha'). simpl in Ha'.
    pose proof (attempt_same_snapshot _ _ _ _ _ _ _ _ Ha Ha'). subst l'.
    pose proof (attempt_deleted _ _ _ _ _ Ha) as D1.
    pose proof (attempt_deleted _ _ _ _ _ Ha') as D2.
    rewrite D2 in D1. destruct r as [[]|]; done. }
  split; [done|]. rewrite Hevents.
  repeat (apply Forall_cons_2; [done|]). repeat apply Forall_app_2.
  - eapply Forall_impl; [apply (collect_events _ _ _ _ _ Hread)|].
    intros ev Hev. by apply store_event_in_read in Hev as (? & ? & ?).
  - eapply loop_events; [exact Hloop|]. intros k' l' ev _ Hev.
    by apply replay_event_in_loop in Hev as [? ?].
  - inversion Hfinish as [err|succ e' threw Hh|succ ok|succ]; subst;
      [constructor|by destruct (Hres succ)|by each_event|constructor].
Qed.

(** If no [replayDidFail] call threw, the loop reached every entry. *)
Lemma pass_reaches_every_entry :
  Forall (fun ev => is_callback "replayDidFail" ev = true ->
                    failure_event ev = false) (events (replayRequests h q) w) ->
  (exists outcome, res = Ok outcome) /\
  forall key l, (key, l) ∈ items ->
    (exists req ok, EvFetch l req ok ∈ events (replayRequests h q) w) \/
    EvCallback "requestWillReplay" (ArgRequest l) true
      ∈ events (replayRequests h q) w.
Proof.
  intros Hok. rewrite Forall_forall in Hok.
  destruct res as [outcome|err] eqn:Hres.
  - split; [eauto|]. intros key l Hitem.
    destruct (loop_completed _ _ _ _ _ _ Hloop) as [HF _].
    apply list_elem_of_lookup in Hitem as [i Hi].
    destruct (Forall2_lookup_l _ _ _ _ _ HF Hi) as (e & He & b & Ha). simpl in Ha.
    apply list_elem_of_lookup_2 in He.
    destruct (attempt_begins _ _ _ _ _ Ha) as [(req & ok & Hin)|Hin].
    + left. exists req, ok. by eapply block_in_events.
    + right. by eapply block_in_events.
  - exfalso. destruct (loop_thrown_error _ _ _ _ _ _ Hloop) as (_ & k & l & e & _ & He & Hin).
    specialize (Hok _ (block_in_events _ _ He Hin)). simpl in Hok.
    by specialize (Hok eq_refl).
Qed.

(** An entry whose attempt made no store request: no request to delete it
    was made in the whole pass. *)
Lemma entry_never_deleted (key : Key) (l : loc) (e : list Event) (r : Result bool) :
  (key, l) ∈ items -> e ∈ blocks -> attempt q key l e r ->
  Forall (fun ev => is_store_event ev = false) e ->
  forall ok, EvStore (OpDelete key) ok ∉ events (replayRequests h q) w.
Proof.
  intros Hitem He Ha Hno ok Hin. rewrite Hevents in Hin.
  do 3 (apply elem_of_cons in Hin as [[=]|Hin]).
  apply elem_of_app in Hin as [Hin|Hin]; [|apply elem_of_app in Hin as [Hin|Hin]].
  - destruct (collect_purged _ _ _ _ _ _ _ Hread Hin) as (e1 & Hin1 & _ & Hexp1).
    destruct (entry_stored key l Hitem) as (e0 & Hin0 & Hexp0).
    pose proof (NoDup_fst_agree _ _ _ _ Hkeys Hin0 Hin1). congruence.
  - apply elem_of_concat in Hin as (e' & Hin & He').
    destruct (loop_owner _ _ _ _ _ _ _ Hloop He') as (k' & l' & r' & Hitem' & Ha').
    pose proof (attempt_events _ _ _ _ _ Ha') as Hev.
    rewrite Forall_forall in Hev. specialize (Hev _ Hin).
    inversion Hev as [| | |ev Hrem|]; subst. inversion Hrem; subst.
    pose proof (NoDup_fst_agree _ _ _ _ items_keys_NoDup Hitem Hitem'). subst l'.
    pose proof (loop_unique _ _ _ _ _ _ _ _ _ _ _ _ Hloop
                  (collect_snapshots _ _ _ _ _ Hread) He He' Ha Ha'). subst e'.
    rewrite Forall_forall in Hno. by specialize (Hno _ Hin).
  - destruct (finish_tail _ _ _ _ Hfinish) as [Ht _].
    rewrite Forall_forall in Ht. by specialize (Ht _ Hin).
Qed.

End OneEntry.

Lemma StronglySorted_sublist {A} (R : relation A) (l1 l2 : list A) :
  l1 `sublist_of` l2 -> StronglySorted R l2 -> StronglySorted R l1.
Proof.
  induction 1 as [|x l1 l2 Hs IH|x l1 l2 Hs IH]; intros Hsorted; [done| |].
  - apply StronglySorted_inv in Hsorted as [Hsorted Hall].
    constructor; [by apply IH|].
    rewrite Forall_forall in *. intros y Hy. apply Hall.
    by eapply elem_of_sublist.
  - apply StronglySorted_inv in Hsorted as [Hsorted _]. by apply IH.
Qed.

Lemma StronglySorted_lt_NoDup (l : list Z) : StronglySorted Z.lt l -> NoDup l.
Proof.
  induction 1 as [|x l Hs IH Hall]; [constructor|].
  apply NoDup_cons. split; [|done]. intros Hin.
  rewrite Forall_forall in Hall. specialize (Hall x Hin). lia.
Qed.

(** ** Adding a request *)

#[export] Instance keeps_rows_preorder : PreOrder keeps_rows.
Proof. split; [by intros w row|]. intros w1 w2 w3 H1 H2 row Hr. eauto. Qed.

Section Adding.

Variable h : Host.

Lemma moves_read (P : Event -> Prop) (l : loc) : keeps (moves P) (read l).
Proof. intros w. reflexivity. Qed.

Lemma addRequest_run (q : Queue) (request : Request) :
  always (addRequest h q request)
    (fun e r => (e = [] /\ r = Throw ConversionError) \/
                exists l, add_run q l e r).
Proof.
  unfold addRequest, _getDb.
  assert (forall l, tracing (read l)) as Tread by (intros l w; reflexivity).
  eapply always_bind with
    (S1 := fun e r => e = [] /\ (r = Throw ConversionError \/ exists l, r = Ok l)).
  - tracing_auto.
  - intros l. tracing_auto. apply Tread.
  - apply always_await. intros w. unfold events, StorableRequest_fromRequest.
    destruct (StorableRequest.fromRequest _ _); simpl; rewrite drop_all; eauto.
  - intros e1 l [-> _]. simpl. eapply always_weaken with (S := add_run q l); [|eauto].
    eapply always_bind; [tracing_auto; apply Tread | intros; tracing_auto; apply Tread
                        | apply runCallback_hook | |].
    2:{ intros e2 err ([] & H & [=]). subst. eauto with queue. }
    intros e2 [] ([] & H2 & [=]).
    eapply always_bind; [tracing_auto | intros; tracing_auto; apply Tread
                        | apply always_await, store_request_run | |].
    2:{ intros e3 err [[-> [= ->]]|[_ [? [=]]]]. eauto with queue. }
    intros e3 [] [[_ [=]]|[-> _]].
    eapply always_bind with (S1 := fun e r => e = [] /\ exists s, r = Ok s);
      [apply Tread | intros; tracing_auto | | |].
    + intros w. unfold events, read. simpl. rewrite drop_all. eauto.
    + intros e4 s [-> _].
      eapply always_bind; [tracing_auto | intros; tracing_auto
                          | apply always_await, store_request_run | |].
      * intros e5 k [[_ [=]]|[-> _]].
        eapply always_detach; [apply registerSync_run| |].
        -- intros e6 r [[->|(ok & ->)] _]; simpl.
           ++ eauto with queue.
           ++ eauto with queue.
        -- simpl. eauto with queue.
      * intros e5 err [[-> [= ->]]|[_ [? [=]]]]. simpl. eauto with queue.
    + intros e4 err [_ [s [=]]].
  - intros e1 err [-> [[= ->]|[l [=]]]]. eauto.
Qed.

Lemma keeps_rows_same (w w' : World) : store w' = store w -> keeps_rows w w'.
Proof. intros Hs row. by rewrite Hs. Qed.

Lemma keeps_rows_addRequest (q : Queue) (request : Request) :
  keeps keeps_rows (addRequest h q request).
Proof.
  assert (forall w, keeps_rows w (tick w)) as Htick
    by (intros w; by apply keeps_rows_same).
  assert (forall A (op : StoreOp) (run : Store -> A * Store),
            (forall s row, row ∈ rows s -> row ∈ rows (run s).2) ->
            keeps keeps_rows (store_request h op run)) as Hstore.
  { intros A op run Hrun w. unfold store_request.
    destruct (store_ok _ _ _); simpl; [|by apply keeps_rows_same].
    specialize (Hrun (store w)). destruct (run (store w)) as [a s']. exact Hrun. }
  unfold addRequest, _getDb, _registerSync.
  repeat lazymatch goal with
    | |- keeps _ (bind _ _) => apply keeps_bind; [tc_solve| |intros ?]
    | |- keeps _ (try_catch _ _) => apply keeps_try_catch; [tc_solve| |intros ?]
    | |- keeps _ (await _) => apply keeps_await; [tc_solve|exact Htick|]
    | |- keeps _ (detach _ _ _) =>
        apply keeps_detach; [intros ?; by apply keeps_rows_same |]
    | |- keeps _ (suspend _) => apply keeps_suspend; intros ?; by apply keeps_rows_same
    | |- keeps _ (_waitUntilActive _ _) => apply keeps_waitUntilActive; tc_solve
    | |- keeps _ (match ?p with Resolved => _ | Pending => _ end) => destruct p
    | |- keeps _ (ret _) => apply keeps_ret; tc_solve
    end.
  - intros w. unfold StorableRequest_fromRequest, alloc.
    destruct (StorableRequest.fromRequest _ _); by apply keeps_rows_same.
  - intros w. unfold _runCallback.
    destruct (_callbacks q !! _) as [[f|]|]; try by apply keeps_rows_same.
    destruct (run_threw _); by apply keeps_rows_same.
  - by apply Hstore.
  - intros w. by apply keeps_rows_same.
  - apply Hstore. intros s row Hrow. simpl. apply elem_of_app. by left.
  - intros w. unfold sync_register.
    destruct (_ && _); by apply keeps_rows_same.
Qed.

End Adding.

Lemma collect_requests q t stored items ext :
  collect_run q t stored items ext ->
  Forall (fun ev => forall ok, ev <> EvStore OpGetAll ok) ext.
Proof.
  induction 1 as [| |key e rest items purge r ext Hq He Hp Hc IH| |];
    [constructor|done| |done|done].
  apply Forall_app_2; [|done]. inv_runs; each_event; done.
Qed.

(** ** The key order of the store *)

#[export] Instance ordered_preorder : PreOrder ordered.
Proof.
  split.
  - intros w Hw. exact Hw.
  - intros w1 w2 w3 H12 H23 Hw. apply H23, H12, Hw.
Qed.

Lemma ordered_same (w w' : World) : store w' = store w -> ordered w w'.
Proof. intros Hs Hw. by rewrite Hs. Qed.

Lemma store_wf_empty : store_wf empty_store.
Proof. split; simpl; constructor. Qed.

Lemma store_wf_add (e : Entry) (s : Store) :
  store_wf s -> store_wf (store_add e s).
Proof.
  intros [Hsorted Hbelow]. unfold store_wf, store_add. simpl.
  rewrite fmap_app. simpl. split.
  - clear -Hsorted Hbelow. induction (rows s).*1 as [|k ks IH]; simpl.
    + repeat constructor.
    + apply StronglySorted_inv in Hsorted as [Hsorted Hall].
      apply Forall_cons in Hbelow as [Hk Hbelow].
      constructor; [by apply IH|].
      apply Forall_app_2; [done|]. by repeat constructor.
  - apply Forall_app_2.
    + eapply Forall_impl; [exact Hbelow|]. intros k Hk. simpl in Hk. lia.
    + repeat constructor. lia.
Qed.

Lemma store_wf_sublist (s s' : Store) :
  rows s' `sublist_of` rows s -> next_key s <= next_key s' ->
  store_wf s -> store_wf s'.
Proof.
  intros Hsub Hnext [Hsorted Hbelow].
  assert ((rows s').*1 `sublist_of` (rows s).*1) as Hkeys
    by by apply fmap_sublist.
  split.
  - eapply StronglySorted_sublist; eauto.
  - apply Forall_forall. intros k Hk.
    rewrite Forall_forall in Hbelow.
    specialize (Hbelow k (elem_of_sublist _ _ _ Hk Hkeys)). simpl in Hbelow. lia.
Qed.

Lemma store_wf_delete (k : Key) (s : Store) :
  store_wf s -> store_wf (store_delete k s).
Proof.
  apply store_wf_sublist; [apply sublist_filter | done].
Qed.

Lemma store_wf_NoDup (s : Store) : store_wf s -> NoDup (rows s).*1.
Proof. intros [Hsorted _]. by apply StronglySorted_lt_NoDup. Qed.

Lemma purges_ordered (w w' : World) : purges w w' -> ordered w w'.
Proof.
  intros [Hnext (ext & _ & Hrows)]. unfold ordered. apply store_wf_sublist.
  - rewrite Hrows. apply sublist_filter.
  - by rewrite Hnext.
Qed.

Section KeyOrder.

Variable h : Host.

Lemma ordered_replayRequests (q : Queue) : keeps ordered (replayRequests h q).
Proof. intros w. apply purges_ordered, purges_replayRequests. Qed.

Lemma ordered_store_request {A} (op : StoreOp) (run : Store -> A * Store) :
  (forall s, store_wf s -> store_wf (run s).2) ->
  keeps ordered (store_request h op run).
Proof.
  intros Hrun w. unfold store_request.
  destruct (store_ok _ _ _); simpl; [|by apply ordered_same].
  specialize (Hrun (store w)). destruct (run (store w)) as [a s']. exact Hrun.
Qed.

Lemma ordered_addRequest (q : Queue) (request : Request) :
  keeps ordered (addRequest h q request).
Proof.
  assert (forall w, ordered w (tick w)) as Htick
    by (intros w; by apply ordered_same).
  unfold addRequest, _getDb, _registerSync.
  repeat lazymatch goal with
    | |- keeps _ (bind _ _) => apply keeps_bind; [tc_solve| |intros ?]
    | |- keeps _ (try_catch _ _) => apply keeps_try_catch; [tc_solve| |intros ?]
    | |- keeps _ (await _) => apply keeps_await; [tc_solve|exact Htick|]
    | |- keeps _ (detach _ _ _) =>
        apply keeps_detach; [intros ?; by apply ordered_same |]
    | |- keeps _ (suspend _) => apply keeps_suspend; intros ?; by apply ordered_same
    | |- keeps _ (_waitUntilActive _ _) => apply keeps_waitUntilActive; tc_solve
    | |- keeps _ (match ?p with Resolved => _ | Pending => _ end) => destruct p
    | |- keeps _ (ret _) => apply keeps_ret; tc_solve
    end.
  - intros w. unfold StorableRequest_fromRequest, alloc.
    destruct (StorableRequest.fromRequest _ _); by apply ordered_same.
  - intros w. unfold _runCallback.
    destruct (_callbacks q !! _) as [[f|]|]; try by apply ordered_same.
    destruct (run_threw _); by apply ordered_same.
  - by apply ordered_store_request.
  - intros w. by apply ordered_same.
  - apply ordered_store_request. intros s. apply store_wf_add.
  - intros w. unfold sync_register.
    destruct (_ && _); by apply ordered_same.
Qed.

Lemma ordered_new_Queue name mrt cbs : keeps ordered (new_Queue h name mrt cbs).
Proof.
  intros w. unfold new_Queue. case_decide; simpl; [reflexivity|].
  set (q := Build_Queue _ _ _). set (w1 := set_names _ w).
  unfold bind, _addSyncListener, bind. simpl.
  destruct (sync_supported h); simpl; [by apply ordered_same|].
  rewrite start_pass_ok. simpl. intros Hw.
  by apply (purges_ordered _ _ (purges_start_pass h q (add_listener q w1))).
Qed.

Lemma ordered_dispatch_sync (event : SyncEvent) (w : World) :
  ordered w (dispatch_sync h event w).
Proof.
  unfold dispatch_sync. generalize (listeners w) as qs.
  intros qs. revert w. induction qs as [|q qs IH]; intros w; [reflexivity|].
  cbn [foldl]. etrans; [|apply IH].
  unfold sync_listener. apply purges_ordered, purges_start_pass.
Qed.

Lemma ordered_perform (a : Action) (w : World) : ordered w (perform h a w).
Proof.
  destruct a; simpl.
  - apply ordered_new_Queue.
  - apply ordered_addRequest.
  - apply ordered_replayRequests.
  - apply ordered_dispatch_sync.
  - by apply ordered_same.
  - apply purges_ordered, purges_land.
Qed.

(** Whatever a process does, the rows of the store stay in key order. *)
Lemma ordered_run (acts : list Action) (w : World) : ordered w (run h acts w).
Proof.
  unfold run. revert w. induction acts as [|a acts IH]; intros w; [reflexivity|].
  cbn [foldl]. etrans; [apply ordered_perform | apply IH].
Qed.

Lemma run_keys_sorted (acts : list Action) (s : Store) (t : Z) :
  store_wf s ->
  StronglySorted Z.lt (rows (store (run h acts (start s t)))).*1.
Proof. intros Hs. by apply (ordered_run acts (start s t)). Qed.

Lemma run_keys_NoDup (acts : list Action) (s : Store) (t : Z) :
  store_wf s -> NoDup (rows (store (run h acts (start s t)))).*1.
Proof. intros Hs. by apply store_wf_NoDup, (ordered_run acts (start s t)). Qed.

End KeyOrder.

(** ** The claims *)

(** C8: [fromObject (toObject s)] equals [s] in every field, body bytes
    included; for a request with a body-bearing method the request rebuilt
    from [fromObject (toObject (fromRequest r))] has the method, URL, header
    pairs and body bytes of [r]; for GET the rebuilt request carries no
    body even when the stored object held one. *)
Theorem storable_request_round_trip :
  (forall s, StorableRequest.fromObject (StorableRequest.toObject s) = s) /\
  (forall t r s,
     StorableRequest.permits_body (StorableRequest.req_method r) = true ->
     StorableRequest.fromRequest t r = Some s ->
     let r' := StorableRequest.toRequest
                 (StorableRequest.fromObject (StorableRequest.toObject s)) in
     StorableRequest.req_method r' = StorableRequest.req_method r /\
     StorableRequest.req_url r' = StorableRequest.req_url r /\
     StorableRequest.req_headers r' = StorableRequest.req_headers r /\
     StorableRequest.req_body r' = StorableRequest.req_body r) /\
  (forall o,
     StorableRequest.o_method o = "GET" ->
     StorableRequest.req_body
       (StorableRequest.toRequest (StorableRequest.fromObject o)) = None).
Proof.
  split; [|split].
  - by intros [].
  - intros t r s Hm. unfold StorableRequest.fromRequest. rewrite Hm.
    destruct (StorableRequest.req_bodyUsed r); [done|].
    intros [= <-]. simpl. by rewrite Hm.
  - intros o Hm. simpl. unfold StorableRequest.permits_body. by rewrite Hm.
Qed.

(** C7: constructing a Queue with name [n] succeeds only if no Queue was
    constructed with [n] earlier in the process, and fails with
    duplicate-queue-name otherwise; nothing the process does removes a
    name, so it stays unavailable afterwards. *)
Theorem queue_name_is_reserved (h : Host) (s : Store) (t : Z)
    (acts : list Action) (name : string) (mrt : option Z)
    (cbs : option (gmap string JsValue)) :
  let w := run h acts (start s t) in
  (if existsb (is_constructor_of name) acts
   then new_Queue h name mrt cbs w = (Throw (DuplicateQueueName name), w)
   else exists q w', new_Queue h name mrt cbs w = (Ok q, w') /\
                     _name q = name /\ name ∈ names w') /\
  (forall more, names w ⊆ names (run h more w)).
Proof.
  intros w. split; [|intros more; apply lives_run].
  pose proof (names_run h acts (start s t) name) as Hn. fold w in Hn.
  destruct (existsb _ acts).
  - unfold new_Queue. rewrite decide_True; [done|]. apply Hn. by right.
  - assert (name ∉ names w) as Hfresh.
    { rewrite Hn. simpl. intros [Hin|]; [|done]. by apply not_elem_of_empty in Hin. }
    destruct (new_Queue_fresh h name mrt cbs w Hfresh) as (q & w' & E & Hq).
    exists q, w'. split; [done|]. split; [done|].
    pose proof (names_new_Queue h name mrt cbs w) as Hw. rewrite E in Hw.
    simpl in Hw. rewrite Hw. set_solver.
Qed.


(** C2 (as amended): in a pass over a non-empty queue, if every entry was
    replayed (its request accepted by the network, its row then deleted),
    [allRequestsDidReplay] is invoked exactly once, last, with the replayed
    snapshots in replay order; the replayed entries are gone from the
    store; no sync registration is asked for or parked.  If some entry was
    not replayed, [allRequestsDidReplay] is not invoked, and either the
    pass returns normally and [_registerSync] was called without being
    awaited (the sync manager was asked for the queue's tag as the last
    event, or the call is parked), or a [replayDidFail] callback threw:
    then its call is the last event, the pass rejects, and no registration
    is asked for or parked. *)
Theorem replay_pass_outcome (h : Host) (q : Queue) (w : World)
    (items : list (Key * loc)) :
  NoDup (rows (store w)).*1 ->
  (read_queue h q w).1 = Ok items ->
  items <> [] ->
  let evs := events (replayRequests h q) w in
  let w' := (replayRequests h q w).2 in
  let res := (replayRequests h q w).1 in
  let tasks := parked_by (replayRequests h q) w in
  (Forall (replayed_in evs) items ->
     (is_function q "allRequestsDidReplay" = true ->
      exists before threw,
        evs = before ++
          [EvCallback "allRequestsDidReplay" (ArgRequests items.*2) threw] /\
        Forall (fun ev => is_callback "allRequestsDidReplay" ev = false) before) /\
     Forall (fun item => item.1 ∉ (rows (store w')).*1) items /\
     Forall (fun ev => is_registration ev = false) evs /\
     TRegister q ∉ tasks) /\
  (~ Forall (replayed_in evs) items ->
     Forall (fun ev => is_callback "allRequestsDidReplay" ev = false) evs /\
     ((res = Ok tt /\
       ((exists before ok, evs = before ++ [EvRegisterSync (sync_tag q) ok]) /\
        TRegister q ∉ tasks \/
        Forall (fun ev => is_registration ev = false) evs /\
        TRegister q ∈ tasks)) \/
      (res = Throw CallbackError /\
       (exists before l,
          evs = before ++ [EvCallback "replayDidFail" (ArgRequest l) true]) /\
       Forall (fun ev => is_registration ev = false) evs /\
       TRegister q ∉ tasks))).
Proof.
  intros Hkeys Hread Hne evs w' res tasks.
  destruct (pass_summary h q w items Hread)
    as (read & blocks & tail & E & Hc & Hm & Hrows).
  destruct (pass_tasks h q w items Hread) as (ks & reg & Hp & _ & Hreg).
  fold evs in E, Hreg. fold tasks in Hp. fold res in Hm. fold w' in Hrows.
  destruct items as [|item rest] eqn:Hitems; [done|].
  rewrite <- Hitems in *. clear Hitems Hne. destruct Hm as [Hl Hf].
  assert (NoDup items.*1) as Hnd
    by exact (sublist_NoDup _ _ Hkeys (collect_keys _ _ _ _ _ Hc)).
  assert (forall P : Event -> Prop,
            (forall ev, is_store_event ev = true -> P ev) ->
            (forall key l ev, replay_event key l ev -> P ev) ->
            P (EvReplay (_name q)) ->
            Forall P (EvReplay (_name q) :: EvStore OpOpen true ::
                        EvStore OpGetAll true :: read ++ concat blocks)) as Hparts.
  { intros P Hstore Hreplay Hstart.
    apply Forall_cons_2; [done|]. do 2 (apply Forall_cons_2; [by apply Hstore|]).
    apply Forall_app_2.
    - eapply Forall_impl; [apply (collect_events _ _ _ _ _ Hc)|]. exact Hstore.
    - eapply loop_events; [exact Hl|]. intros key l ev _. apply Hreplay. }
  assert (Forall (fun ev => is_callback "allRequestsDidReplay" ev = false)
            (EvReplay (_name q) :: EvStore OpOpen true ::
               EvStore OpGetAll true :: read ++ concat blocks)) as Hbefore.
  { apply Hparts; [by intros []| |done].
    intros key l ev Hev. by apply replay_event_in_loop in Hev as [? ?]. }
  assert (Forall (fun ev => is_registration ev = false)
            (EvReplay (_name q) :: EvStore OpOpen true ::
               EvStore OpGetAll true :: read ++ concat blocks)) as Hnoreg.
  { apply Hparts; [by intros []| |done].
    intros key l ev Hev. inversion Hev as [| | |ev' Hrem|]; subst; try done.
    by inversion Hrem. }
  assert (evs = (EvReplay (_name q) :: EvStore OpOpen true ::
                   EvStore OpGetAll true :: read ++ concat blocks) ++ tail) as E'.
  { rewrite E. simpl. by rewrite <- !app_assoc. }
  assert (reg = [] -> TRegister q ∉ tasks) as Hnotask.
  { intros -> Hin. rewrite Hp, app_nil_r in Hin.
    by apply list_elem_of_fmap in Hin as (k & [=] & _). }
  assert (forall e ev, e ∈ blocks -> ev ∈ e -> ev ∈ evs) as Hblock.
  { intros e ev He Hev. rewrite E. do 3 right.
    apply elem_of_app. right. apply elem_of_app. left.
    apply elem_of_concat. eauto. }
  assert (forall k l, (k, l) ∈ items -> EvStore (OpDelete k) true ∈ evs ->
                      k ∈ deleted_keys (concat blocks)) as Hdel.
  { intros k l Hitem Hev. rewrite E in Hev.
    do 3 (apply elem_of_cons in Hev as [[=]|Hev]).
    apply deleted_keys_event in Hev. rewrite !deleted_keys_app in Hev.
    destruct (finish_tail _ _ _ _ Hf) as [_ Ht]. rewrite Ht, app_nil_r in Hev.
    apply elem_of_app in Hev as [Hev|Hev]; [|done]. exfalso.
    destruct (collect_deleted _ _ _ _ _ _ Hc Hev) as (e1 & Hin1 & _ & Hexp1).
    destruct (collect_items _ _ _ _ _ _ _ Hc Hitem) as (e0 & Hin0 & _ & Hexp0).
    pose proof (NoDup_fst_agree _ _ _ _ Hkeys Hin0 Hin1). congruence. }
  assert (Forall (replayed_in evs) items ->
          (replay_loop h q items [] true (read_queue h q w).2).1
            = Ok (items.*2, true)) as Hall.
  { intros HF. apply (loop_all_deleted _ _ _ _ _ _ Hl Hnd). intros k Hk.
    apply list_elem_of_fmap in Hk as ([k' l] & -> & Hitem).
    rewrite Forall_forall in HF. destruct (HF _ Hitem) as [_ Hd].
    by eapply Hdel. }
  assert (forall succ,
            (replay_loop h q items [] true (read_queue h q w).2).1
              = Ok (succ, true) ->
            Forall (replayed_in evs) items) as Hconv.
  { intros succ HR. rewrite HR in Hl.
    destruct (loop_all_replayed _ _ _ _ _ _ Hl) as (_ & _ & HF).
    apply Forall_forall. intros [k l] Hitem.
    apply list_elem_of_lookup in Hitem as [i Hi].
    destruct (Forall2_lookup_l _ _ _ _ _ HF Hi) as (e' & He' & Ha).
    simpl in Ha. apply list_elem_of_lookup_2 in He'.
    destruct (attempt_replayed_fetch _ _ _ _ Ha) as [[req Hfetch] Hdelete].
    split; simpl; [exists req|]; by eapply Hblock. }
  remember res as r eqn:Hr. clear res Hr.
  split.
  - intros HF. pose proof (Hall HF) as HR. rewrite HR in Hl, Hf, Hreg.
    inversion Hf as [|succ0 e threw Hh| |]; subst.
    split; [|split; [|split]].
    + intros Hfun. inversion Hh as [Habs|threw' _]; subst; [congruence|].
      eexists _, threw. split; [exact E'|exact Hbefore].
    + apply Forall_forall. intros [k l] Hitem Hk. simpl in Hk.
      apply list_elem_of_fmap in Hk as ([k' e'] & -> & Hrow).
      rewrite Hrows in Hrow. apply list_elem_of_filter in Hrow as [Hno _].
      apply Hno. simpl. rewrite !deleted_keys_app.
      apply elem_of_app. right. apply elem_of_app. left.
      rewrite Forall_forall in HF. destruct (HF _ Hitem) as [_ Hd].
      by eapply Hdel.
    + rewrite E'. apply Forall_app_2; [exact Hnoreg|].
      inversion Hh; subst; by repeat constructor.
    + by apply Hnotask.
  - intros HnF.
    destruct (replay_loop h q items [] true (read_queue h q w).2).1
      as [[succ []]|err] eqn:HR.
    + destruct HnF. by eapply Hconv.
    + assert (r = Ok tt /\ Forall (fun ev => after_loop ev = true) tail)
        as [-> Htail].
      { split; [|by destruct (finish_tail _ _ _ _ Hf)].
        by inversion Hf. }
      split.
      { rewrite E'. apply Forall_app_2; [exact Hbefore|].
        inversion Hf; subst; by repeat constructor. }
      left. split; [done|].
      destruct Hreg as [[-> Hlast]|[-> Hnone]].
      * left. split; [exact Hlast|by apply Hnotask].
      * right. split; [exact Hnone|]. rewrite Hp. set_solver.
    + inversion Hf; subst.
      destruct (loop_thrown_error _ _ _ _ _ _ Hl) as (-> & k & l & e & Hitem & He & Hin).
      rewrite app_nil_r in E'.
      split; [by rewrite E'|]. right. split; [done|]. split; [|split].
      * assert (EvCallback "replayDidFail" (ArgRequest l) true ∈ concat blocks)
          as Hcat by (apply elem_of_concat; eauto).
        destruct (loop_fail_thrown _ _ _ _ _ _ _ Hl Hcat) as (_ & before & Hb).
        exists (EvReplay (_name q) :: EvStore OpOpen true ::
                  EvStore OpGetAll true :: read ++ before), l.
        rewrite E', Hb. simpl. by rewrite <- !app_assoc.
      * by rewrite E'.
      * by apply Hnotask.
Qed.

(** C3 (as amended): for an entry whose network attempt fails within a
    pass, [replayDidFail] is invoked for its snapshot, the entry is still
    in the store after the pass, and the network failure is never what
    [replayRequests] throws.  As long as no [replayDidFail] callback
    throws, the pass goes on to every other entry and returns normally;
    if the [replayDidFail] call for the entry throws, the pass ends with
    that call and [replayRequests] rejects with the callback's failure. *)
Theorem failed_replay_is_contained (h : Host) (q : Queue) (w : World)
    (items : list (Key * loc)) (key : Key) (l : loc) (req : Request) :
  NoDup (rows (store w)).*1 ->
  (read_queue h q w).1 = Ok items ->
  (key, l) ∈ items ->
  EvFetch l req false ∈ events (replayRequests h q) w ->
  let evs := events (replayRequests h q) w in
  (is_function q "replayDidFail" = true ->
   exists threw, EvCallback "replayDidFail" (ArgRequest l) threw ∈ evs) /\
  (exists e, (key, e) ∈ rows (store w) /\
             (key, e) ∈ rows (store (replayRequests h q w).2)) /\
  (replayRequests h q w).1 <> Throw NetworkFailure /\
  (Forall (fun ev => is_callback "replayDidFail" ev = true ->
                     failure_event ev = false) evs ->
   (replayRequests h q w).1 = Ok tt /\
   forall key' l', (key', l') ∈ items ->
     (exists req' ok, EvFetch l' req' ok ∈ evs) \/
     EvCallback "requestWillReplay" (ArgRequest l') true ∈ evs) /\
  (EvCallback "replayDidFail" (ArgRequest l) true ∈ evs ->
   (replayRequests h q w).1 = Throw CallbackError /\
   exists before,
     evs = before ++ [EvCallback "replayDidFail" (ArgRequest l) true]).
Proof.
  intros Hkeys Hread Hitem Hfetch evs.
  destruct (pass_summary h q w items Hread)
    as (read & blocks & tail & E & Hc & Hm & Hrows).
  destruct items as [|item rest] eqn:Hitems; [by apply elem_of_nil in Hitem|].
  rewrite <- Hitems in *. clear Hitems. destruct Hm as [Hl Hf].
  set (res := (replay_loop h q items [] true (read_queue h q w).2).1) in *.
  edestruct (entry_block h q w items read tail blocks res)
    as (e & r & He & Hev & Ha); [exact E|exact Hc|exact Hl|exact Hf|exact Hitem
                                |exact Hfetch|by left|done|].
  assert (r <> Ok true) as Hr.
  { intros ->. apply attempt_replayed_clean in Ha.
    rewrite Forall_forall in Ha. by specialize (Ha _ Hev). }
  split; [|split; [|split; [|split]]].
  - intros Hfun. eapply failed_entry_hook; eauto.
  - eapply failed_entry_stays; eauto.
  - intros Hthrow. eapply pass_never_rethrows in Hthrow; eauto. done.
  - intros Hok.
    edestruct (pass_reaches_every_entry h q w items read tail blocks res)
      as [[outcome Hres] Hall]; [exact E|exact Hl|exact Hf|exact Hok|].
    split; [|exact Hall].
    edestruct (failed_entry_not_all h q w items read tail blocks res)
      as [Hnot _]; eauto.
    rewrite Hres in Hf.
    inversion Hf as [|succ e' threw Hh|succ ok|succ]; subst; [|done|done].
    by destruct (Hnot succ).
  - intros Hin. unfold evs in Hin |- *. rewrite E in Hin |- *.
    do 3 (apply elem_of_cons in Hin as [[=]|Hin]).
    apply elem_of_app in Hin as [Hin|Hin].
    { pose proof (collect_events _ _ _ _ _ Hc) as Hs.
      rewrite Forall_forall in Hs. by specialize (Hs _ Hin). }
    apply elem_of_app in Hin as [Hin|Hin].
    2:{ destruct (finish_tail _ _ _ _ Hf) as [Ht _].
        rewrite Forall_forall in Ht. by specialize (Ht _ Hin). }
    destruct (loop_fail_thrown _ _ _ _ _ _ _ Hl Hin) as (Hres & before & Hb).
    rewrite Hres in Hf. inversion Hf; subst.
    split; [done|].
    exists (EvReplay (_name q) :: EvStore OpOpen true :: EvStore OpGetAll true ::
              read ++ before).
    rewrite Hb, app_nil_r. simpl. by rewrite <- !app_assoc.
Qed.

(** C9: for an entry whose fetch succeeds but whose [requestDidReplay]
    callback throws, no delete is requested for the entry and it is still
    in the store after the pass, [replayDidFail] is invoked for the same
    snapshot, and [allRequestsDidReplay] is not invoked in this pass. *)
Theorem throwing_requestDidReplay_is_a_failure (h : Host) (q : Queue)
    (w : World) (items : list (Key * loc)) (key : Key) (l : loc) :
  NoDup (rows (store w)).*1 ->
  (read_queue h q w).1 = Ok items ->
  (key, l) ∈ items ->
  EvCallback "requestDidReplay" (ArgRequest l) true
    ∈ events (replayRequests h q) w ->
  let evs := events (replayRequests h q) w in
  (exists req, EvFetch l req true ∈ evs) /\
  (forall ok, EvStore (OpDelete key) ok ∉ evs) /\
  (exists e, (key, e) ∈ rows (store w) /\
             (key, e) ∈ rows (store (replayRequests h q w).2)) /\
  (is_function q "replayDidFail" = true ->
   exists threw, EvCallback "replayDidFail" (ArgRequest l) threw ∈ evs) /\
  Forall (fun ev => is_callback "allRequestsDidReplay" ev = false) evs.
Proof.
  intros Hkeys Hread Hitem Hdid evs.
  destruct (pass_summary h q w items Hread)
    as (read & blocks & tail & E & Hc & Hm & Hrows).
  destruct items as [|item rest] eqn:Hitems; [by apply elem_of_nil in Hitem|].
  rewrite <- Hitems in *. clear Hitems. destruct Hm as [Hl Hf].
  set (res := (replay_loop h q items [] true (read_queue h q w).2).1) in *.
  edestruct (entry_block h q w items read tail blocks res)
    as (e & r & He & Hev & Ha); [exact E|exact Hc|exact Hl|exact Hf|exact Hitem
                                |exact Hdid|by left|done|].
  destruct (attempt_did_threw _ _ _ _ _ Ha Hev) as (Hr & Hno & req & Hreq).
  split; [|split; [|split; [|split]]].
  - exists req. eapply block_in_events; eauto.
  - eapply entry_never_deleted; eauto.
  - eapply failed_entry_stays; eauto.
  - intros Hfun. eapply failed_entry_hook; eauto.
  - edestruct (failed_entry_not_all h q w items read tail blocks res)
      as [_ Hnot]; eauto.
Qed.

(** C4 (as amended): an entry read in a pass whose age exceeds
    [maxRetentionTime] is not among the entries to replay, and no
    lifecycle callback and no fetch of the pass receives a snapshot of it.
    Its removal is started and not awaited: the call is parked, or a
    delete of its key has been requested, or the store refused to open.
    The entry is gone after the pass exactly if a delete of its key went
    through during the pass; a removal that fails is not what the pass
    throws.  When a removal that was parked runs and its delete goes
    through, the entry is gone. *)
Theorem expired_entry_is_purged (h : Host) (q : Queue) (w : World)
    (items : list (Key * loc)) (key : Key) (e : Entry) :
  NoDup (rows (store w)).*1 ->
  (read_queue h q w).1 = Ok items ->
  (key, e) ∈ rows (store w) ->
  queueName e = _name q ->
  now w - StorableRequest.o_timestamp (storableRequest e) > _maxRetentionTime q ->
  let evs := events (replayRequests h q) w in
  let w' := (replayRequests h q w).2 in
  (key ∉ items.*1) /\
  (forall ev l, ev ∈ evs -> l ∈ snapshots_of ev ->
     exists key', (key', l) ∈ items /\ key' <> key) /\
  (TRemove q key ∈ parked_by (replayRequests h q) w \/
   (exists ok, EvStore (OpDelete key) ok ∈ evs) \/
   EvStore OpOpen false ∈ evs) /\
  (key ∉ (rows (store w')).*1 <-> EvStore (OpDelete key) true ∈ evs) /\
  (replayRequests h q w).1 <> Throw StorageFailure /\
  (forall w0 : World,
     EvStore (OpDelete key) true ∈ events (run_task h (TRemove q key)) w0 ->
     key ∉ (rows (store (run_task h (TRemove q key) w0).2)).*1).
Proof.
  intros Hkeys Hread Hin Hq Hage evs w'.
  assert (expired q (now w) e = true) as Hexp.
  { unfold expired. apply Z.gtb_lt. lia. }
  destruct (pass_summary h q w items Hread)
    as (read & blocks & tail & E & Hc & Hm & Hrows).
  destruct (pass_tasks h q w items Hread) as (ks & reg & Hp & Hks & _).
  fold evs in E, Hks. fold w' in Hrows.
  assert (key ∉ items.*1) as Hnot.
  { intros Hk. apply list_elem_of_fmap in Hk as ([k l] & -> & Hitem). simpl in *.
    destruct (collect_items _ _ _ _ _ _ _ Hc Hitem) as (e1 & Hin1 & _ & Hexp1).
    pose proof (NoDup_fst_agree _ _ _ _ Hkeys Hin Hin1). congruence. }
  assert (forall l, l ∈ items.*2 -> exists key', (key', l) ∈ items /\ key' <> key)
    as Hother.
  { intros l Hl. apply list_elem_of_fmap in Hl as ([k' l'] & -> & Hitem).
    exists k'. split; [done|]. intros ->. apply Hnot.
    apply list_elem_of_fmap. by exists (key, l'). }
  assert (forall k, EvStore (OpDelete k) true ∈ evs <->
                    k ∈ deleted_keys (read ++ concat blocks ++ tail)) as Hdel.
  { intros k. rewrite deleted_keys_event, E. split.
    - intros Hev. by do 3 (apply elem_of_cons in Hev as [[=]|Hev]).
    - intros Hev. by do 3 right. }
  split; [done|]. split; [|split; [|split; [|split]]].
  - intros ev l Hev Hl. rewrite E in Hev.
    do 3 (apply elem_of_cons in Hev as [->|Hev]; [by apply elem_of_nil in Hl|]).
    apply elem_of_app in Hev as [Hev|Hev].
    { pose proof (collect_events _ _ _ _ _ Hc) as Hs. rewrite Forall_forall in Hs.
      apply Hs, store_event_in_read in Hev as (_ & _ & Hn).
      rewrite Hn in Hl. by apply elem_of_nil in Hl. }
    destruct items as [|item rest] eqn:Hitems.
    { destruct Hm as (-> & -> & _). by apply elem_of_nil in Hev. }
    rewrite <- Hitems in *. clear Hitems. destruct Hm as [Hl' Hf].
    apply elem_of_app in Hev as [Hev|Hev].
    + apply elem_of_concat in Hev as (b & Hev & Hb).
      destruct (loop_owner _ _ _ _ _ _ _ Hl' Hb) as (k' & l' & r & Hitem & Ha).
      pose proof (attempt_snapshots _ _ _ _ _ _ _ Ha Hev Hl). subst l'.
      apply Hother. apply list_elem_of_fmap. by exists (k', l).
    + inversion Hf as [err Hres|succ e' threw Hh Hres|succ ok Hres|succ Hres];
        subst.
      * by apply elem_of_nil in Hev.
      * rewrite <- Hres in Hl'.
        destruct (loop_all_replayed _ _ _ _ _ _ Hl') as (_ & -> & _).
        inversion Hh; subst; [by apply elem_of_nil in Hev|].
        apply list_elem_of_singleton in Hev as ->. simpl in Hl. by apply Hother.
      * apply list_elem_of_singleton in Hev as ->. by apply elem_of_nil in Hl.
      * by apply elem_of_nil in Hev.
  - destruct (Hks key e Hin Hq Hexp) as [Hk|[?|?]]; [left|by right; left|by right; right].
    rewrite Hp. apply elem_of_app. left. apply list_elem_of_fmap. by exists key.
  - rewrite Hdel. split.
    + intros Hgone.
      destruct (decide (key ∈ deleted_keys (read ++ concat blocks ++ tail)))
        as [Hd|Hd]; [done|].
      destruct Hgone. apply list_elem_of_fmap. exists (key, e). split; [done|].
      rewrite Hrows. by apply list_elem_of_filter.
    + intros Hd Hk. apply list_elem_of_fmap in Hk as ([k e'] & -> & Hrow).
      rewrite Hrows in Hrow. by apply list_elem_of_filter in Hrow as [Hno _].
  - intros Hthrow. destruct items as [|item rest] eqn:Hitems.
    { destruct Hm as (_ & _ & R). congruence. }
    rewrite <- Hitems in *. clear Hitems. destruct Hm as [Hl Hf].
    rewrite Hthrow in Hf. apply finish_error in Hf; [done|].
    intros err' Herr. rewrite Herr in Hl.
    by destruct (loop_thrown_error _ _ _ _ _ _ Hl).
  - intros w0 Hev Hk. simpl in Hev, Hk.
    destruct (purges_rows _ _ (purges_removeRequest h q key w0)) as (ext & T & R).
    apply events_ext in T. rewrite T in Hev.
    apply list_elem_of_fmap in Hk as ([k e'] & -> & Hrow).
    rewrite R in Hrow. apply list_elem_of_filter in Hrow as [Hno _].
    apply Hno. by apply deleted_keys_event.
Qed.


(** C5 (as amended): when [requestWillQueue] is a function it is invoked
    before the store is opened, and the entry handed to the store is the
    snapshot as the callback left it when it returned, together with what
    its continuations did by the first suspension that follows; the
    callback's promise is not awaited. *)
Theorem requestWillQueue_runs_before_persistence (h : Host) (q : Queue)
    (request : Request) (w : World) (f : JsFunction) (s : StorableRequest.t)
    (e : Entry) (ok : bool) :
  _callbacks q !! "requestWillQueue" = Some (VFunction f) ->
  jobs w = [] ->
  StorableRequest.fromRequest (now w) request = Some s ->
  EvStore (OpAdd e) ok ∈ events (addRequest h q request) w ->
  let l := fresh w in
  let r := f (ArgRequest l) (heap_set l s (heap w)) in
  (exists rest,
     events (addRequest h q request) w =
       EvCallback "requestWillQueue" (ArgRequest l) false ::
       EvStore OpOpen true :: EvStore (OpAdd e) ok :: rest) /\
  e = {| queueName := _name q;
         storableRequest :=
           StorableRequest.toObject (run_due (run_later r) (run_heap r) l) |}.
Proof.
  intros Hcb Hjobs Hfrom Hin l r. revert Hin.
  unfold events, addRequest, bind, await, StorableRequest_fromRequest.
  rewrite Hfrom. unfold alloc, _runCallback, tick. simpl.
  rewrite Hcb, Hjobs. simpl. fold l. fold r.
  destruct (run_threw r) eqn:Hthrew; simpl.
  { rewrite drop_app_length. intros Hin. in_list. }
  unfold _getDb, getDB, store_request. simpl.
  destruct (store_ok h (step w) OpOpen); simpl.
  2:{ rewrite <- app_assoc, drop_app_length. intros Hin. in_list. }
  unfold read, db_add, store_request. simpl.
  set (entry := Build_Entry (_name q) _).
  destruct (store_ok h (S (step w)) (OpAdd entry)); simpl.
  - match goal with
    | |- context [trace (detach h ?t ?m ?w0).2] =>
        assert (tracing (detach h t m)) as T by tracing_auto;
        rewrite (trace_events (detach h t m) w0 T);
        destruct (always_detach h t m (register_shape q) (register_shape q)
                    (registerSync_run h q) ltac:(by intros ? ? [? _])
                    ltac:(split; [by left|done]) w0) as [[->|[ok' ->]] _]
    end;
      simpl; rewrite <- !app_assoc, drop_app_length; simpl;
      intros Hin; assert (e = entry /\ ok = true) as [-> ->] by in_list;
      eauto.
  - rewrite <- !app_assoc, drop_app_length. simpl.
    intros Hin. assert (e = entry /\ ok = false) as [-> ->] by in_list.
    eauto.
Qed.

(** C6 (as amended): a failure of the store while [addRequest] opens it or
    adds the entry, or while [replayRequests] opens it or reads the entries,
    reaches the caller; once the entries have been read, a store failure
    (which can only be that of a delete) is not what [replayRequests]
    throws; and no row leaves the store except by a delete that succeeded. *)
Theorem store_failures_and_the_caller (h : Host) (q : Queue) (w : World) :
  (forall request,
     let evs := events (addRequest h q request) w in
     (forall op, EvStore op false ∈ evs ->
                 (addRequest h q request w).1 = Throw StorageFailure) /\
     (forall row, row ∈ rows (store w) ->
                  row ∈ rows (store (addRequest h q request w).2))) /\
  (let evs := events (replayRequests h q) w in
   (forall rest, evs = EvReplay (_name q) :: EvStore OpOpen false :: rest ->
                 (replayRequests h q w).1 = Throw StorageFailure) /\
   (EvStore OpGetAll false ∈ evs ->
    (replayRequests h q w).1 = Throw StorageFailure) /\
   (EvStore OpGetAll true ∈ evs ->
    (replayRequests h q w).1 <> Throw StorageFailure) /\
   (forall row, row ∈ rows (store w) ->
      row ∈ rows (store (replayRequests h q w).2) \/
      EvStore (OpDelete row.1) true ∈ evs)).
Proof.
  split.
  - intros request evs. split.
    + intros op Hin. unfold evs in Hin. clear evs.
      pose proof (addRequest_run h q request w) as Hrun. cbv beta in Hrun.
      remember (events (addRequest h q request) w) as e eqn:He.
      remember (addRequest h q request w).1 as r eqn:Hr. clear He Hr.
      destruct Hrun as [[-> ->]|[l Hrun]]; [by apply elem_of_nil in Hin|].
      destruct Hrun as [e1 Hh|e1 Hh|e1 entry Hh|e1 entry ok Hh|e1 entry Hh];
        try done; inversion Hh; subst; in_list.
    + apply keeps_rows_addRequest.
  - intros evs.
    destruct (pass_anatomy h q w) as [Hshape Hrest]. cbv zeta in Hshape, Hrest.
    fold (read_queue h q w) in Hshape, Hrest.
    assert (forall row, row ∈ rows (store w) ->
              row ∈ rows (store (replayRequests h q w).2) \/
              EvStore (OpDelete row.1) true ∈ evs) as Hrows.
    { intros row Hrow.
      destruct (purges_rows _ _ (purges_replayRequests h q w)) as (ext & T & R).
      apply events_ext in T. fold evs in T. subst ext.
      destruct (decide (row.1 ∈ deleted_keys evs)) as [Hd|Hd].
      - right. by apply deleted_keys_event.
      - left. rewrite R. by apply list_elem_of_filter. }
    destruct Hshape as [[Er Rr]|[[Er Rr]|(items & read & Er & Rr & Hc)]];
      rewrite Rr in Hrest.
    + destruct Hrest as (E & R & _).
      split; [done|]. split; [done|]. split; [|exact Hrows].
      intros Hin. exfalso. unfold evs in Hin. rewrite E, Er in Hin. in_list.
    + destruct Hrest as (E & R & _).
      split; [done|]. split; [done|]. split; [|exact Hrows].
      intros Hin. exfalso. unfold evs in Hin. rewrite E, Er in Hin. in_list.
    + destruct (pass_summary h q w items Rr)
        as (read' & blocks & tail & E & Hc' & Hm & _).
      split; [|split; [|split; [|exact Hrows]]].
      * intros rest Hev. unfold evs in Hev. rewrite E in Hev. done.
      * intros Hin. exfalso. unfold evs in Hin. rewrite E in Hin.
        do 3 (apply elem_of_cons in Hin as [[=]|Hin]).
        apply elem_of_app in Hin as [Hin|Hin].
        { pose proof (collect_requests _ _ _ _ _ Hc') as Hs.
          rewrite Forall_forall in Hs. by eapply Hs. }
        destruct items as [|item rest].
        { destruct Hm as (-> & -> & _). by apply elem_of_nil in Hin. }
        destruct Hm as [Hl Hf]. apply elem_of_app in Hin as [Hin|Hin].
        -- apply elem_of_concat in Hin as (b & Hin & Hb).
           destruct (loop_owner _ _ _ _ _ _ _ Hl Hb) as (k' & l' & r & _ & Ha).
           apply attempt_events in Ha. rewrite Forall_forall in Ha.
           specialize (Ha _ Hin). inversion Ha as [| | |ev Hrem|]; subst.
           inversion Hrem.
        -- destruct (finish_tail _ _ _ _ Hf) as [Ht _].
           rewrite Forall_forall in Ht. by specialize (Ht _ Hin).
      * intros _ Hthrow. destruct items as [|item rest].
        { destruct Hm as (_ & _ & R). congruence. }
        destruct Hm as [Hl Hf].
        by pose proof (pass_never_rethrows h q w _ _ _ _ Hl Hf _ Hthrow).
Qed.


Lemma demo_store_sorted : StronglySorted Z.lt (rows (store demo_world)).*1.
Proof. simpl. repeat constructor; lia. Qed.

Lemma demo_store_keys : NoDup (rows (store demo_world)).*1.
Proof. apply StronglySorted_lt_NoDup, demo_store_sorted. Qed.

Lemma demo_read :
  (read_queue demo_host demo_queue demo_world).1 = Ok demo_items.
Proof. vm_compute. reflexivity. Qed.


Lemma replay_pass_outcome_witness :
  NoDup (rows (store demo_world)).*1 /\
  (read_queue demo_host demo_queue demo_world).1 = Ok demo_items /\
  demo_items <> [] /\
  ~ Forall (replayed_in (events (replayRequests demo_host demo_queue) demo_world))
      demo_items /\
  Forall (fun ev => is_callback "allRequestsDidReplay" ev = false)
    (events (replayRequests demo_host demo_queue) demo_world).
Proof.
  assert (demo_items <> []) as Hne by done.
  assert (~ Forall (replayed_in
                      (events (replayRequests demo_host demo_queue) demo_world))
              demo_items) as Hnot.
  { unfold demo_items. intros HF.
    apply Forall_cons in HF as [_ HF]. apply Forall_cons in HF as [[_ Hd] _].
    simpl in Hd. apply deleted_keys_event in Hd.
    assert (deleted_keys (events (replayRequests demo_host demo_queue) demo_world)
            = [1; 2]) as Heq by (vm_compute; reflexivity).
    rewrite Heq in Hd.
    repeat (apply elem_of_cons in Hd as [[=]|Hd]). by apply elem_of_nil in Hd. }
  split; [exact demo_store_keys|]. split; [exact demo_read|].
  split; [exact Hne|]. split; [exact Hnot|].
  exact (proj1 (proj2 (replay_pass_outcome demo_host demo_queue demo_world
                         demo_items demo_store_keys demo_read Hne) Hnot)).
Defined.

(** C2, as stated, fails: the replay of [/b] fails, [replayDidFail] throws,
    the pass rejects, and no sync registration is asked for or parked. *)
Lemma failed_pass_without_rescheduling :
  (read_queue demo_host failing_queue demo_world).1 = Ok demo_items /\
  events (replayRequests demo_host failing_queue) demo_world !! 8%nat
    = Some (EvFetch 2%nat (replayed "/b") false) /\
  (replayRequests demo_host failing_queue demo_world).1 = Throw CallbackError /\
  existsb is_registration
    (events (replayRequests demo_host failing_queue) demo_world) = false /\
  parked (replayRequests demo_host failing_queue demo_world).2 = [].
Proof. vm_compute. repeat split. Qed.

Lemma failed_replay_is_contained_witness :
  (3, 2%nat) ∈ demo_items /\
  EvFetch 2%nat (replayed "/b") false
    ∈ events (replayRequests demo_host demo_queue) demo_world /\
  exists e, (3, e) ∈ rows (store demo_world) /\
            (3, e) ∈ rows (store (replayRequests demo_host demo_queue demo_world).2).
Proof.
  assert ((3, 2%nat) ∈ demo_items) as Hitem
    by (apply (list_elem_of_lookup_2 _ 1%nat); reflexivity).
  assert (EvFetch 2%nat (replayed "/b") false
            ∈ events (replayRequests demo_host demo_queue) demo_world) as Hfetch
    by (apply (list_elem_of_lookup_2 _ 8%nat); vm_compute; reflexivity).
  split; [exact Hitem|]. split; [exact Hfetch|].
  exact (proj1 (proj2 (failed_replay_is_contained demo_host demo_queue demo_world
                         demo_items 3 2%nat (replayed "/b")
                         demo_store_keys demo_read Hitem Hfetch))).
Defined.

(** C3, as stated, fails: the replay of [/a] fails, [replayDidFail] throws,
    and the pass stops there: the entry for [/b] is never attempted and
    [replayRequests] rejects. *)
Lemma failed_replay_can_end_the_pass :
  (read_queue no_a_host failing_queue demo_world).1 = Ok demo_items /\
  events (replayRequests no_a_host failing_queue) demo_world !! 5%nat
    = Some (EvFetch 1%nat (replayed "/a") false) /\
  last (events (replayRequests no_a_host failing_queue) demo_world)
    = Some (EvCallback "replayDidFail" (ArgRequest 1%nat) true) /\
  fetches 2%nat (events (replayRequests no_a_host failing_queue) demo_world)
    = 0%nat /\
  (replayRequests no_a_host failing_queue demo_world).1 = Throw CallbackError.
Proof. vm_compute. repeat split. Qed.

Lemma expired_entry_is_purged_witness :
  (1, order "/old" 0) ∈ rows (store demo_world) /\
  now demo_world - StorableRequest.o_timestamp (storableRequest (order "/old" 0))
    > _maxRetentionTime demo_queue /\
  EvStore (OpDelete 1) true
    ∈ events (replayRequests demo_host demo_queue) demo_world /\
  1 ∉ (rows (store (replayRequests demo_host demo_queue demo_world).2)).*1.
Proof.
  assert ((1, order "/old" 0) ∈ rows (store demo_world)) as Hin
    by (apply (list_elem_of_lookup_2 _ 0%nat); reflexivity).
  assert (now demo_world
          - StorableRequest.o_timestamp (storableRequest (order "/old" 0))
          > _maxRetentionTime demo_queue) as Hage by (simpl; lia).
  assert (EvStore (OpDelete 1) true
            ∈ events (replayRequests demo_host demo_queue) demo_world) as Hdel
    by (apply (list_elem_of_lookup_2 _ 4%nat); vm_compute; reflexivity).
  split; [exact Hin|]. split; [exact Hage|]. split; [exact Hdel|].
  exact (proj2 (proj1 (proj2 (proj2 (proj2
           (expired_entry_is_purged demo_host demo_queue demo_world
              demo_items 1 (order "/old" 0)
              demo_store_keys demo_read Hin eq_refl Hage))))) Hdel).
Defined.

(** C4, as stated, fails: the store rejects the delete of the expired
    entry; the pass returns normally and the entry is still in the store.
    It is also still there when the host lets the removal, which nobody
    waits for, wait. *)
Lemma expired_entry_can_survive_the_pass :
  events (replayRequests no_purge_host demo_queue) demo_world !! 4%nat
    = Some (EvStore (OpDelete 1) false) /\
  (replayRequests no_purge_host demo_queue demo_world).1 = Ok tt /\
  (rows (store (replayRequests no_purge_host demo_queue demo_world).2)).*1
    = [1] /\
  (replayRequests slow_host demo_queue demo_world).1 = Ok tt /\
  (rows (store (replayRequests slow_host demo_queue demo_world).2)).*1 = [1].
Proof. vm_compute. repeat split. Qed.

Lemma throwing_requestDidReplay_witness :
  EvCallback "requestDidReplay" (ArgRequest 1%nat) true
    ∈ events (replayRequests demo_host throwing_queue) demo_world /\
  exists req,
    EvFetch 1%nat req true
      ∈ events (replayRequests demo_host throwing_queue) demo_world.
Proof.
  assert ((read_queue demo_host throwing_queue demo_world).1 = Ok demo_items)
    as Hread by (vm_compute; reflexivity).
  assert ((2, 1%nat) ∈ demo_items) as Hitem
    by (apply (list_elem_of_lookup_2 _ 0%nat); reflexivity).
  assert (EvCallback "requestDidReplay" (ArgRequest 1%nat) true
            ∈ events (replayRequests demo_host throwing_queue) demo_world) as Hdid
    by (apply (list_elem_of_lookup_2 _ 6%nat); vm_compute; reflexivity).
  split; [exact Hdid|].
  exact (proj1 (throwing_requestDidReplay_is_a_failure demo_host throwing_queue
                  demo_world demo_items 2 1%nat
                  demo_store_keys Hread Hitem Hdid)).
Defined.

Lemma requestWillQueue_witness :
  _callbacks (orders {[ "requestWillQueue" := VFunction rewrite_now ]})
    !! "requestWillQueue" = Some (VFunction rewrite_now) /\
  StorableRequest.fromRequest (now fresh_world) original = Some original_snapshot /\
  EvStore (OpAdd rewritten_order) true
    ∈ events (addRequest demo_host
                (orders {[ "requestWillQueue" := VFunction rewrite_now ]}) original)
        fresh_world /\
  StorableRequest.o_url (storableRequest rewritten_order) = "/rewritten".
Proof.
  set (q := orders {[ "requestWillQueue" := VFunction rewrite_now ]}).
  assert (_callbacks q !! "requestWillQueue" = Some (VFunction rewrite_now)) as Hcb
    by (vm_compute; reflexivity).
  assert (StorableRequest.fromRequest (now fresh_world) original
          = Some original_snapshot) as Hfrom by reflexivity.
  assert (EvStore (OpAdd rewritten_order) true
            ∈ events (addRequest demo_host q original) fresh_world) as Hadd
    by (apply (list_elem_of_lookup_2 _ 2%nat); vm_compute; reflexivity).
  split; [exact Hcb|]. split; [exact Hfrom|]. split; [exact Hadd|].
  rewrite (proj2 (requestWillQueue_runs_before_persistence demo_host q original
                    fresh_world rewrite_now original_snapshot rewritten_order true
                    Hcb eq_refl Hfrom Hadd)).
  reflexivity.
Defined.

(** C5, as stated, fails: the continuation of an asynchronous
    [requestWillQueue] rewrites the URL of the snapshot, the call returns
    normally, and the entry in the store still has the original URL. *)
Lemma requestWillQueue_async_mutation_is_lost :
  (addRequest demo_host async_queue original fresh_world).1 = Ok tt /\
  events (addRequest demo_host async_queue original) fresh_world !! 0%nat
    = Some (EvCallback "requestWillQueue" (ArgRequest 0%nat) false) /\
  StorableRequest.url
    (heap (addRequest demo_host async_queue original fresh_world).2 0%nat)
    = "/rewritten" /\
  (fun row => StorableRequest.o_url (storableRequest row.2))
    <$> rows (store (addRequest demo_host async_queue original fresh_world).2)
    = ["/original"].
Proof. vm_compute. repeat split. Qed.

(** C6, as stated, fails: the store rejects the delete that follows a
    successful replay, and [replayRequests] returns normally. *)
Lemma delete_failure_is_not_propagated :
  events (replayRequests no_delete_host demo_queue) demo_world !! 7%nat
    = Some (EvStore (OpDelete 2) false) /\
  (replayRequests no_delete_host demo_queue demo_world).1 = Ok tt /\
  (rows (store (replayRequests no_delete_host demo_queue demo_world).2)).*1
    = [1; 2; 3].
Proof. vm_compute. repeat split. Qed.

Lemma store_failures_witness :
  EvStore (OpAdd (Build_Entry "orders" (StorableRequest.toObject original_snapshot)))
      false
    ∈ events (addRequest no_add_host demo_queue original) fresh_world /\
  (addRequest no_add_host demo_queue original fresh_world).1 = Throw StorageFailure.
Proof.
  assert (EvStore (OpAdd (Build_Entry "orders"
                            (StorableRequest.toObject original_snapshot))) false
            ∈ events (addRequest no_add_host demo_queue original) fresh_world) as Hin
    by (apply (list_elem_of_lookup_2 _ 1%nat); vm_compute; reflexivity).
  split; [exact Hin|].
  exact (proj1 (proj1 (store_failures_and_the_caller no_add_host demo_queue
                         fresh_world) original) _ Hin).
Defined.

Lemma storable_request_round_trip_witness :
  StorableRequest.permits_body (StorableRequest.req_method original) = true /\
  StorableRequest.fromRequest 1000 original = Some original_snapshot /\
  StorableRequest.req_body
    (StorableRequest.toRequest
       (StorableRequest.fromObject (StorableRequest.toObject original_snapshot)))
    = StorableRequest.req_body original.
Proof.
  split; [reflexivity|]. split; [reflexivity|].
  exact (proj2 (proj2 (proj2 (proj1 (proj2 storable_request_round_trip)
                                1000 original original_snapshot eq_refl eq_refl)))).
Defined.


(** * Further properties of the queue *)

(** ** Registering a sync, replaying one request, adding a request *)


(** X16: [_registerSync] never rejects and never touches the store.  With
    the worker active it asks the sync manager once, for the tag of its
    queue; the tag is registered if the manager accepts, and a refusal
    (always the case without background sync) is swallowed.  With the
    worker not active it asks nothing: the call stays suspended, parked
    until it can start over. *)
Theorem registerSync_never_rejects (h : Host) (q : Queue) (w : World) :
  let w' := (_registerSync h q w).2 in
  let evs := events (_registerSync h q) w in
  (forall err, (_registerSync h q w).1 <> Throw err) /\
  store w' = store w /\
  if worker_active h (step w) then
    parked w' = parked w /\
    exists ok,
      evs = [EvRegisterSync (sync_tag q) ok] /\
      sync_tags w' = (if ok then sync_tags w ++ [sync_tag q] else sync_tags w) /\
      (sync_supported h = false -> ok = false)
  else
    evs = [] /\ sync_tags w' = sync_tags w /\
    parked w' = parked w ++ [TRegister q].
Proof.
  intros w' evs. unfold w', evs. clear w' evs. unfold events.
  rewrite registerSync_unfold. cbv zeta.
  destruct (worker_active h (step w)); cbn [fst snd].
  - set (ok := sync_supported h && sync_ok h (step (tick w)) (sync_tag q)).
    split; [done|]. split; [by destruct ok|]. split; [by destruct ok|].
    exists ok. split; [|split].
    + destruct ok; simpl; by rewrite drop_app_length.
    + by destruct ok.
    + unfold ok. by intros ->.
  - split; [done|]. split; [done|]. simpl. by rewrite drop_all.
Qed.

Lemma same_store (s s' : Store) :
  rows s' = rows s -> next_key s' = next_key s -> s' = s.
Proof. destruct s, s'. simpl. by intros -> ->. Qed.

Lemma filter_key_singleton (key : Key) (l : list (Key * Entry)) :
  filter (fun row => row.1 ∉ [key]) l = filter (fun row => row.1 ≠ key) l.
Proof. apply list_filter_iff. intros row. set_solver. Qed.

(** X5: [_replayRequest] returns [true] exactly when its delete went
    through: then the entry is gone from the store, its fetch succeeded and
    nothing failed on the way; in every other case the store is as it was. *)
Theorem replay_succeeds_exactly_when_the_entry_is_deleted
    (h : Host) (q : Queue) (key : Key) (l : loc) (w : World) :
  let evs := events (_replayRequest h q key l) w in
  let res := (_replayRequest h q key l w).1 in
  let w' := (_replayRequest h q key l w).2 in
  (res = Ok true <-> EvStore (OpDelete key) true ∈ evs) /\
  (res = Ok true ->
   store w' = store_delete key (store w) /\
   (exists req, EvFetch l req true ∈ evs) /\
   Forall (fun ev => failure_event ev = false) evs) /\
  (res <> Ok true -> store w' = store w).
Proof.
  intros evs res w'.
  pose proof (replayRequest_attempt h q key l w) as Ha. cbv beta in Ha.
  fold evs res in Ha.
  destruct (purges_replayRequest h q key l w) as [Hnext (ext & T & R)].
  apply events_ext in T. fold evs in T. subst ext. fold w' in Hnext, R.
  pose proof (attempt_deleted _ _ _ _ _ Ha) as Hd.
  split; [|split].
  - rewrite <- deleted_keys_event, Hd. split.
    + intros ->. set_solver.
    + intros Hin. destruct res as [[]|]; set_solver.
  - intros Hres. rewrite Hres in Ha, Hd. split; [|split].
    + apply same_store; [|done]. rewrite R, Hd. simpl.
      apply filter_key_singleton.
    + inversion Ha as [e Ht| |]; subst. inversion Ht; subst.
      eexists. apply elem_of_app. right. left.
    + by eapply attempt_replayed_clean.
  - intros Hres. apply same_store; [|done]. rewrite R.
    assert (deleted_keys evs = []) as -> by (destruct res as [[]|]; done).
    apply filter_all. intros row _. set_solver.
Qed.

Lemma events_bind_prefix {A B} (m : M A) (f : A -> M B) (w : World) :
  tracing m -> (forall a, tracing (f a)) ->
  exists rest, events (bind m f) w = events m w ++ rest.
Proof.
  intros Tm Tf. destruct (m w).1 as [a|e] eqn:Hm.
  - destruct (bind_ok m f w a Tm Tf Hm) as (-> & _). eauto.
  - destruct (bind_throw m f w e Hm) as (-> & _). exists []. by rewrite app_nil_r.
Qed.

Lemma events_try_prefix {A} (m : M A) (f : Error -> M A) (w : World) :
  tracing m -> (forall e, tracing (f e)) ->
  exists rest, events (try_catch m f) w = events m w ++ rest.
Proof.
  intros Tm Tf. destruct (m w).1 as [a|e] eqn:Hm.
  - destruct (try_catch_ok m f w a Hm) as (-> & _). exists []. by rewrite app_nil_r.
  - destruct (try_catch_throw m f w e Tm Tf Hm) as (-> & _). eauto.
Qed.

Lemma runCallback_function (q : Queue) (name : string) (arg : Arg)
    (f : JsFunction) (w : World) :
  _callbacks q !! name = Some (VFunction f) ->
  let r := f arg (heap w) in
  let w1 := emit (EvCallback name arg (run_threw r))
              (set_jobs (jobs w ++ run_later r) (set_heap (run_heap r) w)) in
  _runCallback q name arg w =
    (if run_threw r then Throw CallbackError else Ok tt, w1) /\
  events (_runCallback q name arg) w = [EvCallback name arg (run_threw r)].
Proof.
  intros Hcb r w1. unfold events, _runCallback. rewrite Hcb. fold r. fold w1.
  destruct (run_threw r); simpl; by rewrite drop_app_length.
Qed.

Lemma fetch_events (h : Host) (l : loc) (w : World) :
  let req := StorableRequest.toRequest (heap w l) in
  events (fetch h l) w = [EvFetch l req (fetch_ok h (step w) req)].
Proof.
  intros req. unfold events, fetch. fold req.
  destruct (fetch_ok h (step w) req); simpl; by rewrite drop_app_length.
Qed.

(** X6: the request that is fetched is built from the snapshot as
    [requestWillReplay] left it when it returned; what the callback does
    later, in a continuation, comes too late for the fetch. *)
Theorem requestWillReplay_shapes_the_fetch (h : Host) (q : Queue)
    (key : Key) (l : loc) (w : World) (f : JsFunction) :
  _callbacks q !! "requestWillReplay" = Some (VFunction f) ->
  run_threw (f (ArgRequest l) (heap w)) = false ->
  exists ok rest,
    events (_replayRequest h q key l) w =
      EvCallback "requestWillReplay" (ArgRequest l) false ::
      EvFetch l (StorableRequest.toRequest
                   (run_heap (f (ArgRequest l) (heap w)) l)) ok :: rest.
Proof.
  intros Hcb Hthrew.
  destruct (runCallback_function q _ (ArgRequest l) f w Hcb) as [Hrun Hev].
  cbv zeta in Hrun, Hev. rewrite Hthrew in Hrun, Hev.
  set (w1 := emit _ _) in Hrun.
  set (rest2 := fun _ : unit =>
     _runCallback q "requestDidReplay" (ArgRequest l) ;;;
     await (_removeRequest h q key) ;;; ret true).
  set (rest1 := fun _ : unit => bind (await (fetch h l)) rest2).
  set (handler := fun _ : Error =>
     _runCallback q "replayDidFail" (ArgRequest l) ;;; ret false).
  change (_replayRequest h q key l) with
    (try_catch (bind (_runCallback q "requestWillReplay" (ArgRequest l)) rest1)
       handler).
  assert (forall u, tracing (rest2 u)) as T2 by (intros; unfold rest2; tracing_auto).
  assert (forall u, tracing (rest1 u)) as T1 by (intros; unfold rest1, rest2; tracing_auto).
  edestruct (events_try_prefix
    (bind (_runCallback q "requestWillReplay" (ArgRequest l)) rest1) handler)
    as [r1 ->]; [tracing_auto; apply T1|intros; unfold handler; tracing_auto|].
  destruct (bind_ok (_runCallback q "requestWillReplay" (ArgRequest l)) rest1 w tt)
    as (-> & _); [tracing_auto|exact T1|by rewrite Hrun|].
  rewrite Hev, Hrun. cbn [snd]. unfold rest1 at 1.
  destruct (events_bind_prefix (await (fetch h l)) rest2 w1) as [r2 ->];
    [tracing_auto|exact T2|].
  destruct (await_run (fetch h l) w1) as (-> & _).
  rewrite fetch_events. simpl. eauto.
Qed.

(** X7: when [requestWillReplay] throws, nothing is fetched and nothing is
    asked of the store: [replayDidFail] is the only other callback that can
    run, the attempt counts as failed (or rejects, if [replayDidFail] throws
    too), and the store is as it was. *)
Theorem throwing_requestWillReplay_skips_the_fetch (h : Host) (q : Queue)
    (key : Key) (l : loc) (w : World) (f : JsFunction) :
  _callbacks q !! "requestWillReplay" = Some (VFunction f) ->
  run_threw (f (ArgRequest l) (heap w)) = true ->
  exists tail threw,
    events (_replayRequest h q key l) w =
      EvCallback "requestWillReplay" (ArgRequest l) true :: tail /\
    hook_run q "replayDidFail" (ArgRequest l) tail threw /\
    (_replayRequest h q key l w).1 =
      (if threw then Throw CallbackError else Ok false) /\
    store (_replayRequest h q key l w).2 = store w.
Proof.
  intros Hcb Hthrew.
  destruct (runCallback_function q _ (ArgRequest l) f w Hcb) as [Hrun Hev].
  cbv zeta in Hrun, Hev. rewrite Hthrew in Hrun, Hev.
  set (w1 := emit _ _) in Hrun.
  set (body := (_runCallback q "requestWillReplay" (ArgRequest l) ;;;
     await (fetch h l) ;;;
     _runCallback q "requestDidReplay" (ArgRequest l) ;;;
     await (_removeRequest h q key) ;;; ret true)).
  set (handler := fun _ : Error =>
     _runCallback q "replayDidFail" (ArgRequest l) ;;; ret false).
  change (_replayRequest h q key l) with (try_catch body handler).
  edestruct (bind_throw (_runCallback q "requestWillReplay" (ArgRequest l))
               (fun _ => await (fetch h l) ;;;
                  _runCallback q "requestDidReplay" (ArgRequest l) ;;;
                  await (_removeRequest h q key) ;;; ret true) w CallbackError)
    as (Eb & Rb & Wb); [by rewrite Hrun|].
  fold body in Eb, Rb, Wb. rewrite Hev in Eb. rewrite Hrun in Wb. cbn [snd] in Wb.
  edestruct (try_catch_throw body handler w CallbackError)
    as (Et & Rt & Wt); [unfold body; tracing_auto|intros; unfold handler; tracing_auto|exact Rb|].
  rewrite Et, Rt, Wt, Eb, Wb. clear Et Rt Wt.
  pose proof (runCallback_hook q "replayDidFail" (ArgRequest l) w1)
    as (threw & Hh & Hr).
  assert (store (handler CallbackError w1).2 = store w) as Hstore.
  { unfold handler, bind, _runCallback.
    destruct (_callbacks q !! "replayDidFail") as [[g|]|]; try done.
    by destruct (run_threw (g _ _)). }
  exists (events (handler CallbackError) w1), threw.
  split; [done|].
  unfold handler in *.
  destruct threw.
  - edestruct (bind_throw (_runCallback q "replayDidFail" (ArgRequest l))
                 (fun _ => ret false) w1 CallbackError) as (-> & -> & _); [done|].
    done.
  - edestruct (bind_ok (_runCallback q "replayDidFail" (ArgRequest l))
                 (fun _ => ret false) w1 tt) as (-> & -> & _);
      [tracing_auto|intros; tracing_auto|done|].
    rewrite events_ret, app_nil_r. done.
Qed.

Lemma runCallback_store (q : Queue) (name : string) (arg : Arg) (w : World) :
  store (_runCallback q name arg w).2 = store w /\
  sync_tags (_runCallback q name arg w).2 = sync_tags w /\
  step (_runCallback q name arg w).2 = step w /\
  exists e1, trace (_runCallback q name arg w).2 = trace w ++ e1 /\
             Forall (fun ev => is_store_event ev = false) e1.
Proof.
  unfold _runCallback. destruct (_callbacks q !! name) as [[f|]|].
  - destruct (run_threw (f arg (heap w))); simpl; repeat split; try done;
      eexists; (split; [done|]); by repeat constructor.
  - repeat split; try done. exists []. by rewrite app_nil_r.
  - repeat split; try done. exists []. by rewrite app_nil_r.
Qed.

Lemma addRequest_store (h : Host) (q : Queue) (request : Request) (w : World) :
  match (addRequest h q request w).1 with
  | Ok _ =>
      exists e, queueName e = _name q /\
        store (addRequest h q request w).2 = store_add e (store w) /\
        EvStore (OpAdd e) true ∈ events (addRequest h q request) w
  | Throw _ => store (addRequest h q request w).2 = store w
  end.
Proof.
  assert (tracing (addRequest h q request)) as T by apply moves_addRequest.
  pose proof (trace_events _ w T) as Htrace. revert Htrace.
  generalize (events (addRequest h q request) w) as evs. intros evs.
  unfold addRequest, bind, await, StorableRequest_fromRequest.
  destruct (StorableRequest.fromRequest (now w) request) as [s|]; [|done].
  unfold alloc. cbn [fst snd].
  set (w1 := tick _).
  assert (store w1 = store w /\ trace w1 = trace w) as [Hs1 Ht1] by done.
  clearbody w1.
  destruct (runCallback_store q "requestWillQueue" (ArgRequest (fresh w)) w1)
    as (Hs2 & _ & _ & e1 & Ht2 & _).
  destruct (_runCallback q "requestWillQueue" (ArgRequest (fresh w)) w1)
    as [[[]|err] w2]; cbn [fst snd] in *; [|congruence].
  rewrite Hs1 in Hs2. rewrite Ht1 in Ht2. clear Hs1 Ht1 w1.
  unfold _getDb, getDB, store_request.
  destruct (store_ok h (step w2) OpOpen); cbn [fst snd]; [|done].
  unfold read, db_add, store_request. cbn [fst snd heap tick set_jobs set_heap step advance emit set_store store].
  set (entry := Build_Entry _ _).
  destruct (store_ok h (S (step w2)) (OpAdd entry)); cbn [fst snd]; [|done].
  rewrite detach_ok. cbn [fst snd].
  match goal with
  | |- context [detach h ?t ?m ?w0] =>
      destruct (detach_registerSync h q w0) as [Hs3 _];
      assert (tracing (detach h t m)) as T3 by tracing_auto;
      pose proof (trace_events _ w0 T3) as Ht3;
      revert Hs3 Ht3;
      generalize (events (detach h t m) w0) as reg;
      generalize (detach h t m w0).2 as w3
  end.
  cbv zeta. simpl. intros w3 reg Hs3 Ht3 Htrace.
  exists entry. split; [done|]. split.
  - by rewrite Hs3, Hs2.
  - assert (evs = e1 ++ [EvStore OpOpen true; EvStore (OpAdd entry) true]
                     ++ reg) as ->.
    { apply (app_inv_head (trace w)). rewrite <- Htrace, Ht3, Ht2.
      by rewrite <- !app_assoc. }
    set_solver.
Qed.

Lemma runCallback_parked (q : Queue) (name : string) (arg : Arg) (w : World) :
  parked (_runCallback q name arg w).2 = parked w.
Proof.
  unfold _runCallback. destruct (_callbacks q !! name) as [[f|]|]; try done.
  by destruct (run_threw (f arg (heap w))).
Qed.

(** What [addRequest] leaves behind: on a rejection nothing; else the new
    row, and the registration of the sync, which was asked for or is
    parked. *)
Lemma addRequest_outcome (h : Host) (q : Queue) (request : Request) (w : World) :
  let w' := (addRequest h q request w).2 in
  let evs := events (addRequest h q request) w in
  match (addRequest h q request w).1 with
  | Ok _ =>
      exists e before reg,
        queueName e = _name q /\
        store w' = store_add e (store w) /\
        evs = before ++ EvStore (OpAdd e) true :: reg /\
        ((exists ok, reg = [EvRegisterSync (sync_tag q) ok]) /\
         parked w' = parked w \/
         reg = [] /\ parked w' = parked w ++ [TRegister q])
  | Throw _ => store w' = store w /\ parked w' = parked w
  end.
Proof.
  intros w' evs. unfold w', evs. clear w' evs.
  assert (tracing (addRequest h q request)) as T by apply moves_addRequest.
  pose proof (trace_events _ w T) as Htrace. revert Htrace.
  generalize (events (addRequest h q request) w) as evs. intros evs.
  unfold addRequest, bind, await, StorableRequest_fromRequest.
  destruct (StorableRequest.fromRequest (now w) request) as [s|]; [|done].
  unfold alloc. cbn [fst snd].
  set (w1 := tick _).
  assert (store w1 = store w /\ trace w1 = trace w /\ parked w1 = parked w)
    as (Hs1 & Ht1 & Hp1) by done.
  clearbody w1.
  destruct (runCallback_store q "requestWillQueue" (ArgRequest (fresh w)) w1)
    as (Hs2 & _ & _ & e1 & Ht2 & _).
  pose proof (runCallback_parked q "requestWillQueue" (ArgRequest (fresh w)) w1)
    as Hp2.
  destruct (_runCallback q "requestWillQueue" (ArgRequest (fresh w)) w1)
    as [[[]|err] w2]; cbn [fst snd] in *; [|split; congruence].
  rewrite Hs1 in Hs2. rewrite Ht1 in Ht2. rewrite Hp1 in Hp2. clear Hs1 Ht1 Hp1 w1.
  unfold _getDb, getDB, store_request.
  destruct (store_ok h (step w2) OpOpen); cbn [fst snd]; [|done].
  unfold read, db_add, store_request. cbn [fst snd heap tick set_jobs set_heap step advance emit set_store store].
  set (entry := Build_Entry _ _).
  destruct (store_ok h (S (step w2)) (OpAdd entry)); cbn [fst snd]; [|done].
  rewrite detach_ok. cbn [fst snd].
  match goal with
  | |- context [detach h ?t ?m ?w0] =>
      destruct (detach_registerSync h q w0) as [Hs3 Hreg];
      assert (tracing (detach h t m)) as T3 by tracing_auto;
      pose proof (trace_events _ w0 T3) as Ht3;
      revert Hs3 Ht3 Hreg;
      generalize (events (detach h t m) w0) as reg;
      generalize (detach h t m w0).2 as w3
  end.
  cbv zeta. simpl. intros w3 reg Hs3 Ht3 Hreg Htrace.
  exists entry, (e1 ++ [EvStore OpOpen true]), reg.
  split; [done|]. split; [by rewrite Hs3, Hs2|]. split.
  - apply (app_inv_head (trace w)). rewrite <- Htrace, Ht3, Ht2.
    by rewrite <- !app_assoc.
  - rewrite <- Hp2. exact Hreg.
Qed.

(** X14: [addRequest] either returns normally, and then exactly one entry
    under the queue's name has been appended to the store and, after that,
    the registration of a sync was started and not awaited: the sync
    manager was asked for the queue's tag as the last event, or the call
    is parked; or [addRequest] rejects, and then the store is as it was,
    no registration was asked for and none is parked.  Once a registration
    is asked for, its outcome no longer matters. *)
Theorem addRequest_is_all_or_nothing (h : Host) (q : Queue)
    (request : Request) (w : World) :
  let evs := events (addRequest h q request) w in
  let res := (addRequest h q request w).1 in
  let w' := (addRequest h q request w).2 in
  (res = Ok tt ->
   exists e before reg, queueName e = _name q /\
     store w' = store_add e (store w) /\
     evs = before ++ EvStore (OpAdd e) true :: reg /\
     ((exists ok, reg = [EvRegisterSync (sync_tag q) ok]) /\
      parked w' = parked w \/
      reg = [] /\ parked w' = parked w ++ [TRegister q])) /\
  (res <> Ok tt ->
   store w' = store w /\ parked w' = parked w /\
   Forall (fun ev => forall t ok, ev <> EvRegisterSync t ok) evs) /\
  (forall ok, EvRegisterSync (sync_tag q) ok ∈ evs -> res = Ok tt).
Proof.
  intros evs res w'.
  pose proof (addRequest_outcome h q request w) as Hout.
  pose proof (addRequest_run h q request w) as Hrun. cbv beta zeta in Hout, Hrun.
  fold evs res w' in Hout, Hrun.
  split; [|split].
  - intros Hres. rewrite Hres in Hout. exact Hout.
  - intros Hres.
    assert (store w' = store w /\ parked w' = parked w) as [Hs Hp].
    { destruct res as [[]|err]; done. }
    split; [done|]. split; [done|].
    destruct Hrun as [[-> _]|[l Hrun]]; [constructor|].
    destruct Hrun as [e1 Hh|e1 Hh|e1 entry Hh|e1 entry ok Hh|e1 entry Hh];
      try done; inversion Hh; subst; each_event; done.
  - intros ok Hin.
    destruct Hrun as [[E _]|[l Hrun]]; [rewrite E in Hin; by apply elem_of_nil in Hin|].
    destruct Hrun as [e1 Hh|e1 Hh|e1 entry Hh|e1 entry ok' Hh|e1 entry Hh];
      try done; inversion Hh; subst; in_list.
Qed.

(** X15: when [requestWillQueue] throws, [addRequest] rejects with the
    callback's failure and the call of the callback is its only event: the
    store is not asked anything and holds what it held. *)
Theorem throwing_requestWillQueue_prevents_queuing (h : Host) (q : Queue)
    (request : Request) (w : World) (l : loc) :
  EvCallback "requestWillQueue" (ArgRequest l) true
    ∈ events (addRequest h q request) w ->
  events (addRequest h q request) w =
    [EvCallback "requestWillQueue" (ArgRequest l) true] /\
  (addRequest h q request w).1 = Throw CallbackError /\
  store (addRequest h q request w).2 = store w.
Proof.
  intros Hin.
  pose proof (addRequest_store h q request w) as Hstore.
  pose proof (addRequest_run h q request w) as Hrun. cbv beta in Hrun.
  revert Hin Hstore Hrun.
  generalize (events (addRequest h q request) w) as evs.
  generalize (addRequest h q request w).1 as res.
  intros res evs Hin Hstore Hrun.
  destruct Hrun as [[-> _]|[l' Hrun]]; [by apply elem_of_nil in Hin|].
  destruct Hrun as [e1 Hh|e1 Hh|e1 entry Hh|e1 entry ok' Hh|e1 entry Hh];
    inversion Hh; subst; in_list.
Qed.

(** ** What a pass does and does not do *)

(** How a pass can go: the store fails before the entries have been read,
    or the entries are read and the pass is as [pass_summary] has it. *)
Lemma pass_cases (h : Host) (q : Queue) (w : World) :
  (exists fails,
     events (replayRequests h q) w = EvReplay (_name q) :: fails /\
     (fails = [EvStore OpOpen false] \/
      fails = [EvStore OpOpen true; EvStore OpGetAll false]) /\
     (replayRequests h q w).1 = Throw StorageFailure) \/
  (exists items, (read_queue h q w).1 = Ok items).
Proof.
  destruct (pass_anatomy h q w) as [Hshape Hrest]. cbv zeta in Hshape, Hrest.
  fold (read_queue h q w) in Hshape, Hrest.
  destruct Hshape as [[Er Rr]|[[Er Rr]|(items & read & Er & Rr & Hc)]];
    rewrite Rr in Hrest.
  - left. destruct Hrest as (E & R & _). rewrite Er in E. eauto 6.
  - left. destruct Hrest as (E & R & _). rewrite Er in E. eauto 6.
  - right. eauto.
Qed.

Lemma empty_pass_events (h : Host) (q : Queue) (w : World) :
  Forall (fun row => queueName row.2 = _name q ->
                     expired q (now w) row.2 = true) (rows (store w)) ->
  (exists evs,
     events (replayRequests h q) w = EvReplay (_name q) :: evs /\
     Forall (fun ev => is_store_event ev = true) evs) /\
  ((replayRequests h q w).1 = Ok tt \/
   (replayRequests h q w).1 = Throw StorageFailure).
Proof.
  intros Hrows.
  destruct (pass_cases h q w) as [(fails & E & Hf & R)|[items Hread]].
  { split; [|by right]. exists fails. split; [done|].
    destruct Hf as [->| ->]; by repeat constructor. }
  destruct (pass_summary h q w items Hread)
    as (read & blocks & tail & E & Hc & Hm & _).
  assert (items = []) as ->.
  { destruct items as [|[k l] rest]; [done|]. exfalso.
    destruct (collect_items _ _ _ _ _ k l Hc) as (e & Hin & Hq & Hexp); [left|].
    rewrite Forall_forall in Hrows. specialize (Hrows _ Hin Hq). simpl in Hrows.
    congruence. }
  destruct Hm as (-> & -> & R). split; [|by left].
  eexists. split; [exact E|]. rewrite !app_nil_r.
  repeat (apply Forall_cons_2; [done|]). eapply collect_events; eauto.
Qed.

(** X1: when the store holds no entry of the queue that is still within its
    retention time, a pass only talks to the store: after the event that
    marks its start every event is a store request (no callback is invoked,
    nothing is fetched, no sync is registered), and the pass returns
    normally or rejects with the store's failure. *)
Theorem pass_over_an_empty_queue (h : Host) (q : Queue) (w : World) :
  Forall (fun row => queueName row.2 = _name q ->
                     expired q (now w) row.2 = true) (rows (store w)) ->
  (exists evs,
     events (replayRequests h q) w = EvReplay (_name q) :: evs /\
     Forall (fun ev => is_store_event ev = true) evs) /\
  ((replayRequests h q w).1 = Ok tt \/
   (replayRequests h q w).1 = Throw StorageFailure).
Proof. apply empty_pass_events. Qed.

Lemma attempt_delete_after_fetch q key l e r k ok :
  attempt q key l e r -> EvStore (OpDelete k) ok ∈ e ->
  k = key /\
  exists req before after,
    e = before ++ EvFetch l req true :: after /\
    EvStore (OpDelete k) ok ∈ after.
Proof.
  intros Ha Hin.
  assert (k = key) as ->.
  { apply attempt_events in Ha. rewrite Forall_forall in Ha.
    specialize (Ha _ Hin). inversion Ha as [| | |ev Hrem|]; subst.
    by inversion Hrem. }
  split; [done|].
  inv_runs; simpl in Hin; try (exfalso; in_list; fail);
    first [ eexists _, [], _; split; [reflexivity|]
          | eexists _, [_], _; split; [reflexivity|] ];
    in_list.
Qed.

Lemma pass_delete_origin (h : Host) (q : Queue) (w : World) (key : Key)
    (ok : bool) :
  EvStore (OpDelete key) ok ∈ events (replayRequests h q) w ->
  exists e, (key, e) ∈ rows (store w) /\ queueName e = _name q /\
    (expired q (now w) e = true \/
     (expired q (now w) e = false /\
      exists items l req before after,
        (read_queue h q w).1 = Ok items /\ (key, l) ∈ items /\
        events (replayRequests h q) w = before ++ EvFetch l req true :: after /\
        EvStore (OpDelete key) ok ∈ after)).
Proof.
  intros Hin.
  destruct (pass_cases h q w) as [(fails & E & Hf & R)|[items Hread]].
  { exfalso. rewrite E in Hin. destruct Hf as [->| ->]; in_list. }
  destruct (pass_summary h q w items Hread)
    as (read & blocks & tail & E & Hc & Hm & _).
  rewrite E in Hin.
  do 3 (apply elem_of_cons in Hin as [[=]|Hin]).
  apply elem_of_app in Hin as [Hin|Hin].
  { destruct (collect_purged _ _ _ _ _ _ _ Hc Hin) as (e & He & Hq & Hexp).
    exists e. eauto. }
  destruct items as [|item rest] eqn:Hitems.
  { destruct Hm as (-> & -> & _). by apply elem_of_nil in Hin. }
  rewrite <- Hitems in *. clear Hitems. destruct Hm as [Hl Hf].
  apply elem_of_app in Hin as [Hin|Hin].
  2:{ destruct (finish_tail _ _ _ _ Hf) as [Ht _].
      rewrite Forall_forall in Ht. by specialize (Ht _ Hin). }
  apply elem_of_concat in Hin as (b & Hin & Hb).
  destruct (loop_owner _ _ _ _ _ _ _ Hl Hb) as (k' & l' & r & Hitem & Ha).
  destruct (attempt_delete_after_fetch _ _ _ _ _ _ _ Ha Hin)
    as (-> & req & before & after & -> & Hafter).
  destruct (collect_items _ _ _ _ _ _ _ Hc Hitem) as (e & He & Hq & Hexp).
  exists e. split; [done|]. split; [done|]. right. split; [done|].
  apply list_elem_of_split in Hb as (bs1 & bs2 & ->).
  exists items, l', req,
    (EvReplay (_name q) :: EvStore OpOpen true :: EvStore OpGetAll true ::
       read ++ concat bs1 ++ before),
    (after ++ concat bs2 ++ tail).
  split; [done|]. split; [done|]. split.
  - rewrite E, concat_app. simpl. by rewrite <- !app_assoc.
  - apply elem_of_app. by left.
Qed.

(** X2: a pass of one queue leaves the entries of the other queues where
    they are: such an entry is still in the store after the pass, and no
    delete is requested for its key. *)
Theorem other_queues_are_left_alone (h : Host) (q : Queue) (w : World)
    (key : Key) (e : Entry) :
  NoDup (rows (store w)).*1 ->
  (key, e) ∈ rows (store w) ->
  queueName e <> _name q ->
  (key, e) ∈ rows (store (replayRequests h q w).2) /\
  (forall ok, EvStore (OpDelete key) ok ∉ events (replayRequests h q) w).
Proof.
  intros Hkeys Hin Hq.
  assert (forall ok, EvStore (OpDelete key) ok ∉ events (replayRequests h q) w)
    as Hno.
  { intros ok Hdel.
    destruct (pass_delete_origin h q w key ok Hdel) as (e' & Hin' & Hq' & _).
    pose proof (NoDup_fst_agree _ _ _ _ Hkeys Hin Hin'). congruence. }
  split; [|exact Hno].
  destruct (purges_rows _ _ (purges_replayRequests h q w)) as (ext & T & R).
  apply events_ext in T. subst ext.
  rewrite R. apply list_elem_of_filter. split; [|done]. simpl.
  rewrite deleted_keys_event. apply Hno.
Qed.

(** X9: every delete a pass requests is for an entry of its own queue, and
    either the entry is past its retention time or the delete comes after a
    successful fetch of that entry's snapshot. *)
Theorem deletes_follow_expiry_or_success (h : Host) (q : Queue) (w : World)
    (key : Key) (ok : bool) :
  EvStore (OpDelete key) ok ∈ events (replayRequests h q) w ->
  exists e, (key, e) ∈ rows (store w) /\ queueName e = _name q /\
    (expired q (now w) e = true \/
     (expired q (now w) e = false /\
      exists items l req before after,
        (read_queue h q w).1 = Ok items /\ (key, l) ∈ items /\
        events (replayRequests h q) w = before ++ EvFetch l req true :: after /\
        EvStore (OpDelete key) ok ∈ after)).
Proof. apply pass_delete_origin. Qed.

(** X11: a pass adds nothing to the store: the rows after it are rows that
    were there before, in the same order, and the next key is unchanged. *)
Theorem a_pass_stores_nothing (h : Host) (q : Queue) (w : World) :
  rows (store (replayRequests h q w).2) `sublist_of` rows (store w) /\
  next_key (store (replayRequests h q w).2) = next_key (store w).
Proof.
  destruct (purges_replayRequests h q w) as [Hnext (ext & _ & R)].
  split; [|exact Hnext]. rewrite R. apply sublist_filter.
Qed.

(** X8: a [replayDidFail] callback that throws ends the pass: the call of
    the callback is the last event, [replayRequests] rejects, and neither
    [allRequestsDidReplay] nor a sync registration follows. *)
Theorem throwing_replayDidFail_aborts_the_pass (h : Host) (q : Queue)
    (w : World) (l : loc) :
  EvCallback "replayDidFail" (ArgRequest l) true
    ∈ events (replayRequests h q) w ->
  (replayRequests h q w).1 = Throw CallbackError /\
  (exists before,
     events (replayRequests h q) w =
       before ++ [EvCallback "replayDidFail" (ArgRequest l) true]) /\
  Forall (fun ev => after_loop ev = false) (events (replayRequests h q) w).
Proof.
  intros Hin.
  destruct (pass_cases h q w) as [(fails & E & Hf & R)|[items Hread]].
  { exfalso. rewrite E in Hin. destruct Hf as [->| ->]; in_list. }
  destruct (pass_summary h q w items Hread)
    as (read & blocks & tail & E & Hc & Hm & _).
  rewrite E in Hin |- *.
  do 3 (apply elem_of_cons in Hin as [[=]|Hin]).
  pose proof (collect_events _ _ _ _ _ Hc) as Hs.
  apply elem_of_app in Hin as [Hin|Hin].
  { rewrite Forall_forall in Hs. by specialize (Hs _ Hin). }
  destruct items as [|item rest] eqn:Hitems.
  { destruct Hm as (-> & -> & _). by apply elem_of_nil in Hin. }
  rewrite <- Hitems in *. clear Hitems. destruct Hm as [Hl Hf].
  apply elem_of_app in Hin as [Hin|Hin].
  2:{ destruct (finish_tail _ _ _ _ Hf) as [Ht _].
      rewrite Forall_forall in Ht. by specialize (Ht _ Hin). }
  destruct (loop_fail_thrown _ _ _ _ _ _ _ Hl Hin) as (Hres & before & Hb).
  rewrite Hres in Hf. inversion Hf; subst.
  split; [done|]. split.
  - exists (EvReplay (_name q) :: EvStore OpOpen true :: EvStore OpGetAll true ::
              read ++ before).
    rewrite Hb, app_nil_r. simpl. by rewrite <- !app_assoc.
  - rewrite app_nil_r. repeat (apply Forall_cons_2; [done|]).
    apply Forall_app_2.
    + eapply Forall_impl; [exact Hs|]. intros ev Hev.
      by apply store_event_in_read in Hev as (_ & ? & _).
    + eapply loop_events; [exact Hl|]. intros key l' ev _ Hev.
      by apply replay_event_in_loop in Hev as [_ ?].
Qed.

Lemma hook_proper q name arg e threw :
  name ∈ lifecycle_hooks ->
  hook_run q name arg e threw -> Forall (proper_call q) e.
Proof.
  intros Hname [Habs|threw' Hfun]; [constructor|].
  apply Forall_cons_2; [by split|constructor].
Qed.

Lemma store_event_proper q ev : is_store_event ev = true -> proper_call q ev.
Proof. by destruct ev. Qed.

Ltac hook_name := unfold lifecycle_hooks; set_solver.

Lemma attempt_proper q key l e r :
  attempt q key l e r -> Forall (proper_call q) e.
Proof.
  assert ("requestWillReplay" ∈ lifecycle_hooks) by hook_name.
  assert ("requestDidReplay" ∈ lifecycle_hooks) by hook_name.
  assert ("replayDidFail" ∈ lifecycle_hooks) by hook_name.
  intros Ha.
  assert (forall name arg e threw,
            hook_run q name arg e threw -> name ∈ lifecycle_hooks ->
            Forall (proper_call q) e) as Hhook
    by (intros; by eapply hook_proper).
  inversion Ha as [e0 Ht|e0 e' Ht Hh|e0 e' Ht Hh]; subst;
    try (apply Forall_app_2; [|by eapply Hhook]);
    inversion Ht; subst; each_event;
    first [by eapply Hhook | exact I].
Qed.

(** X13: [replayRequests] and [addRequest] only ever call a callback that
    is a function, and only under one of the five lifecycle names. *)
Theorem only_function_callbacks_are_invoked (h : Host) (q : Queue) (w : World)
    (request : Request) :
  Forall (proper_call q) (events (replayRequests h q) w) /\
  Forall (proper_call q) (events (addRequest h q request) w).
Proof.
  split.
  - destruct (pass_cases h q w) as [(fails & E & Hf & R)|[items Hread]].
    { rewrite E. destruct Hf as [->| ->]; by repeat constructor. }
    destruct (pass_summary h q w items Hread)
      as (read & blocks & tail & E & Hc & Hm & _).
    rewrite E. repeat (apply Forall_cons_2; [done|]). apply Forall_app_2.
    { eapply Forall_impl; [eapply collect_events; eauto|].
      apply store_event_proper. }
    destruct items as [|item rest] eqn:Hitems.
    { destruct Hm as (-> & -> & _). constructor. }
    rewrite <- Hitems in *. clear Hitems. destruct Hm as [Hl Hf].
    apply Forall_app_2.
    + apply Forall_concat_blocks. intros b Hb.
      destruct (loop_owner _ _ _ _ _ _ _ Hl Hb) as (k & l & r & _ & Ha).
      by eapply attempt_proper.
    + inversion Hf as [|succ e threw Hh| |]; subst;
        [constructor| |by repeat constructor|constructor].
      eapply hook_proper; [|exact Hh]. hook_name.
  - pose proof (addRequest_run h q request w) as Hrun. cbv beta in Hrun.
    revert Hrun. generalize (events (addRequest h q request) w) as evs.
    generalize (addRequest h q request w).1 as res. intros res evs Hrun.
    assert ("requestWillQueue" ∈ lifecycle_hooks) by hook_name.
    destruct Hrun as [[-> _]|[l Hrun]]; [constructor|].
    destruct Hrun as [e1 Hh|e1 Hh|e1 entry Hh|e1 entry ok Hh|e1 entry Hh];
      try (apply Forall_app_2; [|by repeat constructor]);
      (eapply hook_proper; [|exact Hh]; done).
Qed.

Lemma fetches_app l e1 e2 :
  fetches l (e1 ++ e2) = (fetches l e1 + fetches l e2)%nat.
Proof. induction e1 as [|ev e1 IH]; simpl; [done|]. rewrite IH. lia. Qed.

Lemma fetches_none l evs :
  Forall (fun ev => is_fetch_of l ev = false) evs -> fetches l evs = 0%nat.
Proof. induction 1 as [|ev evs Hev _ IH]; simpl; [done|]. by rewrite Hev, IH. Qed.

Lemma hook_fetches q name arg e threw l :
  hook_run q name arg e threw -> fetches l e = 0%nat.
Proof. by intros []. Qed.

Ltac count_fetches l :=
  repeat first [rewrite fetches_app | progress cbn [fetches is_fetch_of]];
  repeat match goal with
    | H : hook_run _ _ _ _ _ |- _ =>
        try rewrite (hook_fetches _ _ _ _ _ l H); clear H
    end.

Lemma attempt_fetches q key l' e r l :
  attempt q key l' e r ->
  (fetches l e <= 1)%nat /\ (l <> l' -> fetches l e = 0%nat).
Proof.
  intros Ha.
  inversion Ha as [e0 Ht|e0 e' Ht Hh|e0 e' Ht Hh]; subst;
    inversion Ht; subst; count_fetches l;
    try (destruct (Nat.eqb_spec l' l)); split; intros; try lia; congruence.
Qed.

Lemma loop_fetches q items succ all es res l :
  loop_run q items succ all es res -> NoDup items.*2 ->
  (fetches l (concat es) <= 1)%nat /\
  (l ∉ items.*2 -> fetches l (concat es) = 0%nat).
Proof.
  induction 1 as [|key l' rest succ all e es res Ha Hl IH
                  |key l' rest succ all e es res Ha Hl IH
                  |key l' rest succ all e err Ha]; simpl; intros Hnd.
  - split; [lia|done].
  - apply NoDup_cons in Hnd as [Hnot Hnd]. destruct (IH Hnd) as [IH1 IH2].
    destruct (attempt_fetches _ _ _ _ _ l Ha) as [H1 H2].
    rewrite fetches_app. split.
    + destruct (decide (l = l')) as [->|Hne]; [rewrite (IH2 Hnot); lia|].
      rewrite (H2 Hne). lia.
    + intros Hl'. apply not_elem_of_cons in Hl' as [Hne Hl'].
      by rewrite (H2 Hne), (IH2 Hl').
  - apply NoDup_cons in Hnd as [Hnot Hnd]. destruct (IH Hnd) as [IH1 IH2].
    destruct (attempt_fetches _ _ _ _ _ l Ha) as [H1 H2].
    rewrite fetches_app. split.
    + destruct (decide (l = l')) as [->|Hne]; [rewrite (IH2 Hnot); lia|].
      rewrite (H2 Hne). lia.
    + intros Hl'. apply not_elem_of_cons in Hl' as [Hne Hl'].
      by rewrite (H2 Hne), (IH2 Hl').
  - destruct (attempt_fetches _ _ _ _ _ l Ha) as [H1 H2].
    rewrite app_nil_r. split; [done|].
    intros Hl'. apply not_elem_of_cons in Hl' as [Hne Hl']. by apply H2.
Qed.

(** X10: in one pass no snapshot is fetched more than once. *)
Theorem no_snapshot_is_fetched_twice (h : Host) (q : Queue) (w : World)
    (l : loc) :
  (fetches l (events (replayRequests h q) w) <= 1)%nat.
Proof.
  assert (forall ev, is_store_event ev = true -> is_fetch_of l ev = false)
    as Hstore by (by intros []).
  destruct (pass_cases h q w) as [(fails & E & Hf & R)|[items Hread]].
  { rewrite E. destruct Hf as [->| ->]; simpl; lia. }
  destruct (pass_summary h q w items Hread)
    as (read & blocks & tail & E & Hc & Hm & _).
  rewrite E. cbn [fetches is_fetch_of]. rewrite !fetches_app.
  rewrite (fetches_none l read).
  2:{ eapply Forall_impl; [eapply collect_events; eauto|]. exact Hstore. }
  destruct items as [|item rest] eqn:Hitems.
  { destruct Hm as (-> & -> & _). simpl. lia. }
  rewrite <- Hitems in *. clear Hitems. destruct Hm as [Hl Hf].
  rewrite (fetches_none l tail).
  2:{ destruct (finish_tail _ _ _ _ Hf) as [Ht _].
      eapply Forall_impl; [exact Ht|]. by intros []. }
  destruct (loop_fetches _ _ _ _ _ _ l Hl (collect_snapshots _ _ _ _ _ Hc)).
  lia.
Qed.

(** ** Construction and the listeners *)


Lemma listeners_new_Queue (h : Host) name mrt cbs w :
  listeners (new_Queue h name mrt cbs w).2 =
    if decide (name ∈ names w) then listeners w
    else listeners w ++ [Build_Queue name (default ∅ cbs)
                           (default MAX_RETENTION_TIME mrt)].
Proof.
  unfold new_Queue. destruct (decide (name ∈ names w)); [done|].
  set (q := Build_Queue _ _ _).
  unfold bind, _addSyncListener, bind. simpl.
  destruct (sync_supported h); simpl; [done|].
  rewrite start_pass_ok. simpl.
  by rewrite (moves_listeners any_event _ _ (moves_start_pass h q _)).
Qed.

Lemma listeners_dispatch_sync (h : Host) event w :
  listeners (dispatch_sync h event w) = listeners w.
Proof.
  unfold dispatch_sync.
  enough (forall qs w0,
            listeners (foldl (fun w' q => (sync_listener h q event w').2) w0 qs)
            = listeners w0) as H by apply H.
  induction qs as [|q qs IH]; intros w0; simpl; [done|].
  rewrite IH. apply (moves_listeners any_event), moves_start_pass.
Qed.

Lemma registry_ok_perform (h : Host) (a : Action) (w : World) :
  registry_ok w -> registry_ok (perform h a w).
Proof.
  intros [Hnd Hiff]. unfold registry_ok.
  destruct a as [name mrt cbs|q r|q|ev|t|n]; simpl.
  - rewrite names_new_Queue, listeners_new_Queue. case_decide as Hin.
    + split; [done|]. intros n. rewrite <- Hiff. set_solver.
    + rewrite fmap_app. simpl. split.
      * apply NoDup_app. split; [done|]. split; [|apply NoDup_singleton].
        intros n Hn1 Hn2. apply list_elem_of_singleton in Hn2 as ->.
        by apply Hin, Hiff.
      * intros n. rewrite elem_of_union, elem_of_app, Hiff. set_solver.
  - by rewrite (moves_names any_event _ _ (moves_addRequest h q r w)),
      (moves_listeners any_event _ _ (moves_addRequest h q r w)).
  - by rewrite (moves_names any_event _ _ (moves_replayRequests h q w)),
      (moves_listeners any_event _ _ (moves_replayRequests h q w)).
  - by rewrite names_dispatch_sync, listeners_dispatch_sync.
  - done.
  - by rewrite (moves_names any_event _ _ (moves_land h n w)),
      (moves_listeners any_event _ _ (moves_land h n w)).
Qed.

(** X18: whatever a process does, the 'sync' listeners and the reserved
    names go together: every reserved name has a listener, every listener's
    queue has a reserved name, and no two listeners belong to queues of the
    same name. *)
Theorem one_listener_per_queue_name (h : Host) (s : Store) (t : Z)
    (acts : list Action) :
  let w := run h acts (start s t) in
  NoDup (_name <$> listeners w) /\
  (forall name, name ∈ names w <-> name ∈ _name <$> listeners w).
Proof.
  intros w. unfold w. clear w.
  assert (registry_ok (start s t)) as Hstart.
  { split; simpl; [constructor|]. intros n. set_solver. }
  revert Hstart. generalize (start s t) as w. unfold run.
  induction acts as [|a acts IH]; intros w Hw; [exact Hw|].
  cbn [foldl]. apply IH. by apply registry_ok_perform.
Qed.

(** X20: if the rows of the store are in key order below the next key
    when the script starts, they are so after anything the process does;
    in particular no two rows ever share a key. *)
Theorem stored_keys_stay_ordered (h : Host) (s : Store) (t : Z)
    (acts : list Action) :
  store_wf s ->
  store_wf (store (run h acts (start s t))) /\
  NoDup (rows (store (run h acts (start s t)))).*1.
Proof.
  intros Hs.
  assert (store_wf (store (run h acts (start s t)))) as Hwf
    by by apply (ordered_run h acts (start s t)).
  split; [exact Hwf|]. by apply store_wf_NoDup.
Qed.

(** ** Passes started, and a pass in which nothing fails *)






Lemma attempt_clean q key l e r :
  attempt q key l e r -> Forall (fun ev => failure_event ev = false) e ->
  r = Ok true.
Proof.
  intros Ha Hclean.
  inv_runs; try done;
    repeat (rewrite ?Forall_app, ?Forall_cons in Hclean);
    simpl in Hclean; naive_solver.
Qed.

Lemma loop_clean q items succ all es res :
  loop_run q items succ all es res ->
  Forall (fun ev => failure_event ev = false) (concat es) ->
  Forall2 (fun item e => attempt q item.1 item.2 e (Ok true)) items es.
Proof.
  induction 1 as [|key l rest succ all e es res Ha Hl IH
                  |key l rest succ all e es res Ha Hl IH
                  |key l rest succ all e err Ha]; simpl; intros Hclean.
  - constructor.
  - apply Forall_app in Hclean as [He Hes]. constructor; [done|by apply IH].
  - apply Forall_app in Hclean as [He Hes].
    by pose proof (attempt_clean _ _ _ _ _ Ha He).
  - rewrite app_nil_r in Hclean.
    by pose proof (attempt_clean _ _ _ _ _ Ha Hclean).
Qed.

Lemma clean_pass_leftovers (h : Host) (q : Queue) (w : World) :
  Forall (fun ev => failure_event ev = false) (events (replayRequests h q) w) ->
  Forall (fun row => queueName row.2 = _name q ->
            expired q (now w) row.2 = true /\
            TRemove q row.1 ∈ parked_by (replayRequests h q) w)
    (rows (store (replayRequests h q w).2)).
Proof.
  intros Hclean.
  destruct (pass_cases h q w) as [(fails & E & Hf & R)|[items Hread]].
  { exfalso. rewrite E in Hclean. apply Forall_cons in Hclean as [_ Hclean].
    destruct Hf as [->| ->];
      repeat (apply Forall_cons in Hclean as [? Hclean]); done. }
  destruct (pass_summary h q w items Hread)
    as (read & blocks & tail & E & Hc & Hm & Hrows).
  destruct (pass_tasks h q w items Hread) as (ks & reg & Hp & Hks & _).
  pose proof Hclean as Hall. rewrite Forall_forall in Hall.
  rewrite E in Hclean.
  do 3 (apply Forall_cons in Hclean as [_ Hclean]).
  apply Forall_app in Hclean as [Hcr Hclean].
  apply Forall_app in Hclean as [Hcb _].
  apply Forall_forall. intros [k e] Hin Hq. simpl in Hq.
  rewrite Hrows in Hin. apply list_elem_of_filter in Hin as [Hnot Hin].
  simpl in Hnot. simpl.
  destruct (collect_stored _ _ _ _ _ k e Hc Hin Hq) as [[_ Hk]|Hexp].
  - exfalso. apply Hnot. rewrite !deleted_keys_app.
    apply elem_of_app. right. apply elem_of_app. left.
    destruct items as [|item rest] eqn:Hitems; [by apply elem_of_nil in Hk|].
    rewrite <- Hitems in *. clear Hitems. destruct Hm as [Hl _].
    pose proof (loop_clean _ _ _ _ _ _ Hl Hcb) as HF.
    apply list_elem_of_fmap in Hk as ([k' l] & -> & Hitem). simpl.
    apply list_elem_of_lookup in Hitem as [i Hi].
    destruct (Forall2_lookup_l _ _ _ _ _ HF Hi) as (e' & He' & Ha).
    apply (deleted_keys_concat _ e'); [by eapply list_elem_of_lookup_2|].
    rewrite (attempt_deleted _ _ _ _ _ Ha). left.
  - split; [done|]. rewrite Hp. apply elem_of_app. left.
    destruct (Hks k e Hin Hq Hexp) as [Hk|[[ok Hev]|Hev]].
    + apply list_elem_of_fmap. by exists k.
    + exfalso. pose proof (Hall _ Hev) as Hok. simpl in Hok.
      destruct ok; [|done]. apply Hnot. apply deleted_keys_event.
      rewrite E in Hev. by do 3 (apply elem_of_cons in Hev as [[=]|Hev]).
    + exfalso. by pose proof (Hall _ Hev).
Qed.

(** X12: after a pass in which nothing failed, the only entries of the
    queue still in the store are expired ones whose removal the pass
    started without waiting for it, and which is still parked; a second
    pass right after it only talks to the store: nothing is replayed
    twice. *)
Theorem a_clean_pass_is_not_repeated (h : Host) (q : Queue) (w : World) :
  Forall (fun ev => failure_event ev = false) (events (replayRequests h q) w) ->
  let w' := (replayRequests h q w).2 in
  Forall (fun row => queueName row.2 = _name q ->
            expired q (now w) row.2 = true /\
            TRemove q row.1 ∈ parked_by (replayRequests h q) w)
    (rows (store w')) /\
  exists evs,
    events (replayRequests h q) w' = EvReplay (_name q) :: evs /\
    Forall (fun ev => is_store_event ev = true) evs.
Proof.
  intros Hclean w'. pose proof (clean_pass_leftovers h q w Hclean) as Hrows.
  split; [exact Hrows|].
  apply (empty_pass_events h q w').
  eapply Forall_impl; [exact Hrows|]. intros row Hrow Hq.
  unfold w'. rewrite (moves_now _ _ _ (moves_replayRequests h q w)).
  by destruct (Hrow Hq).
Qed.

(** ** Snapshot objects and a queue without callbacks *)

#[export] Instance settled_preorder : PreOrder settled.
Proof.
  split.
  - by intros w Hw.
  - intros w1 w2 w3 H12 H23 Hw. destruct (H12 Hw) as (J & Hh & Hf).
    destruct (H23 J) as (J' & Hh' & Hf'). split; [done|]. split; congruence.
Qed.

Lemma settled_tick (w : World) : settled w (tick w).
Proof. intros Hw. unfold tick. simpl. by rewrite Hw. Qed.

Lemma settled_same (w w' : World) :
  jobs w' = jobs w -> heap w' = heap w -> fresh w' = fresh w -> settled w w'.
Proof. intros J Hh Hf Hw. split; [congruence|done]. Qed.

Lemma settled_store_request (h : Host) {A} (op : StoreOp)
    (run : Store -> A * Store) :
  keeps settled (store_request h op run).
Proof.
  intros w. unfold store_request.
  destruct (store_ok _ _ _); simpl; [|by apply settled_same].
  destruct (run (store w)) as [a s']. by apply settled_same.
Qed.

Lemma settled_removeRequest (h : Host) (q : Queue) (key : Key) :
  keeps settled (_removeRequest h q key).
Proof.
  unfold _removeRequest, _getDb, getDB, db_delete.
  repeat lazymatch goal with
    | |- keeps _ (bind _ _) => apply keeps_bind; [tc_solve| |intros ?]
    | |- keeps _ (await _) =>
        apply keeps_await; [tc_solve|apply settled_tick|]
    | |- keeps _ (store_request _ _ _) => apply settled_store_request
    end.
Qed.

Lemma collect_cons_other (h : Host) (q : Queue) (key : Key) (e : Entry)
    (rest : list (Key * Entry)) (acc : list (Key * loc)) (w : World) :
  queueName e <> _name q ->
  collect h q ((key, e) :: rest) acc w = collect h q rest acc w.
Proof. intros Hq. simpl. by rewrite decide_False. Qed.

(** What [collect] leaves in the heap: one new object per entry it keeps,
    built from the stored object; the objects that were there before are
    untouched. *)
Lemma collect_heap (h : Host) (q : Queue) (entries : list (Key * Entry))
    (acc : list (Key * loc)) (w : World) :
  jobs w = [] ->
  let r := collect h q entries acc w in
  jobs r.2 = [] /\ (fresh w <= fresh r.2)%nat /\
  (forall l, (l < fresh w)%nat -> heap r.2 l = heap w l) /\
  exists items, r.1 = Ok (acc ++ items) /\
    Forall (fun item =>
              (fresh w <= item.2 < fresh r.2)%nat /\
              exists e, (item.1, e) ∈ entries /\ queueName e = _name q /\
                heap r.2 item.2 = StorableRequest.fromObject (storableRequest e))
      items.
Proof.
  revert acc w. induction entries as [|[key e] rest IH]; intros acc w Hw r.
  - subst r. simpl. split; [done|]. split; [done|]. split; [done|].
    exists []. by rewrite app_nil_r.
  - destruct (decide (queueName e = _name q)) as [Hq|Hq].
    2:{ subst r. rewrite collect_cons_other by done.
        destruct (IH acc w Hw) as (J & Hf & Hold & items & R & Hitems).
        split; [done|]. split; [done|]. split; [done|].
        exists items. split; [done|].
        eapply Forall_impl; [exact Hitems|]. intros item (? & e0 & ? & ?).
        split; [done|]. exists e0. split; [by right|done]. }
    subst r. rewrite collect_cons_mine by done. cbv zeta.
    set (w1 := set_fresh _ _).
    assert (jobs w1 = []) as J1 by done.
    assert (forall l, (l < fresh w)%nat -> heap w1 l = heap w l) as Hold1.
    { intros l Hl. simpl. unfold heap_set.
      destruct (Nat.eqb_spec l (fresh w)); [lia|done]. }
    assert (heap w1 (fresh w)
            = StorableRequest.fromObject (storableRequest e)) as Hnew.
    { simpl. unfold heap_set. by rewrite Nat.eqb_refl. }
    destruct (expired q (now w) e).
    + assert (settled w1
                (detach h (TRemove q key) (_removeRequest h q key) w1).2) as Hset.
      { apply (keeps_detach settled h);
          [intros w0; by apply settled_same | apply settled_removeRequest]. }
      destruct (Hset J1) as (J2 & Hh2 & Hf2).
      set (w2 := (detach h (TRemove q key) (_removeRequest h q key) w1).2) in *.
      destruct (IH acc w2 J2) as (J & Hf & Hold & items & R & Hitems).
      rewrite Hf2 in Hf, Hold, Hitems. simpl in Hf, Hold, Hitems.
      split; [done|]. split; [lia|]. split.
      { intros l Hl. rewrite Hold by lia. rewrite Hh2. by apply Hold1. }
      exists items. split; [done|].
      eapply Forall_impl; [exact Hitems|]. intros item (? & e0 & ? & ?).
      split; [lia|]. exists e0. split; [by right|done].
    + destruct (IH (acc ++ [(key, fresh w)]) w1 J1)
        as (J & Hf & Hold & items & R & Hitems).
      simpl in Hf, Hold, Hitems.
      split; [done|]. split; [lia|]. split.
      { intros l Hl. rewrite Hold by lia. by apply Hold1. }
      exists ((key, fresh w) :: items). split; [by rewrite R, <- app_assoc|].
      apply Forall_cons_2.
      * simpl. split; [lia|]. exists e. split; [by left|]. split; [done|].
        rewrite Hold by lia. exact Hnew.
      * eapply Forall_impl; [exact Hitems|]. intros item (? & e0 & ? & ?).
        split; [lia|]. exists e0. split; [by right|done].
Qed.

Lemma read_queue_heap (h : Host) (q : Queue) (w : World)
    (items : list (Key * loc)) :
  jobs w = [] ->
  (read_queue h q w).1 = Ok items ->
  let w' := (read_queue h q w).2 in
  jobs w' = [] /\
  (forall l, (l < fresh w)%nat -> heap w' l = heap w l) /\
  Forall (fun item =>
            (fresh w <= item.2 < fresh w')%nat /\
            exists e, (item.1, e) ∈ rows (store w) /\ queueName e = _name q /\
              heap w' item.2 = StorableRequest.fromObject (storableRequest e))
    items.
Proof.
  intros Hw.
  unfold read_queue, _getStorableRequestsInQueue, _getDb, getDB,
    db_getAll, store_request, bind, await.
  cbn [step entered emit advance store fst snd].
  destruct (store_ok h (step w) OpOpen); cbn [fst snd]; [|done].
  cbn [step tick set_jobs set_heap advance emit store set_store].
  destruct (store_ok h _ OpGetAll); cbn [fst snd]; [|done].
  set (w3 := tick _).
  assert (jobs w3 = []) as J3 by (simpl; by rewrite Hw).
  assert (heap w3 = heap w) as H3 by (simpl; by rewrite Hw).
  assert (fresh w3 = fresh w) as F3 by done.
  destruct (collect_heap h q (rows (store w)) [] w3 J3)
    as (J & Hf & Hold & items' & R & Hitems).
  rewrite F3, H3 in *.
  destruct (collect h q (rows (store w)) [] w3) as [res w4].
  simpl in *. intros Hres. subst res. injection Hres as <-.
  rewrite J. simpl. done.
Qed.

(** X4: with no continuation of an earlier callback pending, every
    snapshot a pass hands out is a new object built from the stored object
    of its entry, and the objects that existed before the read are as they
    were. *)
Theorem snapshots_are_built_from_the_store (h : Host) (q : Queue) (w : World)
    (items : list (Key * loc)) (key : Key) (l : loc) :
  jobs w = [] ->
  (read_queue h q w).1 = Ok items ->
  (key, l) ∈ items ->
  (fresh w <= l)%nat /\
  (exists e, (key, e) ∈ rows (store w) /\ queueName e = _name q /\
     heap (read_queue h q w).2 l =
       StorableRequest.fromObject (storableRequest e)) /\
  (forall l0, (l0 < fresh w)%nat -> heap (read_queue h q w).2 l0 = heap w l0).
Proof.
  intros Hw Hread Hitem.
  destruct (read_queue_heap h q w items Hw Hread) as (_ & Hold & Hitems).
  rewrite Forall_forall in Hitems.
  destruct (Hitems _ Hitem) as ([Hl _] & e & He & Hq & Hheap).
  split; [exact Hl|]. split; [|exact Hold]. eauto.
Qed.

#[export] Instance faithful_preorder (H : Heap) : PreOrder (faithful H).
Proof.
  split.
  - intros w J Hh. split; [done|]. split; [done|].
    exists []. by rewrite app_nil_r.
  - intros w1 w2 w3 H12 H23 J Hh.
    destruct (H12 J Hh) as (J2 & Hh2 & e1 & T1 & F1).
    destruct (H23 J2 Hh2) as (J3 & Hh3 & e2 & T2 & F2).
    split; [done|]. split; [done|]. exists (e1 ++ e2).
    split; [by rewrite T2, T1, app_assoc|by apply Forall_app_2].
Qed.

Lemma faithful_step (H : Heap) (w w' : World) (ext : list Event) :
  jobs w' = jobs w -> heap w' = heap w -> trace w' = trace w ++ ext ->
  (heap w = H -> Forall (sends H) ext) -> faithful H w w'.
Proof.
  intros J Hh T F Jw Hw. split; [congruence|]. split; [congruence|]. eauto.
Qed.

Lemma faithful_tick (H : Heap) (w : World) : faithful H w (tick w).
Proof.
  intros J Hh. unfold tick. simpl. rewrite J. simpl.
  split; [done|]. split; [done|]. exists []. by rewrite app_nil_r.
Qed.

Lemma faithful_park (H : Heap) (t : Task) (w : World) :
  faithful H w (park t w).
Proof.
  intros J Hh. simpl. split; [done|]. split; [done|].
  exists []. by rewrite app_nil_r.
Qed.

Section Plain.

Variables (h : Host) (H : Heap) (q : Queue).
Hypothesis Hplain : plain q.

Lemma faithful_store_request {A} (op : StoreOp) (run : Store -> A * Store) :
  keeps (faithful H) (store_request h op run).
Proof.
  intros w. unfold store_request.
  destruct (store_ok _ _ _); simpl.
  - destruct (run (store w)) as [a s'].
    eapply faithful_step; simpl; try done. intros _. by repeat constructor.
  - eapply faithful_step; simpl; try done. intros _. by repeat constructor.
Qed.

Lemma faithful_fetch (l : loc) : keeps (faithful H) (fetch h l).
Proof.
  intros w. unfold fetch.
  destruct (fetch_ok _ _ _); simpl;
    (eapply faithful_step; simpl; try done; intros <-; by repeat constructor).
Qed.

Lemma faithful_sync_register (t : string) :
  keeps (faithful H) (sync_register h t).
Proof.
  intros w. unfold sync_register.
  destruct (_ && _); simpl;
    (eapply faithful_step; simpl; try done; intros _; by repeat constructor).
Qed.

Lemma faithful_runCallback (name : string) (arg : Arg) :
  keeps (faithful H) (_runCallback q name arg).
Proof.
  intros w. unfold _runCallback. specialize (Hplain name).
  unfold is_function in Hplain.
  destruct (_callbacks q !! name) as [[f|]|]; [done|reflexivity..].
Qed.

Ltac faithful_go :=
  lazymatch goal with
  | |- keeps _ (ret _) => apply keeps_ret; tc_solve
  | |- keeps _ (detach _ _ _) =>
      apply keeps_detach; [intros ?; apply faithful_park |]
  | |- keeps _ (suspend _) => apply keeps_suspend; intros ?; apply faithful_park
  | |- keeps _ (_waitUntilActive _ _) => apply keeps_waitUntilActive; tc_solve
  | |- keeps _ (match ?p with Resolved => _ | Pending => _ end) => destruct p
  | |- keeps _ (await _) =>
      apply keeps_await; [tc_solve | apply faithful_tick |]
  | |- keeps _ (bind _ _) => apply keeps_bind; [tc_solve | | intros ?]
  | |- keeps _ (try_catch _ _) =>
      apply keeps_try_catch; [tc_solve | | intros ?]
  | |- keeps _ (store_request _ _ _) => apply faithful_store_request
  | |- keeps _ (fetch _ _) => apply faithful_fetch
  | |- keeps _ (sync_register _ _) => apply faithful_sync_register
  | |- keeps _ (_runCallback _ _ _) => apply faithful_runCallback
  end.

Lemma faithful_replayRequest (key : Key) (l : loc) :
  keeps (faithful H) (_replayRequest h q key l).
Proof.
  unfold _replayRequest, _removeRequest, _getDb, getDB, db_delete.
  repeat faithful_go.
Qed.

Lemma faithful_replay_loop (items : list (Key * loc)) (succ : list loc)
    (all : bool) :
  keeps (faithful H) (replay_loop h q items succ all).
Proof.
  revert succ all. induction items as [|[key l] rest IH]; intros succ all.
  - simpl. repeat faithful_go.
  - simpl. repeat faithful_go; [apply faithful_replayRequest|].
    destruct a; apply IH.
Qed.

Lemma faithful_replay_all (items : list (Key * loc)) :
  keeps (faithful H) (replay_all h q items).
Proof.
  unfold replay_all. repeat faithful_go; [apply faithful_replay_loop|].
  destruct a as [succ []]; [apply faithful_runCallback|].
  unfold _registerSync. repeat faithful_go.
Qed.

End Plain.

Lemma pass_fetch_in_loop (h : Host) (q : Queue) (w : World)
    (items : list (Key * loc)) (l : loc) (req : Request) (ok : bool) :
  (read_queue h q w).1 = Ok items ->
  EvFetch l req ok ∈ events (replayRequests h q) w ->
  EvFetch l req ok ∈ events (replay_all h q items) (read_queue h q w).2 /\
  exists key, (key, l) ∈ items.
Proof.
  intros Hread Hin.
  destruct (pass_anatomy h q w) as [Hshape Hrest]. cbv zeta in Hshape, Hrest.
  fold (read_queue h q w) in Hshape, Hrest. rewrite Hread in Hshape, Hrest.
  assert (EvFetch l req ok ∉ events (await (_getStorableRequestsInQueue h q))
                               (entered q w)) as Hno.
  { destruct Hshape as [[_ [=]]|[[_ [=]]|(items' & read & -> & _ & Hc)]].
    intros Hr. do 2 (apply elem_of_cons in Hr as [[=]|Hr]).
    pose proof (collect_events _ _ _ _ _ Hc) as Hs.
    rewrite Forall_forall in Hs. by specialize (Hs _ Hr). }
  destruct items as [|item rest] eqn:Hitems.
  { exfalso. destruct Hrest as (E & _). rewrite E in Hin.
    apply elem_of_cons in Hin as [[=]|Hin]. done. }
  rewrite <- Hitems in *. clear Hitems. destruct Hrest as (E & _).
  rewrite E in Hin. apply elem_of_cons in Hin as [[=]|Hin].
  apply elem_of_app in Hin as [Hin|Hin]; [done|]. split; [done|].
  destruct (replay_all_run h q items (read_queue h q w).2)
    as (blocks & tail & Eb & Hl & Hf).
  rewrite Eb in Hin. apply elem_of_app in Hin as [Hin|Hin].
  - apply elem_of_concat in Hin as (b & Hin & Hb).
    destruct (loop_owner _ _ _ _ _ _ _ Hl Hb) as (k & l' & r & Hitem & Ha).
    assert (l = l') as -> by (eapply attempt_snapshots; eauto; by left).
    eauto.
  - destruct (finish_tail _ _ _ _ Hf) as [Ht _].
    rewrite Forall_forall in Ht. by specialize (Ht _ Hin).
Qed.

Lemma plain_fetch_origin (h : Host) (q : Queue)
    (w : World) (items : list (Key * loc)) (l : loc) (req : Request)
    (ok : bool) :
  plain q ->
  jobs w = [] ->
  (read_queue h q w).1 = Ok items ->
  EvFetch l req ok ∈ events (replayRequests h q) w ->
  exists key e,
    (key, l) ∈ items /\ (key, e) ∈ rows (store w) /\ queueName e = _name q /\
    req = StorableRequest.toRequest
            (StorableRequest.fromObject (storableRequest e)).
Proof.
  intros Hplain Hw Hread Hin.
  destruct (pass_fetch_in_loop h q w items l req ok Hread Hin)
    as (Hin' & key & Hitem).
  destruct (read_queue_heap h q w items Hw Hread) as (J & _ & Hitems).
  rewrite Forall_forall in Hitems.
  destruct (Hitems _ Hitem) as (_ & e & He & Hq & Hheap). simpl in *.
  exists key, e. split; [done|]. split; [done|]. split; [done|].
  destruct (faithful_replay_all h _ q Hplain items (read_queue h q w).2 J eq_refl)
    as (_ & _ & ext & T & F).
  apply events_ext in T. subst ext. rewrite Forall_forall in F.
  specialize (F _ Hin'). simpl in F. by rewrite F, Hheap.
Qed.

(** X21: for a queue without callbacks and with no continuation pending,
    every request a pass fetches is the one the stored object of one of its
    entries describes. *)
Theorem stored_requests_are_replayed_as_stored (h : Host) (q : Queue)
    (w : World) (items : list (Key * loc)) (l : loc) (req : Request)
    (ok : bool) :
  plain q ->
  jobs w = [] ->
  (read_queue h q w).1 = Ok items ->
  EvFetch l req ok ∈ events (replayRequests h q) w ->
  exists key e,
    (key, l) ∈ items /\ (key, e) ∈ rows (store w) /\ queueName e = _name q /\
    req = StorableRequest.toRequest
            (StorableRequest.fromObject (storableRequest e)).
Proof. apply plain_fetch_origin. Qed.

Lemma addRequest_plain (h : Host) (q : Queue) (request : Request) (w : World)
    (s : StorableRequest.t) :
  plain q -> jobs w = [] ->
  StorableRequest.fromRequest (now w) request = Some s ->
  (addRequest h q request w).1 = Ok tt ->
  store (addRequest h q request w).2 =
    store_add {| queueName := _name q;
                 storableRequest := StorableRequest.toObject s |} (store w) /\
  jobs (addRequest h q request w).2 = [].
Proof.
  intros Hplain Hw Hfrom.
  unfold addRequest, StorableRequest_fromRequest, alloc, _runCallback, _getDb,
    getDB, read, db_add, store_request, bind, await.
  rewrite Hfrom. cbn [fst snd].
  pose proof (Hplain "requestWillQueue") as Hcb. unfold is_function in Hcb.
  assert (forall w0 : World,
            match _callbacks q !! "requestWillQueue" with
            | Some (VFunction f) =>
                let r := f (ArgRequest (fresh w)) (heap w0) in
                let w1 := emit (EvCallback "requestWillQueue"
                                  (ArgRequest (fresh w)) (run_threw r))
                            (set_jobs (jobs w0 ++ run_later r)
                               (set_heap (run_heap r) w0)) in
                if run_threw r then (Throw CallbackError, w1) else (Ok tt, w1)
            | _ => (Ok tt, w0)
            end = (Ok tt, w0)) as ->.
  { intros w0. by destruct (_callbacks q !! "requestWillQueue") as [[f|]|]. }
  cbn [fst snd step tick set_jobs set_heap set_fresh advance emit store
       set_store heap jobs].
  destruct (store_ok h (step w) OpOpen); cbn [fst snd]; [|done].
  cbn [fst snd step tick set_jobs set_heap set_fresh advance emit store
       set_store heap jobs].
  rewrite Hw. cbn [run_due still_waiting].
  assert (heap_set (fresh w) s (heap w) (fresh w) = s) as ->
    by (unfold heap_set; by rewrite Nat.eqb_refl).
  destruct (store_ok h _ (OpAdd _)); cbn [fst snd]; [|done].
  intros _. unfold detach.
  destruct (lands_now _ _ _); cbn [fst snd]; [|simpl; by rewrite Hw].
  rewrite registerSync_unfold. cbv zeta.
  destruct (worker_active _ _); cbn [fst snd]; [|simpl; by rewrite Hw].
  destruct (_ && _); simpl; by rewrite Hw.
Qed.

(** X22: add, then replay: for a queue without callbacks whose store holds
    nothing of it yet, every request the pass after a successful
    [addRequest] fetches is the one rebuilt from the object that
    [addRequest] stored for the snapshot it took. *)
Theorem a_queued_request_is_replayed_unchanged (h : Host) (q : Queue)
    (request : Request) (w : World) (s : StorableRequest.t) (l : loc)
    (req : Request) (ok : bool) :
  plain q ->
  jobs w = [] ->
  Forall (fun row => queueName row.2 <> _name q) (rows (store w)) ->
  StorableRequest.fromRequest (now w) request = Some s ->
  (addRequest h q request w).1 = Ok tt ->
  EvFetch l req ok
    ∈ events (replayRequests h q) (addRequest h q request w).2 ->
  req = StorableRequest.toRequest
          (StorableRequest.fromObject (StorableRequest.toObject s)).
Proof.
  intros Hplain Hw Hempty Hfrom Hadd Hin.
  destruct (addRequest_plain h q request w s Hplain Hw Hfrom Hadd) as [Hs J].
  set (w1 := (addRequest h q request w).2) in *.
  destruct (pass_cases h q w1) as [(fails & E & Hf & R)|[items Hread]].
  { exfalso. rewrite E in Hin. destruct Hf as [->| ->]; in_list. }
  destruct (plain_fetch_origin h q w1 items l req ok
              Hplain J Hread Hin) as (key & e & _ & He & Hq & ->).
  rewrite Hs in He. simpl in He. apply elem_of_app in He as [He|He].
  - exfalso. rewrite Forall_forall in Hempty. by apply (Hempty _ He).
  - by apply list_elem_of_singleton in He as [= -> ->].
Qed.

(** X3: the retention test is strict: an entry whose age is at most
    [maxRetentionTime] (the limit included) is among the entries the pass
    replays, and a delete is requested for it only if its fetch succeeded. *)
Theorem entry_within_retention_is_replayed (h : Host) (q : Queue) (w : World)
    (items : list (Key * loc)) (key : Key) (e : Entry) :
  NoDup (rows (store w)).*1 ->
  (read_queue h q w).1 = Ok items ->
  (key, e) ∈ rows (store w) ->
  queueName e = _name q ->
  now w - StorableRequest.o_timestamp (storableRequest e) <= _maxRetentionTime q ->
  key ∈ items.*1 /\
  (forall ok, EvStore (OpDelete key) ok ∈ events (replayRequests h q) w ->
     exists l req, (key, l) ∈ items /\
       EvFetch l req true ∈ events (replayRequests h q) w).
Proof.
  intros Hkeys Hread Hin Hq Hage.
  assert (expired q (now w) e = false) as Hexp.
  { unfold expired. rewrite Z.gtb_ltb. apply Z.ltb_ge. lia. }
  destruct (pass_summary h q w items Hread)
    as (read & blocks & tail & E & Hc & Hm & _).
  split.
  - destruct (collect_stored _ _ _ _ _ key e Hc Hin Hq) as [[_ ?]|?];
      [done|congruence].
  - intros ok Hdel.
    destruct (pass_delete_origin h q w key ok Hdel)
      as (e' & Hin' & _ & [Hexp'|(_ & items' & l & req & before & after
                                    & Hread' & Hitem & Eev & _)]).
    + pose proof (NoDup_fst_agree _ _ _ _ Hkeys Hin Hin'). congruence.
    + rewrite Hread in Hread'. injection Hread' as <-.
      exists l, req. split; [done|]. rewrite Eev. in_list.
Qed.

(** ** What the callbacks tell *)

Lemma attempt_did_after_fetch q key l e r b :
  attempt q key l e r ->
  EvCallback "requestDidReplay" (ArgRequest l) b ∈ e ->
  exists req, EvFetch l req true ∈ e.
Proof.
  intros Ha Hin.
  inv_runs; simpl in Hin;
    try match goal with
      | |- exists _, EvFetch ?l _ true ∈ ?e =>
          match e with context [EvFetch l ?r true] => exists r end
      end;
    in_list.
Qed.

Lemma attempt_fail_called q key l e r b :
  attempt q key l e r ->
  EvCallback "replayDidFail" (ArgRequest l) b ∈ e -> r <> Ok true.
Proof.
  intros Ha Hin ->. inversion Ha as [e0 Ht| |]; subst.
  apply attempt_try_quiet in Ht. rewrite Forall_forall in Ht.
  by specialize (Ht _ Hin).
Qed.

(** X23: what the callbacks of an entry say about it: [requestDidReplay]
    is only invoked after the entry's fetch succeeded, and an entry for
    which [replayDidFail] is invoked is still in the store after the pass,
    no delete of it having gone through. *)
Theorem callbacks_tell_the_outcome (h : Host) (q : Queue) (w : World)
    (items : list (Key * loc)) (key : Key) (l : loc) (b : bool) :
  NoDup (rows (store w)).*1 ->
  (read_queue h q w).1 = Ok items ->
  (key, l) ∈ items ->
  let evs := events (replayRequests h q) w in
  (EvCallback "requestDidReplay" (ArgRequest l) b ∈ evs ->
   exists req, EvFetch l req true ∈ evs) /\
  (EvCallback "replayDidFail" (ArgRequest l) b ∈ evs ->
   (exists e, (key, e) ∈ rows (store w) /\
              (key, e) ∈ rows (store (replayRequests h q w).2)) /\
   EvStore (OpDelete key) true ∉ evs).
Proof.
  intros Hkeys Hread Hitem evs.
  destruct (pass_summary h q w items Hread)
    as (read & blocks & tail & E & Hc & Hm & Hrows).
  destruct items as [|item rest] eqn:Hitems; [by apply elem_of_nil in Hitem|].
  rewrite <- Hitems in *. clear Hitems. destruct Hm as [Hl Hf].
  set (res := (replay_loop h q items [] true (read_queue h q w).2).1) in *.
  split.
  - intros Hin.
    edestruct (entry_block h q w items read tail blocks res)
      as (e & r & He & Hev & Ha); [exact E|exact Hc|exact Hl|exact Hf|exact Hitem
                                  |exact Hin|by left|done|].
    destruct (attempt_did_after_fetch _ _ _ _ _ _ Ha Hev) as [req Hreq].
    exists req. eapply block_in_events; eauto.
  - intros Hin.
    edestruct (entry_block h q w items read tail blocks res)
      as (e & r & He & Hev & Ha); [exact E|exact Hc|exact Hl|exact Hf|exact Hitem
                                  |exact Hin|by left|done|].
    pose proof (attempt_fail_called _ _ _ _ _ _ Ha Hev) as Hr.
    edestruct (failed_entry_stays h q w items read tail blocks res)
      as (e0 & He0 & Hstays); eauto.
    split; [eauto|].
    intros Hdel. apply deleted_keys_event in Hdel.
    rewrite Hrows in Hstays. apply list_elem_of_filter in Hstays as [Hnot _].
    apply Hnot. simpl. fold evs in E. rewrite E in Hdel. simpl in Hdel.
    exact Hdel.
Qed.

(** ** Worked examples, continued *)

Lemma pass_over_an_empty_queue_witness :
  Forall (fun row => queueName row.2 = _name invoices ->
                     expired invoices (now demo_world) row.2 = true)
    (rows (store demo_world)) /\
  ((replayRequests demo_host invoices demo_world).1 = Ok tt \/
   (replayRequests demo_host invoices demo_world).1 = Throw StorageFailure).
Proof.
  assert (Forall (fun row => queueName row.2 = _name invoices ->
                             expired invoices (now demo_world) row.2 = true)
            (rows (store demo_world))) as Hrows
    by (repeat (apply Forall_cons_2; [intros [=]|]); constructor).
  split; [exact Hrows|].
  exact (proj2 (pass_over_an_empty_queue demo_host invoices demo_world Hrows)).
Defined.

Lemma shared_store_keys : NoDup (rows (store shared_world)).*1.
Proof. apply StronglySorted_lt_NoDup. simpl. repeat constructor; lia. Qed.

Lemma other_queues_are_left_alone_witness :
  (2, invoice "/i" 900) ∈ rows (store shared_world) /\
  (queueName (invoice "/i" 900) <> _name demo_queue) /\
  (2, invoice "/i" 900)
    ∈ rows (store (replayRequests demo_host demo_queue shared_world).2).
Proof.
  assert ((2, invoice "/i" 900) ∈ rows (store shared_world)) as Hin
    by (apply (list_elem_of_lookup_2 _ 1%nat); reflexivity).
  assert (queueName (invoice "/i" 900) <> _name demo_queue) as Hq by done.
  split; [exact Hin|]. split; [exact Hq|].
  exact (proj1 (other_queues_are_left_alone demo_host demo_queue shared_world
                  2 (invoice "/i" 900) shared_store_keys Hin Hq)).
Defined.

Lemma snapshots_are_built_from_the_store_witness :
  jobs demo_world = [] /\
  (2, 1%nat) ∈ demo_items /\
  (fresh demo_world <= 1)%nat.
Proof.
  assert ((2, 1%nat) ∈ demo_items) as Hitem
    by (apply (list_elem_of_lookup_2 _ 0%nat); reflexivity).
  split; [reflexivity|]. split; [exact Hitem|].
  exact (proj1 (snapshots_are_built_from_the_store demo_host demo_queue
                  demo_world demo_items 2 1%nat eq_refl demo_read Hitem)).
Defined.

Lemma requestWillReplay_shapes_the_fetch_witness :
  _callbacks rewriting_queue !! "requestWillReplay" = Some (VFunction rewrite_now) /\
  run_threw (rewrite_now (ArgRequest 1%nat) (heap (read_world rewriting_queue)))
    = false /\
  exists ok rest,
    events (_replayRequest demo_host rewriting_queue 2 1%nat)
      (read_world rewriting_queue) =
      EvCallback "requestWillReplay" (ArgRequest 1%nat) false ::
      EvFetch 1%nat
        (StorableRequest.toRequest
           (run_heap (rewrite_now (ArgRequest 1%nat)
                        (heap (read_world rewriting_queue))) 1%nat)) ok :: rest.
Proof.
  assert (_callbacks rewriting_queue !! "requestWillReplay"
          = Some (VFunction rewrite_now)) as Hcb by (vm_compute; reflexivity).
  split; [exact Hcb|]. split; [reflexivity|].
  exact (requestWillReplay_shapes_the_fetch demo_host rewriting_queue 2 1%nat
           (read_world rewriting_queue) rewrite_now Hcb eq_refl).
Defined.

Lemma throwing_requestWillReplay_witness :
  _callbacks vetoing_queue !! "requestWillReplay" = Some (VFunction thrower) /\
  run_threw (thrower (ArgRequest 1%nat) (heap (read_world vetoing_queue))) = true /\
  exists tail threw,
    events (_replayRequest demo_host vetoing_queue 2 1%nat)
      (read_world vetoing_queue) =
      EvCallback "requestWillReplay" (ArgRequest 1%nat) true :: tail /\
    hook_run vetoing_queue "replayDidFail" (ArgRequest 1%nat) tail threw /\
    (_replayRequest demo_host vetoing_queue 2 1%nat (read_world vetoing_queue)).1 =
      (if threw then Throw CallbackError else Ok false) /\
    store (_replayRequest demo_host vetoing_queue 2 1%nat
             (read_world vetoing_queue)).2 = store (read_world vetoing_queue).
Proof.
  assert (_callbacks vetoing_queue !! "requestWillReplay"
          = Some (VFunction thrower)) as Hcb by (vm_compute; reflexivity).
  split; [exact Hcb|]. split; [reflexivity|].
  exact (throwing_requestWillReplay_skips_the_fetch demo_host vetoing_queue
           2 1%nat (read_world vetoing_queue) thrower Hcb eq_refl).
Defined.

Lemma throwing_replayDidFail_witness :
  EvCallback "replayDidFail" (ArgRequest 2%nat) true
    ∈ events (replayRequests demo_host failing_queue) demo_world /\
  (replayRequests demo_host failing_queue demo_world).1 = Throw CallbackError.
Proof.
  assert (EvCallback "replayDidFail" (ArgRequest 2%nat) true
            ∈ events (replayRequests demo_host failing_queue) demo_world) as Hin
    by (apply (list_elem_of_lookup_2 _ 9%nat); vm_compute; reflexivity).
  split; [exact Hin|].
  exact (proj1 (throwing_replayDidFail_aborts_the_pass demo_host failing_queue
                  demo_world 2%nat Hin)).
Defined.

Lemma deletes_follow_expiry_or_success_witness :
  EvStore (OpDelete 2) true
    ∈ events (replayRequests demo_host demo_queue) demo_world /\
  exists e, (2, e) ∈ rows (store demo_world) /\ queueName e = _name demo_queue.
Proof.
  assert (EvStore (OpDelete 2) true
            ∈ events (replayRequests demo_host demo_queue) demo_world) as Hin
    by (apply (list_elem_of_lookup_2 _ 7%nat); vm_compute; reflexivity).
  split; [exact Hin|].
  destruct (deletes_follow_expiry_or_success demo_host demo_queue demo_world
              2 true Hin) as (e & He & Hq & _).
  exists e. split; [exact He|exact Hq].
Defined.

Lemma throwing_requestWillQueue_witness :
  EvCallback "requestWillQueue" (ArgRequest 0%nat) true
    ∈ events (addRequest demo_host refusing_queue original) fresh_world /\
  (addRequest demo_host refusing_queue original fresh_world).1
    = Throw CallbackError.
Proof.
  assert (EvCallback "requestWillQueue" (ArgRequest 0%nat) true
            ∈ events (addRequest demo_host refusing_queue original) fresh_world)
    as Hin by (apply (list_elem_of_lookup_2 _ 0%nat); vm_compute; reflexivity).
  split; [exact Hin|].
  exact (proj1 (proj2 (throwing_requestWillQueue_prevents_queuing demo_host
                         refusing_queue original fresh_world 0%nat Hin))).
Defined.


Lemma stored_keys_stay_ordered_witness :
  store_wf empty_store /\
  NoDup (rows (store (run demo_host a_morning (start empty_store 1000)))).*1.
Proof.
  split; [exact store_wf_empty|].
  exact (proj2 (stored_keys_stay_ordered demo_host empty_store 1000 a_morning
                  store_wf_empty)).
Defined.

Lemma plain_queue_plain : plain plain_queue.
Proof. intros name. unfold is_function. simpl. by rewrite lookup_empty. Qed.

Lemma stored_requests_are_replayed_as_stored_witness :
  plain plain_queue /\
  (read_queue demo_host plain_queue demo_world).1 = Ok demo_items /\
  EvFetch 1%nat (replayed "/a") true
    ∈ events (replayRequests demo_host plain_queue) demo_world /\
  exists key e, (key, 1%nat) ∈ demo_items /\ (key, e) ∈ rows (store demo_world) /\
    replayed "/a" = StorableRequest.toRequest
                      (StorableRequest.fromObject (storableRequest e)).
Proof.
  assert ((read_queue demo_host plain_queue demo_world).1 = Ok demo_items)
    as Hread by (vm_compute; reflexivity).
  assert (EvFetch 1%nat (replayed "/a") true
            ∈ events (replayRequests demo_host plain_queue) demo_world) as Hin
    by (apply (list_elem_of_lookup_2 _ 5%nat); vm_compute; reflexivity).
  split; [exact plain_queue_plain|]. split; [exact Hread|]. split; [exact Hin|].
  destruct (stored_requests_are_replayed_as_stored demo_host plain_queue
              demo_world demo_items 1%nat (replayed "/a") true
              plain_queue_plain eq_refl Hread Hin)
    as (key & e & Hitem & He & _ & Hreq).
  exists key, e. split; [exact Hitem|]. split; [exact He|exact Hreq].
Defined.

Lemma a_queued_request_witness :
  (addRequest demo_host plain_queue original fresh_world).1 = Ok tt /\
  EvFetch 1%nat (StorableRequest.toRequest original_snapshot) true
    ∈ events (replayRequests demo_host plain_queue)
        (addRequest demo_host plain_queue original fresh_world).2 /\
  StorableRequest.toRequest original_snapshot
    = StorableRequest.toRequest
        (StorableRequest.fromObject (StorableRequest.toObject original_snapshot)).
Proof.
  assert ((addRequest demo_host plain_queue original fresh_world).1 = Ok tt)
    as Hadd by (vm_compute; reflexivity).
  assert (EvFetch 1%nat (StorableRequest.toRequest original_snapshot) true
            ∈ events (replayRequests demo_host plain_queue)
                (addRequest demo_host plain_queue original fresh_world).2) as Hin
    by (apply (list_elem_of_lookup_2 _ 3%nat); vm_compute; reflexivity).
  split; [exact Hadd|]. split; [exact Hin|].
  exact (a_queued_request_is_replayed_unchanged demo_host plain_queue original
           fresh_world original_snapshot 1%nat _ true
           plain_queue_plain eq_refl (Forall_nil_2 _) eq_refl Hadd Hin).
Defined.

Lemma entry_within_retention_witness :
  (1, order "/edge" 500) ∈ rows (store edge_world) /\
  now edge_world - StorableRequest.o_timestamp (storableRequest (order "/edge" 500))
    <= _maxRetentionTime demo_queue /\
  1 ∈ [(1, 0%nat)].*1.
Proof.
  assert (NoDup (rows (store edge_world)).*1) as Hkeys
    by (simpl; apply NoDup_singleton).
  assert ((read_queue demo_host demo_queue edge_world).1 = Ok [(1, 0%nat)])
    as Hread by (vm_compute; reflexivity).
  assert ((1, order "/edge" 500) ∈ rows (store edge_world)) as Hin
    by (apply (list_elem_of_lookup_2 _ 0%nat); reflexivity).
  assert (now edge_world
          - StorableRequest.o_timestamp (storableRequest (order "/edge" 500))
          <= _maxRetentionTime demo_queue) as Hage by (simpl; lia).
  split; [exact Hin|]. split; [exact Hage|].
  exact (proj1 (entry_within_retention_is_replayed demo_host demo_queue
                  edge_world [(1, 0%nat)] 1 (order "/edge" 500)
                  Hkeys Hread Hin eq_refl Hage)).
Defined.

Lemma callbacks_tell_the_outcome_witness :
  (3, 2%nat) ∈ demo_items /\
  EvCallback "replayDidFail" (ArgRequest 2%nat) false
    ∈ events (replayRequests demo_host demo_queue) demo_world /\
  (EvStore (OpDelete 3) true
     ∉ events (replayRequests demo_host demo_queue) demo_world).
Proof.
  assert ((3, 2%nat) ∈ demo_items) as Hitem
    by (apply (list_elem_of_lookup_2 _ 1%nat); reflexivity).
  assert (EvCallback "replayDidFail" (ArgRequest 2%nat) false
            ∈ events (replayRequests demo_host demo_queue) demo_world) as Hin
    by (apply (list_elem_of_lookup_2 _ 9%nat); vm_compute; reflexivity).
  split; [exact Hitem|]. split; [exact Hin|].
  exact (proj2 (proj2 (callbacks_tell_the_outcome demo_host demo_queue
                         demo_world demo_items 3 2%nat false
                         demo_store_keys demo_read Hitem) Hin)).
Defined.

Lemma a_clean_pass_witness :
  Forall (fun ev => failure_event ev = false)
    (events (replayRequests slow_host plain_queue) demo_world) /\
  (rows (store (replayRequests slow_host plain_queue demo_world).2)).*1 = [1] /\
  Forall (fun row => queueName row.2 = _name plain_queue ->
            expired plain_queue (now demo_world) row.2 = true /\
            TRemove plain_queue row.1
              ∈ parked_by (replayRequests slow_host plain_queue) demo_world)
    (rows (store (replayRequests slow_host plain_queue demo_world).2)).
Proof.
  assert (Forall (fun ev => failure_event ev = false)
            (events (replayRequests slow_host plain_queue) demo_world))
    as Hclean by (vm_compute; repeat constructor).
  split; [exact Hclean|]. split; [vm_compute; reflexivity|].
  exact (proj1 (a_clean_pass_is_not_repeated slow_host plain_queue
                  demo_world Hclean)).
Defined.
